(** * news_video_search: temporal segmentation, fusion and indexing

    A shallow embedding of the ingestion and search paths of the
    repository:

    - [Windowing] : app/core/video_processor.py (create_sliding_windows)
    - [Vision]    : app/services/vision_service.py (get_frame_difference)
    - [Indexer]   : app/services/embedding_service.py (add_chunk_to_db)
    - [Ingest]    : app/core/video_processor.py (get_video_duration,
                    ingest_videos)
    - [Fusion]    : app/process_videos.py (process_single_video), with
                    generate_visual_caption, extract_text_from_frame and
                    extract_entities of the services it calls
    - [Rag]       : app/rag_search.py (generate_answer)
    - [Frontend]  : frontend/streamlit_app.py (parse_context,
                    format_timestamp)
    - [Batch]     : app/process_videos.py (main)
    - [Audio]     : app/services/audio_service.py (extract_audio,
                    transcribe_audio), and the audio step of
                    process_single_video
    - [Tagging]   : app/core/tag_generator.py (classify_video_content,
                    generate_video_tags), and get_video_metadata of the
                    frontend

    The modules [WindowingFacts], [PipelineFacts], [IndexerFacts],
    [EntityFacts], [FusionFacts], [IngestFacts] and [WindowIds] hold
    further properties of the code embedded in the modules above.

    Conventions.  Python numbers that denote seconds are exact rationals
    ([Q]): the loop of the windowing engine only adds and compares
    integers and the duration, which binary floating point does without
    error, so the rational reading differs from the float one only by the
    representation error of a non-integral duration.  [int] arguments are
    [Z].  Strings are [string], a character being a code point below 256.
    A Python exception is a value of [exn], and code that may raise
    computes in the monad [M], where [try_except] is the only way to stop
    an exception.  The engines outside the repository (OpenCV, OpenAI,
    ChromaDB, EasyOCR, spaCy, the UUID generator) appear as Section
    variables or as oracles held in the state; what is printed on the
    console is kept in [Indexer], [Rag] and [Tagging], where the code
    reports a failed request to the operator, and left out elsewhere. *)

From Stdlib Require Import QArith Qround Qreduction Lqa Lia ZArith.
From Stdlib Require Import List Bool String Ascii.
From Stdlib Require Import DecimalString DecimalN.
Import ListNotations.

Set Implicit Arguments.

(* ================================================================== *)
(** ** Python values shared by the modules *)

Module Py.
Local Open Scope Q_scope.

(** An exception, with the text [str(e)] gives for it.  The modelled code
    only ever catches [Exception] wholesale. *)
Inductive exn : Type :=
| Exception (message : string).

Definition exn_str (e : exn) : string :=
  match e with Exception message => message end.

(** The outcome of a call: a value, or an exception on its way up. *)
Inductive result (A : Type) : Type :=
| Returned (a : A)
| Raised (e : exn).
Arguments Returned {A} a.
Arguments Raised {A} e.

(** Code that reads and writes a state [St] and may raise. *)
Definition M (St A : Type) : Type := St -> result A * St.

Definition ret {St A : Type} (a : A) : M St A :=
  fun s => (Returned a, s).

Definition bind {St A B : Type} (m : M St A) (k : A -> M St B) : M St B :=
  fun s =>
    match m s with
    | (Returned a, s') => k a s'
    | (Raised e, s') => (Raised e, s')
    end.

Definition raise {St A : Type} (e : exn) : M St A :=
  fun s => (Raised e, s).

(** [try: body  except Exception as e: handler(e)] *)
Definition try_except {St A : Type}
    (body : M St A) (handler : exn -> M St A) : M St A :=
  fun s =>
    match body s with
    | (Returned a, s') => (Returned a, s')
    | (Raised e, s') => handler e s'
    end.

(** Run code written for a component [Inner] of the state. *)
Definition zoom {St Inner A : Type}
    (get : St -> Inner) (put : Inner -> St -> St) (m : M Inner A) : M St A :=
  fun s => let (r, i) := m (get s) in (r, put i s).

Definition nat_str (n : nat) : string :=
  NilZero.string_of_uint (Nat.to_uint n).

(** [sep.join(parts)] *)
Fixpoint join (sep : string) (parts : list string) : string :=
  match parts with
  | [] => EmptyString
  | [p] => p
  | p :: (_ :: _) as rest => (p ++ sep ++ join sep rest)%string
  end.

(** [str.isspace] on the code points below 256. *)
Definition is_space (c : ascii) : bool :=
  let n := nat_of_ascii c in
  ((9 <=? n) && (n <=? 13) || (28 <=? n) && (n <=? 32)
   || (n =? 133) || (n =? 160))%nat.

Fixpoint lstrip (s : string) : string :=
  match s with
  | EmptyString => EmptyString
  | String c s' => if is_space c then lstrip s' else s
  end.

Fixpoint rstrip (s : string) : string :=
  match s with
  | EmptyString => EmptyString
  | String c s' =>
    match rstrip s' with
    | EmptyString => if is_space c then EmptyString else String c EmptyString
    | r => String c r
    end
  end.

(** [s.strip()] *)
Definition strip (s : string) : string := rstrip (lstrip s).

(** [repr] of a float that holds a multiple of 1/100 below 10^16 in
    magnitude: the shortest decimal that reads back, with at least one
    digit after the point. *)
Definition float_str (q : Q) : string :=
  let c := Qfloor (q * 100) in
  let a := Z.abs c in
  let whole := NilZero.string_of_uint (N.to_uint (Z.to_N (a / 100))) in
  let tenths := NilZero.string_of_uint (N.to_uint (Z.to_N (a mod 100 / 10))) in
  let hundredths := NilZero.string_of_uint (N.to_uint (Z.to_N (a mod 10))) in
  ((if (c <? 0)%Z then "-" else EmptyString)
   ++ whole ++ "." ++ tenths
   ++ (if (a mod 10 =? 0)%Z then EmptyString else hundredths))%string.

Definition Qlt_bool (x y : Q) : bool := negb (Qle_bool y x).

(** Rounding of an exact value to the nearest integer, ties to even. *)
Definition round_half_even (q : Q) : Z :=
  let f := Qfloor q in
  match Qcompare (q - inject_Z f) (1 # 2) with
  | Lt => f
  | Gt => (f + 1)%Z
  | Eq => if Z.even f then f else (f + 1)%Z
  end.

(** [round(x, 2)]: the nearest multiple of 1/100, in lowest terms. *)
Definition round2 (q : Q) : Q :=
  Qred (inject_Z (round_half_even (q * 100)) / 100).

Lemma Qlt_bool_iff (x y : Q) : Qlt_bool x y = true <-> x < y.
Proof.
  unfold Qlt_bool. rewrite negb_true_iff.
  split; intro H.
  - apply Qnot_le_lt. intro Hle. apply Qle_bool_iff in Hle. congruence.
  - destruct (Qle_bool y x) eqn:E; [|reflexivity].
    apply Qle_bool_iff in E. apply Qle_not_lt in E. contradiction.
Qed.

Lemma Qlt_bool_false (x y : Q) : Qlt_bool x y = false <-> y <= x.
Proof.
  unfold Qlt_bool. rewrite negb_false_iff. apply Qle_bool_iff.
Qed.

Lemma round_half_even_range (q : Q) :
  (Qfloor q <= round_half_even q <= Qfloor q + 1)%Z.
Proof.
  unfold round_half_even.
  destruct (Qcompare _ _); try destruct (Z.even _); lia.
Qed.

Lemma round_half_even_ge (q : Q) (k : Z) :
  inject_Z k <= q -> (k <= round_half_even q)%Z.
Proof.
  intro H. apply Qfloor_resp_le in H. rewrite Qfloor_Z in H.
  pose proof (round_half_even_range q). lia.
Qed.

Lemma round_half_even_le (q : Q) (k : Z) :
  q <= inject_Z k -> (round_half_even q <= k)%Z.
Proof.
  intro H. unfold round_half_even.
  pose proof (Qfloor_le q) as Hf.
  assert (Hk : (Qfloor q <= k)%Z).
  { rewrite Zle_Qle. lra. }
  assert (Hup : inject_Z (Qfloor q) < q -> (Qfloor q + 1 <= k)%Z).
  { intro Hlt. assert (Hlt' : (Qfloor q < k)%Z) by (rewrite Zlt_Qlt; lra). lia. }
  destruct (Qcompare (q - inject_Z (Qfloor q)) (1 # 2)) eqn:E.
  - apply Qeq_alt in E. destruct (Z.even _); [exact Hk|]. apply Hup. lra.
  - exact Hk.
  - apply Qgt_alt in E. apply Hup. lra.
Qed.

Lemma round2_ge (q : Q) (k : Z) : inject_Z k <= q -> inject_Z k <= round2 q.
Proof.
  intro H. unfold round2. rewrite Qred_correct.
  assert (Hr : (k * 100 <= round_half_even (q * 100))%Z).
  { apply round_half_even_ge. rewrite inject_Z_mult.
    change (inject_Z 100) with 100. lra. }
  rewrite Zle_Qle, inject_Z_mult in Hr. change (inject_Z 100) with 100 in Hr.
  apply Qle_shift_div_l; lra.
Qed.

Lemma round2_le (q : Q) (k : Z) : q <= inject_Z k -> round2 q <= inject_Z k.
Proof.
  intro H. unfold round2. rewrite Qred_correct.
  assert (Hr : (round_half_even (q * 100) <= k * 100)%Z).
  { apply round_half_even_le. rewrite inject_Z_mult.
    change (inject_Z 100) with 100. lra. }
  rewrite Zle_Qle, inject_Z_mult in Hr. change (inject_Z 100) with 100 in Hr.
  apply Qle_shift_div_r; lra.
Qed.

Lemma round2_int (q : Q) (k : Z) : q == inject_Z k -> round2 q == inject_Z k.
Proof.
  intro H. apply Qle_antisym.
  - apply round2_le. lra.
  - apply round2_ge. lra.
Qed.

Lemma round2_comp (p q : Q) : p == q -> round2 p = round2 q.
Proof.
  intro H. unfold round2. apply Qred_complete.
  assert (E : round_half_even (p * 100) = round_half_even (q * 100)).
  { unfold round_half_even.
    assert (Hf : Qfloor (p * 100) = Qfloor (q * 100))
      by (apply Qfloor_comp; rewrite H; reflexivity).
    rewrite Hf.
    assert (Hc : Qcompare (p * 100 - inject_Z (Qfloor (q * 100))) (1 # 2)
                 = Qcompare (q * 100 - inject_Z (Qfloor (q * 100))) (1 # 2))
      by (apply Qcompare_comp; [rewrite H; reflexivity | reflexivity]).
    rewrite Hc. reflexivity. }
  rewrite E. reflexivity.
Qed.

Lemma append_length (s t : string) :
  String.length (s ++ t) = (String.length s + String.length t)%nat.
Proof. induction s as [|c s IH]; simpl; [reflexivity|now rewrite IH]. Qed.

Lemma append_inv_tail (t : string) :
  forall s1 s2 : string, (s1 ++ t = s2 ++ t)%string -> s1 = s2.
Proof.
  induction s1 as [|c s1 IH]; intros [|d s2] H; simpl in H.
  - reflexivity.
  - exfalso. apply (f_equal String.length) in H. simpl in H.
    rewrite append_length in H. lia.
  - exfalso. apply (f_equal String.length) in H. simpl in H.
    rewrite append_length in H. lia.
  - inversion H; subst. f_equal. now apply IH.
Qed.

End Py.

Declare Scope py_scope.
Delimit Scope py_scope with py.
Notation "x <- m ;; k" := (Py.bind m (fun x => k))
  (at level 61, m at next level, right associativity) : py_scope.
Notation "m ;;; k" := (Py.bind m (fun _ => k))
  (at level 61, right associativity) : py_scope.

(* ================================================================== *)
(** ** app/core/video_processor.py: the windowing engine *)

Module Windowing.
Import Py.
Local Open Scope Q_scope.

(** The dictionary with the keys [start] and [end]. *)
Record window : Type := mkWindow { start : Q; end_ : Q }.

(** The [while] loop of [create_sliding_windows].  [fuel] bounds the
    number of times the loop condition is evaluated; [None] means the
    bound was reached before the loop exited. *)
Fixpoint windows_loop (fuel : nat) (video_duration : Q)
    (window_size step_size : Z) (current_start : Q)
    (windows : list window) : option (list window) :=
  match fuel with
  | O => None
  | S fuel' =>
    if Qlt_bool current_start video_duration then
      let current_end := current_start + inject_Z window_size in
      let current_end :=
        if Qlt_bool video_duration current_end
        then video_duration else current_end in
      if Qlt_bool (current_end - current_start) 1 then Some windows
      else
        let windows :=
          windows ++ [ {| start := round2 current_start;
                          end_ := round2 current_end |} ] in
        if Qeq_bool current_end video_duration then Some windows
        else windows_loop fuel' video_duration window_size step_size
               (current_start + inject_Z step_size) windows
    else Some windows
  end.

Definition create_sliding_windows (fuel : nat) (video_duration : Q)
    (window_size step_size : Z) : option (list window) :=
  windows_loop fuel video_duration window_size step_size 0 [].

(** A point of time lies in a window, or in some window of a sequence. *)
Definition in_window (t : Q) (w : window) : Prop :=
  start w <= t /\ t <= end_ w.

Definition covered (ws : list window) (t : Q) : Prop :=
  exists w, In w ws /\ in_window t w.

(** A sequence of windows read as a sequence of (start, end) pairs. *)
Definition same_windows (ws : list window) (l : list (Q * Q)) : Prop :=
  Forall2 (fun w p => start w == fst p /\ end_ w == snd p) ws l.

(** The last window of a sequence ([windows[-1]]). *)
Definition last_window (ws : list window) : window :=
  last ws (mkWindow 0 0).

(** The windows leave no point of [[0, upto]] out. *)
Definition covers_upto (ws : list window) (upto : Q) : Prop :=
  forall t, 0 <= t -> t <= upto -> covered ws t.

(** *** The loop, one iteration at a time *)

Section Loop.
Variables (D : Q) (W S : Z).

(** [current_end] after clipping to the duration. *)
Definition clipped_end (s : Q) : Q :=
  if Qlt_bool D (s + inject_Z W) then D else s + inject_Z W.

Definition window_at (s : Q) : window :=
  {| start := round2 s; end_ := round2 (clipped_end s) |}.

(** The windows appended by the loop when it is entered with
    [current_start = s]: one constructor per way of leaving an iteration. *)
Inductive emits : Q -> list window -> Prop :=
| emits_exit s :
    D <= s -> emits s []
| emits_short s :
    s < D -> clipped_end s - s < 1 -> emits s []
| emits_last s :
    s < D -> 1 <= clipped_end s - s -> clipped_end s == D ->
    emits s [window_at s]
| emits_more s ws :
    s < D -> 1 <= clipped_end s - s -> ~ clipped_end s == D ->
    emits (s + inject_Z S) ws -> emits s (window_at s :: ws).

Lemma windows_loop_acc (fuel : nat) :
  forall s acc,
    windows_loop fuel D W S s acc
    = option_map (app acc) (windows_loop fuel D W S s []).
Proof.
  induction fuel as [|fuel IH]; intros s acc; simpl; [reflexivity|].
  destruct (Qlt_bool s D); simpl; [|now rewrite app_nil_r].
  destruct (Qlt_bool _ 1); simpl; [now rewrite app_nil_r|].
  destruct (Qeq_bool _ D); simpl; [reflexivity|].
  rewrite IH. rewrite (IH _ [_]).
  destruct (windows_loop fuel D W S _ []) as [ws|]; simpl; [|reflexivity].
  now rewrite <- app_assoc.
Qed.

Lemma windows_loop_emits (fuel : nat) :
  forall s ws, windows_loop fuel D W S s [] = Some ws -> emits s ws.
Proof.
  induction fuel as [|fuel IH]; intros s ws; simpl; [discriminate|].
  fold (clipped_end s).
  destruct (Qlt_bool s D) eqn:Es.
  2:{ intro H; inversion H; subst. apply emits_exit.
      now apply Qlt_bool_false. }
  apply Qlt_bool_iff in Es.
  destruct (Qlt_bool (clipped_end s - s) 1) eqn:El.
  { intro H; inversion H; subst. apply emits_short; [assumption|].
    now apply Qlt_bool_iff. }
  apply Qlt_bool_false in El.
  destruct (Qeq_bool (clipped_end s) D) eqn:Ee.
  { intro H; inversion H; subst. apply emits_last; try assumption.
    now apply Qeq_bool_eq. }
  apply Qeq_bool_neq in Ee.
  rewrite windows_loop_acc.
  destruct (windows_loop fuel D W S _ []) as [ws'|] eqn:Er; simpl;
    [|discriminate].
  intro H; inversion H; subst.
  apply emits_more; try assumption. now apply IH.
Qed.

Lemma clipped_end_le (s : Q) : clipped_end s <= s + inject_Z W.
Proof.
  unfold clipped_end. destruct (Qlt_bool D _) eqn:E.
  - apply Qlt_bool_iff in E. lra.
  - lra.
Qed.

Lemma clipped_end_le_D (s : Q) : clipped_end s <= D.
Proof.
  unfold clipped_end. destruct (Qlt_bool D _) eqn:E.
  - lra.
  - now apply Qlt_bool_false in E.
Qed.

Lemma clipped_end_not_D (s : Q) :
  ~ clipped_end s == D -> clipped_end s == s + inject_Z W /\ s + inject_Z W < D.
Proof.
  pose proof (clipped_end_le_D s) as Hle.
  unfold clipped_end in *. destruct (Qlt_bool D _) eqn:E; intro H.
  - exfalso. apply H. reflexivity.
  - split; [reflexivity|]. apply Qlt_bool_false in E.
    apply Qle_lt_or_eq in E. destruct E as [E|E]; [exact E|]. now elim H.
Qed.

(** The bounds of the window appended at an integral [current_start]. *)
Lemma window_at_bounds (s : Q) (k : Z) :
  s == inject_Z k -> 1 <= clipped_end s - s ->
  start (window_at s) == s /\
  s + 1 <= end_ (window_at s) /\
  end_ (window_at s) <= s + inject_Z W.
Proof.
  intros Hs Hlen. simpl. repeat split.
  - rewrite (round2_int Hs). now symmetry.
  - assert (H1 : inject_Z (k + 1) <= clipped_end s).
    { rewrite inject_Z_plus. change (inject_Z 1) with 1. lra. }
    apply round2_ge in H1. rewrite inject_Z_plus in H1.
    change (inject_Z 1) with 1 in H1. lra.
  - assert (H1 : clipped_end s <= inject_Z (k + W)).
    { rewrite inject_Z_plus. pose proof (clipped_end_le s). lra. }
    apply round2_le in H1. rewrite inject_Z_plus in H1. lra.
Qed.

Lemma emits_lengths (s : Q) (ws : list window) :
  emits s ws -> forall k, s == inject_Z k ->
  Forall (fun w => 1 <= end_ w - start w /\ end_ w - start w <= inject_Z W) ws.
Proof.
  induction 1 as [s _|s _ _|s _ Hlen _|s ws _ Hlen _ _ IH]; intros k Hs;
    try constructor.
  - destruct (window_at_bounds Hs Hlen) as (? & ? & ?). split; lra.
  - constructor.
  - destruct (window_at_bounds Hs Hlen) as (? & ? & ?). split; lra.
  - apply (IH (k + S)%Z). rewrite inject_Z_plus. lra.
Qed.

Lemma emits_starts (s : Q) (ws : list window) :
  emits s ws -> forall k, s == inject_Z k ->
  forall i w, nth_error ws i = Some w ->
    start w == s + inject_Z (Z.of_nat i * S).
Proof.
  induction 1 as [s _|s _ _|s _ Hlen _|s ws _ Hlen _ _ IH]; intros k Hs i w Hi.
  - destruct i; discriminate.
  - destruct i; discriminate.
  - destruct i as [|[|i]]; try discriminate. inversion Hi; subst.
    destruct (window_at_bounds Hs Hlen) as (H0 & _). rewrite H0.
    change (inject_Z (Z.of_nat 0 * S)) with (inject_Z 0).
    change (inject_Z 0) with 0. lra.
  - destruct i as [|i].
    + inversion Hi; subst.
      destruct (window_at_bounds Hs Hlen) as (H0 & _). rewrite H0.
      change (inject_Z (Z.of_nat 0 * S)) with (inject_Z 0).
      change (inject_Z 0) with 0. lra.
    + simpl in Hi.
      assert (Hs' : s + inject_Z S == inject_Z (k + S))
        by (rewrite inject_Z_plus; lra).
      rewrite (IH _ Hs' _ _ Hi).
      replace (Z.of_nat (Datatypes.S i) * S)%Z with (S + Z.of_nat i * S)%Z by lia.
      rewrite inject_Z_plus. lra.
Qed.

Lemma emits_nothing (s : Q) (ws : list window) :
  emits s ws -> D <= s -> ws = [].
Proof.
  destruct 1; intro Hle; try reflexivity; exfalso; lra.
Qed.

Lemma last_window_cons (w w' : window) (ws : list window) :
  last_window (w :: w' :: ws) = last_window (w' :: ws).
Proof. reflexivity. Qed.

Lemma covered_cons (w : window) (ws : list window) (t : Q) :
  in_window t w \/ covered ws t -> covered (w :: ws) t.
Proof.
  intros [H|(w' & Hin & H)].
  - exists w. split; [now left|exact H].
  - exists w'. split; [now right|exact H].
Qed.

(** With no gap between consecutive windows ([S <= W]), everything from
    the first start to the end of the last window is covered. *)
Lemma emits_contiguous (s : Q) (ws : list window) :
  (S <= W)%Z -> emits s ws -> forall k, s == inject_Z k ->
  forall t, ws <> [] -> s <= t -> t <= end_ (last_window ws) -> covered ws t.
Proof.
  intros HSW.
  induction 1 as [s _|s _ _|s _ Hlen _|s ws _ Hlen Hne Hrest IH];
    intros k Hs t Hnil Hlo Hhi; try congruence.
  - destruct (window_at_bounds Hs Hlen) as (H0 & _).
    apply covered_cons. left. split; [lra|exact Hhi].
  - destruct (window_at_bounds Hs Hlen) as (H0 & _ & H2).
    apply clipped_end_not_D in Hne. destruct Hne as [Hce _].
    assert (Hend : end_ (window_at s) == s + inject_Z W).
    { simpl. rewrite (round2_comp Hce).
      assert (Hk : s + inject_Z W == inject_Z (k + W))
        by (rewrite inject_Z_plus; lra).
      rewrite (round2_int Hk). now symmetry. }
    apply covered_cons.
    destruct (Qlt_le_dec (s + inject_Z W) t) as [Hgt|Hle].
    + right. destruct ws as [|w' ws'].
      * unfold last_window in Hhi. simpl last in Hhi. lra.
      * rewrite last_window_cons in Hhi.
        apply (IH (k + S)%Z); try assumption.
        -- rewrite inject_Z_plus. lra.
        -- discriminate.
        -- rewrite Zle_Qle in HSW. lra.
    + left. split; lra.
Qed.

(** With overlapping windows ([S < W]) and at least one second of video
    left, the loop ends on a window that reaches the duration. *)
Lemma emits_reaches_end (s : Q) (ws : list window) :
  (0 < W)%Z -> (S < W)%Z -> emits s ws -> s + 1 <= D ->
  ws <> [] /\ end_ (last_window ws) = round2 D.
Proof.
  intros HW HSW.
  assert (HW1 : 1 <= inject_Z W).
  { change 1 with (inject_Z 1). rewrite <- Zle_Qle. lia. }
  assert (HSW1 : inject_Z S + 1 <= inject_Z W).
  { change 1 with (inject_Z 1). rewrite <- inject_Z_plus, <- Zle_Qle. lia. }
  induction 1 as [s Hex|s _ Hshort|s _ _ He|s ws _ _ Hne Hrest IH]; intro Hroom.
  - exfalso. lra.
  - exfalso. unfold clipped_end in Hshort.
    destruct (Qlt_bool D _); lra.
  - split; [discriminate|]. unfold last_window. simpl.
    now apply round2_comp.
  - apply clipped_end_not_D in Hne. destruct Hne as [_ Hlt].
    destruct IH as [Hnil Hlast]; [lra|].
    split; [discriminate|].
    destruct ws as [|w' ws']; [congruence|].
    rewrite last_window_cons. exact Hlast.
Qed.

(** The loop leaves, given one unit of fuel per second of video and one
    more, whenever the step is positive. *)
Lemma windows_loop_terminates (fuel : nat) :
  (0 < S)%Z -> forall s,
  (Z.to_nat (Qceiling (D - s)) < fuel)%nat ->
  exists ws, windows_loop fuel D W S s [] = Some ws.
Proof.
  intro HS.
  assert (HS1 : 1 <= inject_Z S).
  { change 1 with (inject_Z 1). rewrite <- Zle_Qle. lia. }
  induction fuel as [|fuel IH]; intros s Hfuel; [lia|].
  simpl.
  destruct (Qlt_bool s D) eqn:Es; [|eauto].
  apply Qlt_bool_iff in Es.
  destruct (Qlt_bool _ 1); [eauto|].
  destruct (Qeq_bool _ D); [eauto|].
  rewrite windows_loop_acc.
  destruct (IH (s + inject_Z S)) as [ws Hws].
  - pose proof (Qle_ceiling (D - s)) as Hc.
    assert (Hpos : (0 < Qceiling (D - s))%Z).
    { rewrite Zlt_Qlt. change (inject_Z 0) with 0. lra. }
    assert (Hstep : (Qceiling (D - (s + inject_Z S)) <= Qceiling (D - s) - 1)%Z).
    { rewrite <- (Qceiling_Z (Qceiling (D - s) - 1)).
      apply Qceiling_resp_le.
      unfold Zminus. rewrite inject_Z_plus.
      change (inject_Z (- (1))) with (- (1)). lra. }
    lia.
  - rewrite Hws. simpl. eauto.
Qed.

End Loop.

(** *** Evaluations *)

Example windows_of_45_seconds :
  create_sliding_windows 10 45 20 10
  = Some [ mkWindow 0 20; mkWindow 10 30; mkWindow 20 40; mkWindow 30 45 ].
Proof. vm_compute. reflexivity. Qed.

(** A tail of half a second is dropped. *)
Example windows_drop_short_tail :
  create_sliding_windows 10 (41 # 2) 10 10
  = Some [ mkWindow 0 10; mkWindow 10 20 ].
Proof. vm_compute. reflexivity. Qed.

(** The end of the last window is the duration rounded to two decimals. *)
Example windows_round_the_end :
  create_sliding_windows 10 (12345 # 1000) 20 10
  = Some [ mkWindow 0 (617 # 50) ].
Proof. vm_compute. reflexivity. Qed.

(** Without fuel left the loop has not left yet. *)
Example windows_out_of_fuel : create_sliding_windows 2 45 20 10 = None.
Proof. vm_compute. reflexivity. Qed.

(** *** The claims on the windowing engine *)

(** C3, as the code has it.  A 25-second video cut with window_size 20 and
    step_size 10 gives exactly two windows, [0,20] and then [10,25]: the
    second window starts one step after the first, not where the first one
    ends.  Two evaluations of the loop condition are enough. *)
Theorem create_sliding_windows_25_20_10 (fuel : nat) :
  create_sliding_windows (S (S fuel)) 25 20 10
  = Some [ mkWindow 0 20; mkWindow 10 25 ].
Proof.
  unfold create_sliding_windows.
  cbn [windows_loop].
  vm_compute. reflexivity.
Qed.

(** C3, as the spec words it, fails: the sequence returned for
    (25, 20, 10) is not [0,20], [20,25]. *)
Lemma create_sliding_windows_25_not_20_25 :
  exists ws,
    create_sliding_windows 5 25 20 10 = Some ws /\
    ~ same_windows ws [ (0, 20); (20, 25) ].
Proof.
  eexists. split; [vm_compute; reflexivity|].
  intro H. inversion H as [|w p ws l _ Hrest]; subst.
  inversion Hrest as [|w' p' ws' l' [Hstart _] _]; subst.
  simpl in Hstart. unfold Qeq in Hstart. simpl in Hstart. discriminate.
Qed.

(** C4, as the code has it.  For positive window and step sizes, and fuel
    beyond the duration in seconds, the loop returns a sequence in which
    the i-th window starts at i * step_size (so starts increase strictly,
    each one step after its predecessor), every window is at least one
    second and at most window_size long, and nothing is returned for a
    duration that is not positive.  Coverage holds in this form: when
    step_size <= window_size the windows cover everything up to the end of
    the last one, and when step_size < window_size and the video lasts at
    least one second they cover [0, round(D, 2)]. *)
Theorem create_sliding_windows_spec
    (fuel : nat) (D : Q) (window_size step_size : Z) :
  (0 < window_size)%Z -> (0 < step_size)%Z ->
  (Z.to_nat (Qceiling D) < fuel)%nat ->
  exists ws,
    create_sliding_windows fuel D window_size step_size = Some ws /\
    (forall i w, nth_error ws i = Some w ->
       start w == inject_Z (Z.of_nat i * step_size)) /\
    (forall i w w',
       nth_error ws i = Some w -> nth_error ws (S i) = Some w' ->
       start w < start w' /\ start w' == start w + inject_Z step_size) /\
    (forall w, In w ws ->
       1 <= end_ w - start w /\ end_ w - start w <= inject_Z window_size) /\
    (D <= 0 -> ws = []) /\
    ((step_size <= window_size)%Z -> ws <> [] ->
       covers_upto ws (end_ (last_window ws))) /\
    ((step_size < window_size)%Z -> 1 <= D -> covers_upto ws (round2 D)).
Proof.
  intros HW HS Hfuel. unfold create_sliding_windows.
  destruct (@windows_loop_terminates D window_size step_size fuel HS 0)
    as [ws Hrun].
  { assert (E : Qceiling (D - 0) = Qceiling D)
      by (apply Qceiling_comp; lra).
    rewrite E. exact Hfuel. }
  exists ws. split; [exact Hrun|].
  apply windows_loop_emits in Hrun.
  assert (H0 : 0 == inject_Z 0) by reflexivity.
  assert (Hstarts : forall i w, nth_error ws i = Some w ->
            start w == inject_Z (Z.of_nat i * step_size)).
  { intros i w Hi. rewrite (emits_starts Hrun H0 _ Hi). lra. }
  assert (HS1 : 1 <= inject_Z step_size).
  { change 1 with (inject_Z 1). rewrite <- Zle_Qle. lia. }
  assert (Hnext : forall i w w',
            nth_error ws i = Some w -> nth_error ws (S i) = Some w' ->
            start w' == start w + inject_Z step_size).
  { intros i w w' Hi Hi'. rewrite (Hstarts _ _ Hi), (Hstarts _ _ Hi').
    rewrite Nat2Z.inj_succ. unfold Z.succ.
    rewrite Z.mul_add_distr_r, Z.mul_1_l, inject_Z_plus. lra. }
  pose proof (emits_lengths Hrun H0) as Hlen.
  rewrite Forall_forall in Hlen.
  split; [exact Hstarts|]. split; [|split; [exact Hlen|]].
  { intros i w w' Hi Hi'. pose proof (Hnext i w w' Hi Hi') as Hstep.
    split; [lra|exact Hstep]. }
  split; [|split].
  - intro HD. apply (emits_nothing Hrun). exact HD.
  - intros HSW Hne t Hlo Hhi.
    apply (emits_contiguous HSW Hrun H0); assumption.
  - intros HSW HD t Hlo Hhi.
    destruct (emits_reaches_end HW HSW Hrun) as [Hne Hlast]; [lra|].
    apply (emits_contiguous (Z.lt_le_incl _ _ HSW) Hrun H0);
      try assumption.
    rewrite Hlast. exact Hhi.
Qed.

Lemma create_sliding_windows_spec_witness :
  exists ws,
    create_sliding_windows 30 (51 # 2) 20 10 = Some ws /\
    covers_upto ws (round2 (51 # 2)).
Proof.
  destruct (@create_sliding_windows_spec 30 (51 # 2) 20 10)
    as (ws & Hrun & _ & _ & _ & _ & _ & Hcov);
    [lia | lia | vm_compute; lia |].
  exists ws. split; [exact Hrun|].
  apply Hcov; [lia | vm_compute; discriminate].
Defined.

(** C4, as the spec words it, fails on coverage.  With the pipeline's own
    sizes (20, 10) a half-second video gets no window at all; and with a
    step larger than the window the point 7 of a 25-second video falls in
    the gap between [0,5] and [10,15]. *)
Lemma create_sliding_windows_not_covering :
  (exists ws,
     create_sliding_windows 5 (1 # 2) 20 10 = Some ws /\
     ~ covers_upto ws (1 # 2)) /\
  (exists ws,
     create_sliding_windows 5 25 5 10 = Some ws /\
     ~ covers_upto ws 25).
Proof.
  split; eexists; (split; [vm_compute; reflexivity|]); intro H.
  - destruct (H 0) as (w & Hin & _); [lra | lra | destruct Hin].
  - destruct (H 7) as (w & Hin & Hlo & Hhi); [lra | lra |].
    simpl in Hin.
    destruct Hin as [<-|[<-|[<-|[]]]]; simpl in Hlo, Hhi;
      unfold Qle in Hlo, Hhi; simpl in Hlo, Hhi; lia.
Qed.

End Windowing.

(* ================================================================== *)
(** ** app/services/vision_service.py: the frame-difference score *)

Module Vision.
Import Py.
Local Open Scope Q_scope.

(** A Python float that may be [float('inf')]. *)
Inductive score : Type :=
| Finite (q : Q)
| Infinity.

(** [diff > threshold] for a finite threshold. *)
Definition score_gt (d : score) (threshold : Q) : bool :=
  match d with
  | Finite q => Qlt_bool threshold q
  | Infinity => true
  end.

(** The score is the finite value [q], up to the equality of rationals. *)
Definition score_is (d : score) (q : Q) : Prop :=
  match d with
  | Finite x => x == q
  | Infinity => False
  end.

Definition score_nonneg (d : score) : Prop :=
  match d with
  | Finite x => 0 <= x
  | Infinity => True
  end.

(** [np.sum((gray1 - gray2) ** 2)] over two pixel arrays of one shape.
    Every summand is an integer below 2^16 and there are 4096 of them, so
    the float64 sum of the source is exact in any order. *)
Definition sum_sq_diff (gray1 gray2 : list Z) : Z :=
  fold_left (fun acc p => (acc + (fst p - snd p) ^ 2)%Z)
            (combine gray1 gray2) 0%Z.

Section Frames.

(** A decoded frame ([np.ndarray]), and OpenCV's part of the comparison:
    [cv2.cvtColor(cv2.resize(frame, (64, 64)), cv2.COLOR_BGR2GRAY)], read
    row by row.  The resize fixes the shape. *)
Variable frame : Type.
Variable gray64 : frame -> list Z.

Definition get_frame_difference (frame1 frame2 : option frame) : score :=
  match frame1, frame2 with
  | Some f1, Some f2 =>
    let gray1 := gray64 f1 in
    let gray2 := gray64 f2 in
    let err := inject_Z (sum_sq_diff gray1 gray2) in
    Finite (err / inject_Z (Z.of_nat (List.length gray1)))
  | _, _ => Infinity
  end.

End Frames.

Lemma fold_sq_diff_acc (l : list (Z * Z)) :
  forall a : Z,
    fold_left (fun acc p => (acc + (fst p - snd p) ^ 2)%Z) l a
    = (a + fold_left (fun acc p => (acc + (fst p - snd p) ^ 2)%Z) l 0)%Z.
Proof.
  induction l as [|p l IH]; intro a; cbn [fold_left]; [lia|].
  rewrite IH. rewrite (IH (0 + (fst p - snd p) ^ 2)%Z). lia.
Qed.

Lemma sum_sq_diff_cons (a b : Z) (g1 g2 : list Z) :
  sum_sq_diff (a :: g1) (b :: g2) = ((a - b) ^ 2 + sum_sq_diff g1 g2)%Z.
Proof.
  unfold sum_sq_diff. cbn [combine fold_left fst snd].
  rewrite fold_sq_diff_acc. lia.
Qed.

Lemma sum_sq_diff_sym (g1 : list Z) :
  forall g2, sum_sq_diff g1 g2 = sum_sq_diff g2 g1.
Proof.
  induction g1 as [|a g1 IH]; intros [|b g2]; try reflexivity.
  rewrite !sum_sq_diff_cons, IH. f_equal. nia.
Qed.

Lemma sum_sq_diff_nonneg (g1 : list Z) :
  forall g2, (0 <= sum_sq_diff g1 g2)%Z.
Proof.
  induction g1 as [|a g1 IH]; intros [|b g2]; try (cbv; discriminate).
  rewrite sum_sq_diff_cons. specialize (IH g2). nia.
Qed.

Lemma sum_sq_diff_same (g : list Z) : sum_sq_diff g g = 0%Z.
Proof.
  induction g as [|a g IH]; [reflexivity|].
  rewrite sum_sq_diff_cons, IH. replace (a - a)%Z with 0%Z by lia. reflexivity.
Qed.

Section FrameDifference.
Variable frame : Type.
Variable gray64 : frame -> list Z.

Lemma get_frame_difference_none (a b : option frame) :
  a = None \/ b = None -> get_frame_difference gray64 a b = Infinity.
Proof. intros [->| ->]; [|destruct a]; reflexivity. Qed.

Lemma get_frame_difference_same (f : frame) :
  score_is (get_frame_difference gray64 (Some f) (Some f)) 0.
Proof.
  simpl. rewrite sum_sq_diff_same. unfold Qdiv. apply Qmult_0_l.
Qed.

Lemma get_frame_difference_nonneg (a b : option frame) :
  score_nonneg (get_frame_difference gray64 a b).
Proof.
  destruct a as [f1|], b as [f2|]; simpl; trivial.
  apply Qmult_le_0_compat.
  - change 0 with (inject_Z 0). rewrite <- Zle_Qle.
    apply sum_sq_diff_nonneg.
  - apply Qinv_le_0_compat. change 0 with (inject_Z 0).
    rewrite <- Zle_Qle. lia.
Qed.

Lemma get_frame_difference_sym (a b : option frame) :
  (forall f, List.length (gray64 f) = 4096%nat) ->
  get_frame_difference gray64 a b = get_frame_difference gray64 b a.
Proof.
  intro Hshape. destruct a as [f1|], b as [f2|]; simpl; trivial.
  now rewrite sum_sq_diff_sym, !Hshape.
Qed.

Lemma same_frame_below_threshold (f : frame) (threshold : Q) :
  0 <= threshold ->
  score_gt (get_frame_difference gray64 (Some f) (Some f)) threshold = false.
Proof.
  intro Ht. pose proof (get_frame_difference_same f) as H.
  destruct (get_frame_difference gray64 (Some f) (Some f)) as [q|];
    simpl in *; [|contradiction].
  apply Qlt_bool_false. rewrite H. exact Ht.
Qed.

End FrameDifference.

End Vision.

(* ================================================================== *)
(** ** app/services/embedding_service.py: the resilient indexer *)

Module Indexer.
Import Py.
Local Open Scope string_scope.
Local Open Scope py_scope.

(** Metadata dictionaries: keys in insertion order, string or number
    values. *)
Inductive value : Type :=
| VStr (s : string)
| VNum (q : Q).

Definition dict : Type := list (string * value).

(** [d[k] = v] *)
Fixpoint dict_set (d : dict) (k : string) (v : value) : dict :=
  match d with
  | [] => [(k, v)]
  | (k', v') :: d' =>
    if String.eqb k' k then (k, v) :: d' else (k', v') :: dict_set d' k v
  end.

(** One entry of the ChromaDB collection. *)
Record entry : Type :=
  mkEntry { entry_id : string; document : string; metadata_of : dict }.

(** What the outside world sees of the indexer. *)
Inductive event : Type :=
| StoreAdd (id : string)
| Slept (seconds : Z)
| Printed (line : string).

(** ChromaDB's [Collection.add] is an insert: it never overwrites an entry
    whose id is already present.  Depending on the library version the
    call is then silently ignored or rejected with an error; both are
    modelled. *)
Inductive add_policy : Type :=
| IgnoreExisting
| RejectExisting.

(** The collection, the connectivity of the calls to come ([true]: the
    call fails with a connection error before anything is written), and
    the events so far. *)
Record store : Type :=
  mkStore { collection : list entry; faults : list bool; trace : list event }.

Definition has_id (id : string) (c : list entry) : bool :=
  existsb (fun r => String.eqb (entry_id r) id) c.

Definition emit (ev : event) : M store unit :=
  fun st => (Returned tt,
             {| collection := collection st; faults := faults st;
                trace := trace st ++ [ev] |}).

(** [collection.add(documents=[text], metadatas=[metadata], ids=[chunk_id])] *)
Definition collection_add (policy : add_policy)
    (text : string) (metadata : dict) (chunk_id : string) : M store unit :=
  fun st =>
    let st' := {| collection := collection st; faults := tl (faults st);
                  trace := trace st ++ [StoreAdd chunk_id] |} in
    if hd false (faults st) then
      (Raised (Exception "Connection error."), st')
    else if has_id chunk_id (collection st) then
      match policy with
      | IgnoreExisting => (Returned tt, st')
      | RejectExisting =>
        (Raised (Exception ("ID already exists: " ++ chunk_id)), st')
      end
    else
      (Returned tt,
       {| collection := collection st ++ [mkEntry chunk_id text metadata];
          faults := faults st'; trace := trace st' |}).

(** The body of [for attempt in range(max_retries)], over the attempts
    still to run; leaving the recursion is the [break]. *)
Fixpoint add_attempts (policy : add_policy) (max_retries : nat)
    (attempts : list nat) (text : string) (metadata : dict)
    (chunk_id : string) : M store unit :=
  match attempts with
  | [] => ret tt
  | attempt :: rest =>
    continue <-
      try_except
        (collection_add policy text metadata chunk_id ;;; ret false)
        (fun e =>
           emit (Printed ("Connection error saving chunk (Attempt "
                          ++ nat_str (attempt + 1) ++ "/"
                          ++ nat_str max_retries ++ "): " ++ exn_str e)) ;;;
           (if (attempt <? max_retries - 1)%nat
            then emit (Slept 2)
            else emit (Printed ("Failed to save chunk " ++ chunk_id
                                ++ " after " ++ nat_str max_retries
                                ++ " attempts."))) ;;;
           ret true) ;;
    if continue
    then add_attempts policy max_retries rest text metadata chunk_id
    else ret tt
  end.

Definition chunk_id_of (video_id : string) (start_time end_time : Q)
  : string :=
  video_id ++ "_" ++ float_str start_time ++ "_" ++ float_str end_time.

Definition max_retries : nat := 3.

Definition add_chunk_to_db (policy : add_policy) (video_id : string)
    (start_time end_time : Q) (text : string) (metadata : option dict)
  : M store unit :=
  let metadata := match metadata with None => [] | Some m => m end in
  let metadata := dict_set metadata "video_id" (VStr video_id) in
  let metadata := dict_set metadata "start_time" (VNum start_time) in
  let metadata := dict_set metadata "end_time" (VNum end_time) in
  let chunk_id := chunk_id_of video_id start_time end_time in
  add_attempts policy max_retries (seq 0 max_retries) text metadata chunk_id.

(** The entries stored under an identity. *)
Definition entries_with (id : string) (st : store) : list entry :=
  filter (fun r => String.eqb (entry_id r) id) (collection st).

Definition count_adds (id : string) (tr : list event) : nat :=
  List.length
    (filter (fun ev => match ev with
                       | StoreAdd i => String.eqb i id
                       | _ => false
                       end) tr).

(** The metadata as [add_chunk_to_db] completes it before the write. *)
Definition stamped (metadata : option dict) (video_id : string)
    (start_time end_time : Q) : dict :=
  dict_set
    (dict_set
       (dict_set (match metadata with None => [] | Some m => m end)
                 "video_id" (VStr video_id))
       "start_time" (VNum start_time))
    "end_time" (VNum end_time).

(** Whether the [k]-th call to [collection.add] for [id], counted from the
    state [st], raises. *)
Definition attempt_fails (policy : add_policy) (id : string) (st : store)
    (k : nat) : bool :=
  nth k (faults st) false
  || (has_id id (collection st)
      && match policy with
         | RejectExisting => true
         | IgnoreExisting => false
         end).

Definition without_prints (evs : list event) : list event :=
  filter (fun ev => match ev with Printed _ => false | _ => true end) evs.

(** [n] writes of [id] with the fixed backoff between them. *)
Fixpoint attempts_with_backoff (id : string) (n : nat) : list event :=
  match n with
  | O => []
  | S O => [StoreAdd id]
  | S n' => StoreAdd id :: Slept 2 :: attempts_with_backoff id n'
  end.

(** *** One call to the store *)

Lemma collection_add_fault (policy : add_policy) (text : string)
    (metadata : dict) (id : string) (st : store) :
  hd false (faults st) = true ->
  collection_add policy text metadata id st
  = (Raised (Exception "Connection error."),
     mkStore (collection st) (tl (faults st)) (trace st ++ [StoreAdd id])).
Proof. intro H. unfold collection_add. now rewrite H. Qed.

Lemma collection_add_fresh (policy : add_policy) (text : string)
    (metadata : dict) (id : string) (st : store) :
  hd false (faults st) = false -> has_id id (collection st) = false ->
  collection_add policy text metadata id st
  = (Returned tt,
     mkStore (collection st ++ [mkEntry id text metadata])
             (tl (faults st)) (trace st ++ [StoreAdd id])).
Proof. intros H1 H2. unfold collection_add. now rewrite H1, H2. Qed.

Lemma collection_add_keeps_present (policy : add_policy) (text : string)
    (metadata : dict) (id : string) (st : store) :
  has_id id (collection st) = true ->
  collection (snd (collection_add policy text metadata id st))
  = collection st.
Proof.
  intro H. unfold collection_add. rewrite H.
  destruct (hd false (faults st)); [reflexivity|].
  destruct policy; reflexivity.
Qed.

(** *** The retry loop, for any number of attempts *)

Lemma add_attempts_returns (policy : add_policy) (n : nat) (text : string)
    (metadata : dict) (id : string) (attempts : list nat) :
  forall st, fst (add_attempts policy n attempts text metadata id st)
             = Returned tt.
Proof.
  induction attempts as [|a rest IH]; intro st; [reflexivity|].
  cbn [add_attempts]. unfold bind at 1, try_except, bind at 1.
  destruct (collection_add policy text metadata id st) as [[[]|e] st1];
    [reflexivity|].
  unfold bind, emit, ret.
  destruct (a <? n - 1)%nat; apply IH.
Qed.

Lemma add_attempts_keeps_present (policy : add_policy) (n : nat)
    (text : string) (metadata : dict) (id : string) (attempts : list nat) :
  forall st, has_id id (collection st) = true ->
  collection (snd (add_attempts policy n attempts text metadata id st))
  = collection st.
Proof.
  induction attempts as [|a rest IH]; intros st Hin; [reflexivity|].
  cbn [add_attempts]. unfold bind at 1, try_except, bind at 1.
  pose proof (@collection_add_keeps_present policy text metadata id st Hin) as Hc.
  destruct (collection_add policy text metadata id st) as [[[]|e] st1];
    simpl in Hc; [exact Hc|].
  unfold bind, emit, ret.
  destruct (a <? n - 1)%nat; cbn [fst snd];
    (rewrite IH; cbn [collection]; [exact Hc | now rewrite Hc]).
Qed.

Lemma add_attempts_stores_fresh (policy : add_policy) (n : nat)
    (text : string) (metadata : dict) (id : string) (attempts : list nat) :
  forall st k,
    has_id id (collection st) = false ->
    (k < List.length attempts)%nat -> nth k (faults st) false = false ->
    collection (snd (add_attempts policy n attempts text metadata id st))
    = (collection st ++ [mkEntry id text metadata])%list.
Proof.
  induction attempts as [|a rest IH]; intros st k Hnew Hk Hok;
    [simpl in Hk; lia|].
  cbn [add_attempts]. unfold bind at 1, try_except, bind at 1.
  destruct (hd false (faults st)) eqn:Eh.
  - rewrite (@collection_add_fault policy text metadata id st Eh).
    destruct k as [|k].
    { destruct (faults st); simpl in *; congruence. }
    unfold bind, emit, ret.
    destruct (a <? n - 1)%nat; cbn [fst snd];
      (rewrite (IH _ k); cbn [collection faults];
       [reflexivity | exact Hnew | simpl in Hk; lia
       | destruct (faults st); simpl in *; congruence]).
  - rewrite (@collection_add_fresh policy text metadata id st Eh Hnew). reflexivity.
Qed.

Lemma entries_with_fresh (id : string) (c : list entry) (tail : list entry) :
  has_id id c = false ->
  filter (fun r => String.eqb (entry_id r) id) (c ++ tail)%list
  = filter (fun r => String.eqb (entry_id r) id) tail.
Proof.
  intro H. rewrite filter_app.
  induction c as [|r c IH]; [reflexivity|].
  simpl in H. apply orb_false_iff in H. destruct H as [Hr Hc].
  simpl. rewrite Hr. now apply IH.
Qed.

Lemma has_id_appended (id text : string) (m : dict) (c : list entry) :
  has_id id (c ++ [mkEntry id text m]) = true.
Proof.
  unfold has_id. rewrite existsb_app. simpl.
  rewrite String.eqb_refl. now rewrite orb_true_r.
Qed.

(** Runs the three attempts of the loop on a store whose next connection
    outcomes are known; [E] tells whether the id is already stored. *)
Ltac run_attempts E :=
  cbv [seq add_attempts bind try_except collection_add ret emit collection
       faults trace hd tl Nat.ltb Nat.leb Nat.sub max_retries fst snd];
  rewrite ?E;
  cbv [seq add_attempts bind try_except collection_add ret emit collection
       faults trace hd tl Nat.ltb Nat.leb Nat.sub max_retries fst snd].

Lemma add_attempts_appends (policy : add_policy) (n : nat) (text : string)
    (metadata : dict) (id : string) (attempts : list nat) :
  forall st, exists added,
    collection (snd (add_attempts policy n attempts text metadata id st))
    = (collection st ++ added)%list /\
    Forall (fun r => document r = text /\ entry_id r = id) added.
Proof.
  induction attempts as [|a rest IH]; intro st.
  - exists []. split; [simpl; now rewrite app_nil_r|constructor].
  - cbn [add_attempts]. unfold bind at 1, try_except, bind at 1.
    unfold collection_add.
    destruct (hd false (faults st)).
    + unfold bind, emit, ret.
      destruct (a <? n - 1)%nat; cbn [fst snd];
        match goal with
        | |- context [add_attempts _ _ _ _ _ _ ?st'] =>
          destruct (IH st') as (added & Hc & Hall)
        end; exists added; (split; [exact Hc|exact Hall]).
    + destruct (has_id id (collection st)).
      * destruct policy.
        -- exists []. split; [simpl; now rewrite app_nil_r|constructor].
        -- unfold bind, emit, ret.
           destruct (a <? n - 1)%nat; cbn [fst snd];
             match goal with
             | |- context [add_attempts _ _ _ _ _ _ ?st'] =>
               destruct (IH st') as (added & Hc & Hall)
             end; exists added; (split; [exact Hc|exact Hall]).
      * exists [mkEntry id text metadata]. split; [reflexivity|].
        repeat constructor.
Qed.

(** *** Evaluations *)

Example chunk_id_of_window :
  chunk_id_of "1a2b3c4d" 10 (51 # 2) = "1a2b3c4d_10.0_25.5".
Proof. vm_compute. reflexivity. Qed.

(** Two connection faults, then the write goes through. *)
Example commit_after_two_faults :
  add_chunk_to_db IgnoreExisting "1a2b3c4d" 0 20 "text"
    (Some [("filename", VStr "news.mp4")])
    (mkStore [] [true; true; false] [])
  = (Returned tt,
     mkStore
       [ mkEntry "1a2b3c4d_0.0_20.0" "text"
           [ ("filename", VStr "news.mp4"); ("video_id", VStr "1a2b3c4d");
             ("start_time", VNum 0); ("end_time", VNum 20) ] ]
       []
       [ StoreAdd "1a2b3c4d_0.0_20.0";
         Printed "Connection error saving chunk (Attempt 1/3): Connection error.";
         Slept 2;
         StoreAdd "1a2b3c4d_0.0_20.0";
         Printed "Connection error saving chunk (Attempt 2/3): Connection error.";
         Slept 2;
         StoreAdd "1a2b3c4d_0.0_20.0" ]).
Proof. vm_compute. reflexivity. Qed.

(** Three faults: the record is given up, and the next commit is served. *)
Example commit_given_up_then_next :
  let st := mkStore [] [true; true; true] [] in
  let st1 := snd (add_chunk_to_db IgnoreExisting "1a2b3c4d" 0 20 "one"
                    None st) in
  let st2 := snd (add_chunk_to_db IgnoreExisting "1a2b3c4d" 10 30 "two"
                    None st1) in
  collection st1 = [] /\
  last (trace st1) (Slept 0)
  = Printed "Failed to save chunk 1a2b3c4d_0.0_20.0 after 3 attempts." /\
  map entry_id (collection st2) = ["1a2b3c4d_10.0_30.0"].
Proof. vm_compute. repeat split; reflexivity. Qed.

(** The three attempts of [add_chunk_to_db], by cases on the connection
    outcomes and on whether the id is already stored. *)
Lemma add_attempts_outcome (policy : add_policy) (text : string)
    (metadata : dict) (id : string) (st : store) :
  let out := add_attempts policy max_retries (seq 0 max_retries) text
               metadata id st in
  exists evs,
    trace (snd out) = (trace st ++ evs)%list /\
    (1 <= count_adds id evs <= max_retries)%nat /\
    (forall k, (k < max_retries)%nat ->
       attempt_fails policy id st k = false ->
       (forall j, (j < k)%nat -> attempt_fails policy id st j = true) ->
       without_prints evs = attempts_with_backoff id (S k) /\
       has_id id (collection (snd out)) = true /\
       (has_id id (collection st) = false ->
        collection (snd out)
        = (collection st ++ [mkEntry id text metadata])%list)) /\
    ((forall k, (k < max_retries)%nat ->
        attempt_fails policy id st k = true) ->
     without_prints evs = attempts_with_backoff id max_retries /\
     last evs (Slept 0)
     = Printed ("Failed to save chunk " ++ id ++ " after 3 attempts.") /\
     collection (snd out) = collection st).
Proof.
  intro out. subst out. destruct st as [c f tr].
  pose proof (has_id_appended id text metadata c) as Hid.
  destruct (has_id id c) eqn:E; destruct policy;
    destruct f as [|[] [|[] [|[] f]]];
    run_attempts E.
  all: eexists; split; [rewrite <- ?app_assoc; simpl; reflexivity|].
  all: unfold attempt_fails; cbn [faults collection nth];
    rewrite ?E; cbn [orb andb].
  all: split;
    [unfold count_adds; simpl; rewrite ?String.eqb_refl; simpl; lia|].
  all: split;
    [ intros k Hk Hok Hbefore;
      destruct k as [|[|[|k]]];
      try (unfold max_retries in Hk; lia); try discriminate Hok;
      try (specialize (Hbefore 0%nat ltac:(lia)); discriminate Hbefore);
      try (specialize (Hbefore 1%nat ltac:(lia)); discriminate Hbefore)
    | intro Hall;
      try (specialize (Hall 0%nat ltac:(unfold max_retries; lia));
           discriminate Hall);
      try (specialize (Hall 1%nat ltac:(unfold max_retries; lia));
           discriminate Hall);
      try (specialize (Hall 2%nat ltac:(unfold max_retries; lia));
           discriminate Hall) ].
  all: repeat split; first [reflexivity | assumption | intro; discriminate].
Qed.

(** *** The claims on the indexer *)

(** C7.  A commit never raises, so whatever follows it runs; it issues at
    least one and at most three writes; when the k-th write is the first
    that does not fail, the events are k+1 writes separated by the
    two-second backoff and the record is in the collection afterwards (a
    store that fails twice and then accepts has the new record appended);
    and when all three writes fail, the last event is the printed failure
    report and the collection is unchanged. *)
Theorem add_chunk_to_db_bounded_retry
    (policy : add_policy) (video_id : string) (start_time end_time : Q)
    (text : string) (metadata : option dict) (st : store) :
  let id := chunk_id_of video_id start_time end_time in
  let out := add_chunk_to_db policy video_id start_time end_time text
               metadata st in
  exists evs,
    fst out = Returned tt /\
    (forall (B : Type) (next : unit -> M store B),
       bind (add_chunk_to_db policy video_id start_time end_time text
               metadata) next st
       = next tt (snd out)) /\
    trace (snd out) = (trace st ++ evs)%list /\
    (1 <= count_adds id evs <= max_retries)%nat /\
    (forall k, (k < max_retries)%nat ->
       attempt_fails policy id st k = false ->
       (forall j, (j < k)%nat -> attempt_fails policy id st j = true) ->
       without_prints evs = attempts_with_backoff id (S k) /\
       has_id id (collection (snd out)) = true /\
       (has_id id (collection st) = false ->
        collection (snd out)
        = (collection st
           ++ [mkEntry id text
                 (stamped metadata video_id start_time end_time)])%list)) /\
    ((forall k, (k < max_retries)%nat ->
        attempt_fails policy id st k = true) ->
     without_prints evs = attempts_with_backoff id max_retries /\
     last evs (Slept 0)
     = Printed ("Failed to save chunk " ++ id ++ " after 3 attempts.") /\
     collection (snd out) = collection st).
Proof.
  intros id out.
  assert (Hret : fst out = Returned tt)
    by apply (add_attempts_returns policy max_retries text
                (stamped metadata video_id start_time end_time) id
                (seq 0 max_retries) st).
  destruct (add_attempts_outcome policy text
              (stamped metadata video_id start_time end_time) id st)
    as (evs & Htrace & Hcount & Hfirst & Hnone).
  exists evs. split; [exact Hret|]. split.
  - intros B next. unfold bind. fold out.
    destruct out as [[[]|err] st1]; [reflexivity|discriminate].
  - split; [exact Htrace|]. split; [exact Hcount|].
    split; [exact Hfirst|exact Hnone].
Qed.

(** C1, as the code has it.  Committing the same identity twice, with
    different content, leaves exactly one entry under that identity, and
    it holds the content of the first commit: the store's add does not
    overwrite, so the second commit changes nothing in the collection
    (whether the store ignores or rejects the repeated id).  The first
    commit is taken to go through: the identity is new and one of its
    three writes is not hit by a connection fault. *)
Theorem add_chunk_to_db_same_identity
    (policy : add_policy) (video_id : string) (start_time end_time : Q)
    (text1 text2 : string) (metadata1 metadata2 : option dict) (st : store) :
  let id := chunk_id_of video_id start_time end_time in
  let st1 := snd (add_chunk_to_db policy video_id start_time end_time
                    text1 metadata1 st) in
  let st2 := snd (add_chunk_to_db policy video_id start_time end_time
                    text2 metadata2 st1) in
  has_id id (collection st) = false ->
  (exists k, (k < max_retries)%nat /\ nth k (faults st) false = false) ->
  entries_with id st1
  = [mkEntry id text1 (stamped metadata1 video_id start_time end_time)] /\
  entries_with id st2 = entries_with id st1 /\
  collection st2 = collection st1.
Proof.
  intros id st1 st2 Hnew (k & Hk & Hok).
  assert (H1 : collection st1
               = (collection st
                  ++ [mkEntry id text1
                        (stamped metadata1 video_id start_time end_time)])%list).
  { apply (@add_attempts_stores_fresh policy max_retries text1 _ id
             (seq 0 max_retries) st k Hnew); [|exact Hok].
    rewrite length_seq. exact Hk. }
  assert (H2 : collection st2 = collection st1).
  { apply add_attempts_keeps_present. rewrite H1. apply has_id_appended. }
  repeat split.
  - unfold entries_with. rewrite H1, (@entries_with_fresh id _ _ Hnew).
    simpl. now rewrite String.eqb_refl.
  - unfold entries_with. now rewrite H2.
  - exact H2.
Qed.

Lemma add_chunk_to_db_same_identity_witness :
  let st := mkStore [] [true; false] [] in
  let st1 := snd (add_chunk_to_db RejectExisting "1a2b3c4d" 0 20
                    "first" None st) in
  let st2 := snd (add_chunk_to_db RejectExisting "1a2b3c4d" 0 20
                    "second" None st1) in
  entries_with "1a2b3c4d_0.0_20.0" st2 = entries_with "1a2b3c4d_0.0_20.0" st1.
Proof.
  apply (@add_chunk_to_db_same_identity RejectExisting "1a2b3c4d" 0 20
           "first" "second" None None (mkStore [] [true; false] [])).
  - reflexivity.
  - exists 1%nat. split; [unfold max_retries; lia | reflexivity].
Defined.

(** C1, as the spec words it, fails: after a second commit of the same
    identity the one stored entry still holds the first text, not the
    latest, under either behaviour of the store on a repeated id. *)
Lemma add_chunk_to_db_keeps_first :
  let st := mkStore [] [] [] in
  let commit policy text :=
    add_chunk_to_db policy "1a2b3c4d" 0 20 text None in
  let twice policy :=
    snd (commit policy "second" (snd (commit policy "first" st))) in
  map document (entries_with "1a2b3c4d_0.0_20.0" (twice IgnoreExisting))
  = ["first"] /\
  map document (entries_with "1a2b3c4d_0.0_20.0" (twice RejectExisting))
  = ["first"] /\
  "first" <> "second".
Proof.
  repeat split; try (vm_compute; reflexivity). discriminate.
Qed.

End Indexer.

(* ================================================================== *)
(** ** app/core/video_processor.py: scanning the video folder *)

Module Ingest.
Import Py.
Local Open Scope string_scope.
Local Open Scope py_scope.

(** What [cv2.VideoCapture] reports for a file. *)
Record media : Type :=
  mkMedia { is_opened : bool; fps : Q; frame_count : Q }.

(** The source of random UUIDs: the strings [str(uuid.uuid4())] will yield,
    and how many were drawn. *)
Record rng : Type := mkRng { draws : nat -> string; drawn : nat }.

Definition uuid4 : M rng string :=
  fun r => (Returned (draws r (drawn r)), mkRng (draws r) (S (drawn r))).

Record video_metadata : Type :=
  mkVideo { video_id : string; filename : string; file_path : string;
            duration_seconds : Q }.

(** [os.path.basename] on POSIX paths: what follows the last slash. *)
Fixpoint basename_from (acc path : string) : string :=
  match path with
  | EmptyString => acc
  | String c rest =>
    if Ascii.eqb c "/"%char then basename_from EmptyString rest
    else basename_from (acc ++ String c EmptyString) rest
  end.

Definition basename (path : string) : string :=
  basename_from EmptyString path.

Section Folder.

(** The files of the folder as OpenCV opens them. *)
Variable capture : string -> media.

Definition get_video_duration (video_path : string) : option Q :=
  let cap := capture video_path in
  if is_opened cap then
    Some (if Qlt_bool 0 (fps cap)
          then (frame_count cap / fps cap)%Q else 0%Q)
  else None.

(** The loop of [ingest_videos] over [video_files], the result of the
    glob for [*.mp4] in the folder. *)
Fixpoint ingest_loop (video_files : list string)
    (ingested_videos : list video_metadata)
  : M rng (list video_metadata) :=
  match video_files with
  | [] => ret ingested_videos
  | path :: rest =>
    match get_video_duration path with
    | None => ingest_loop rest ingested_videos
    | Some duration =>
      u <- uuid4 ;;
      let vid := substring 0 8 u in
      ingest_loop rest
        (ingested_videos
         ++ [ {| video_id := vid; filename := basename path;
                 file_path := path;
                 duration_seconds := round2 duration |} ])%list
    end
  end.

Definition ingest_videos (video_files : list string)
  : M rng (list video_metadata) :=
  ingest_loop video_files [].

(** The videos a run appends, as a function of the random source. *)
Fixpoint fresh_videos (video_files : list string) (r : rng)
  : list video_metadata :=
  match video_files with
  | [] => []
  | path :: rest =>
    match get_video_duration path with
    | None => fresh_videos rest r
    | Some duration =>
      {| video_id := substring 0 8 (draws r (drawn r));
         filename := basename path; file_path := path;
         duration_seconds := round2 duration |}
      :: fresh_videos rest (mkRng (draws r) (S (drawn r)))
    end
  end.

(** The list [ingest_videos] returns on the random source [r]. *)
Definition ingested (video_files : list string) (r : rng)
  : list video_metadata :=
  match fst (ingest_videos video_files r) with
  | Returned vs => vs
  | Raised _ => []
  end.

Lemma ingest_loop_fresh (video_files : list string) :
  forall acc r,
    fst (ingest_loop video_files acc r)
    = Returned (acc ++ fresh_videos video_files r)%list.
Proof.
  induction video_files as [|path rest IH]; intros acc r; simpl.
  - now rewrite app_nil_r.
  - destruct (get_video_duration path) as [d|]; [|apply IH].
    unfold bind, uuid4. rewrite IH. now rewrite <- app_assoc.
Qed.

Lemma ingested_fresh (video_files : list string) (r : rng) :
  ingested video_files r = fresh_videos video_files r.
Proof.
  unfold ingested, ingest_videos. now rewrite ingest_loop_fresh.
Qed.

Lemma fresh_videos_nth (video_files : list string) :
  forall r1 r2 i v1 v2,
    nth_error (fresh_videos video_files r1) i = Some v1 ->
    nth_error (fresh_videos video_files r2) i = Some v2 ->
    filename v1 = filename v2 /\
    file_path v1 = file_path v2 /\
    duration_seconds v1 = duration_seconds v2 /\
    video_id v1 = substring 0 8 (draws r1 (drawn r1 + i)) /\
    video_id v2 = substring 0 8 (draws r2 (drawn r2 + i)).
Proof.
  induction video_files as [|path rest IH]; intros r1 r2 i v1 v2 H1 H2.
  - destruct i; discriminate.
  - simpl in H1, H2. destruct (get_video_duration path) as [d|].
    + destruct i as [|i].
      * inversion H1; inversion H2; subst; simpl.
        rewrite !Nat.add_0_r. repeat split; reflexivity.
      * simpl in H1, H2.
        destruct (IH _ _ _ _ _ H1 H2) as (? & ? & ? & Hv1 & Hv2).
        cbn [draws drawn] in Hv1, Hv2.
        rewrite !Nat.add_succ_r. rewrite Hv1, Hv2.
        repeat split; assumption || reflexivity.
    + apply (IH _ _ _ _ _ H1 H2).
Qed.

End Folder.

(** *** The claim on record identity *)

(** C2, as the code has it.  Two ingestion runs over the same files give
    the i-th video the same file, name and duration, and for any window
    the record identity is the same in both runs exactly when the two runs
    drew the same 8-character token for that video: the identity is a
    function of (video_id, start, end), and video_id is the head of a
    fresh random UUID in every run. *)
Theorem record_identity_across_runs
    (capture : string -> media) (video_files : list string) (r1 r2 : rng)
    (i : nat) (v1 v2 : video_metadata) (start_time end_time : Q) :
  nth_error (ingested capture video_files r1) i = Some v1 ->
  nth_error (ingested capture video_files r2) i = Some v2 ->
  file_path v1 = file_path v2 /\
  filename v1 = filename v2 /\
  duration_seconds v1 = duration_seconds v2 /\
  (Indexer.chunk_id_of (video_id v1) start_time end_time
   = Indexer.chunk_id_of (video_id v2) start_time end_time
   <-> substring 0 8 (draws r1 (drawn r1 + i))
       = substring 0 8 (draws r2 (drawn r2 + i))).
Proof.
  rewrite !ingested_fresh. intros H1 H2.
  destruct (fresh_videos_nth _ _ _ _ _ H1 H2) as (Hn & Hp & Hd & Hv1 & Hv2).
  repeat split; try assumption.
  - intro Hid. unfold Indexer.chunk_id_of in Hid.
    apply append_inv_tail in Hid. congruence.
  - intro Hu. rewrite Hv1, Hv2, Hu. reflexivity.
Qed.

Lemma record_identity_across_runs_witness :
  let capture := fun _ : string => mkMedia true 25 625 in
  let files := ["/data/videos/news.mp4"] in
  let r1 := mkRng (fun _ => "3f2a9c1e-5b7d-4e6f-8a1b-0c2d4e6f8a1b") 0 in
  let r2 := mkRng (fun _ => "3f2a9c1e-0000-4000-8000-000000000000") 7 in
  let v := mkVideo "3f2a9c1e" "news.mp4" "/data/videos/news.mp4" 25 in
  Indexer.chunk_id_of (video_id v) 0 20 = Indexer.chunk_id_of (video_id v) 0 20
  <-> substring 0 8 (draws r1 (drawn r1 + 0))
      = substring 0 8 (draws r2 (drawn r2 + 0)).
Proof.
  intros capture files r1 r2 v.
  apply (@record_identity_across_runs capture files r1 r2 0 v v 0 20);
    vm_compute; reflexivity.
Defined.

(** C2, as the spec words it, fails: ingesting the same 25-second file in
    two runs that draw different UUIDs gives its window [0,20] two
    different identities. *)
Lemma record_identity_differs_across_runs :
  let capture := fun _ : string => mkMedia true 25 625 in
  let files := ["/data/videos/news.mp4"] in
  let r1 := mkRng (fun _ => "3f2a9c1e-5b7d-4e6f-8a1b-0c2d4e6f8a1b") 0 in
  let r2 := mkRng (fun _ => "7d1e4b90-5b7d-4e6f-8a1b-0c2d4e6f8a1b") 0 in
  let ids r :=
    map (fun v => (filename v, duration_seconds v,
                   Indexer.chunk_id_of (video_id v) 0 20))
        (ingested capture files r) in
  ids r1 = [("news.mp4", 25%Q, "3f2a9c1e_0.0_20.0")] /\
  ids r2 = [("news.mp4", 25%Q, "7d1e4b90_0.0_20.0")] /\
  "3f2a9c1e_0.0_20.0" <> "7d1e4b90_0.0_20.0".
Proof.
  repeat split; try (vm_compute; reflexivity). discriminate.
Qed.

End Ingest.

(* ================================================================== *)
(** ** app/process_videos.py: the fusion engine *)

Module Fusion.
Import Py.
Import Windowing.
Import Vision.
Local Open Scope string_scope.
Local Open Scope py_scope.

(** A transcript segment as the transcription returns it. *)
Record segment : Type :=
  mkSegment { seg_start : Q; seg_end : Q; seg_text : string }.

(** The dictionary of [extract_entities]. *)
Record entities : Type :=
  mkEntities { PERSON : list string; ORG : list string; GPE : list string }.

Definition scene_change_threshold : Q := 50.

(** Part A of the loop body: the transcript text of one window. *)
Definition chunk_text_parts (segments : list segment) (start_t end_t : Q)
  : list string :=
  fold_left
    (fun parts seg =>
       if Qlt_bool (seg_start seg) end_t && Qlt_bool start_t (seg_end seg)
       then (parts ++ [seg_text seg])%list else parts)
    segments [].

Definition audio_text_of (segments : list segment) (start_t end_t : Q)
  : string :=
  strip (join " " (chunk_text_parts segments start_t end_t)).

(** Part D: the text block that is embedded. *)
Definition final_text (visual_caption ocr_text audio_text : string)
  : string :=
  "[Visual Scene]: " ++ visual_caption ++ " "
  ++ "[On-Screen Text]: " ++ ocr_text ++ " "
  ++ "[Audio Transcript]: " ++ audio_text.

(** A text body made of the three labelled sections, in their order. *)
Definition three_sections (body : string) : Prop :=
  exists visual onscreen audio : string,
    body = "[Visual Scene]: " ++ visual
           ++ " [On-Screen Text]: " ++ onscreen
           ++ " [Audio Transcript]: " ++ audio.

Section Collaborators.

(** Decoded frames and OpenCV's grayscale thumbnail of one. *)
Variable frame : Type.
Variable gray64 : frame -> list Z.

(** The engines behind the service functions: the frame OpenCV reads at a
    time of a file, the answer to a captioning request, EasyOCR's
    [readtext], the entities spaCy finds (label and text), and the audio
    service as a whole. *)
Variable extract_frame_at_time : string -> Q -> option frame.
Variable caption_request : frame -> result string.
Variable readtext : frame -> result (list string).
Variable nlp_ents : string -> list (string * string).
Variable extract_audio : string -> option string.
Variable transcribe_audio : string -> option (list segment).

(** The store, and the requests sent to the caption and OCR engines. *)
Record world : Type :=
  mkWorld { db : Indexer.store; caption_calls : list frame;
            ocr_calls : list frame }.

Definition put_db (st : Indexer.store) (w : world) : world :=
  mkWorld st (caption_calls w) (ocr_calls w).

(** The local variables carried from one window to the next. *)
Record scene_state : Type :=
  mkScene { previous_frame : option frame; previous_caption : string }.

(** vision_service.generate_visual_caption *)
Definition generate_visual_caption (f : frame) : M world string :=
  try_except
    (fun w => (caption_request f,
               mkWorld (db w) (caption_calls w ++ [f]) (ocr_calls w)))
    (fun _ => ret "Error analyzing image.").

(** ocr_processor.extract_text_from_frame *)
Definition extract_text_from_frame (f : option frame) : M world string :=
  match f with
  | None => ret EmptyString
  | Some f =>
    try_except
      (result <- (fun w => (readtext f,
                            mkWorld (db w) (caption_calls w)
                                    (ocr_calls w ++ [f]))) ;;
       ret (strip (join " " result)))
      (fun _ => ret EmptyString)
  end.

Definition not_in (x : string) (l : list string) : bool :=
  negb (existsb (String.eqb x) l).

(** ner_analyzer.extract_entities *)
Definition extract_entities (text : string) : entities :=
  match text with
  | EmptyString => mkEntities [] [] []
  | _ =>
    fold_left
      (fun ents ent =>
         let label := fst ent in
         let text_value := strip (snd ent) in
         if String.eqb label "PERSON" then
           if not_in text_value (PERSON ents)
           then mkEntities (PERSON ents ++ [text_value]) (ORG ents) (GPE ents)
           else ents
         else if String.eqb label "ORG" then
           if not_in text_value (ORG ents)
           then mkEntities (PERSON ents) (ORG ents ++ [text_value]) (GPE ents)
           else ents
         else if String.eqb label "GPE" then
           if not_in text_value (GPE ents)
           then mkEntities (PERSON ents) (ORG ents) (GPE ents ++ [text_value])
           else ents
         else ents)
      (nlp_ents text) (mkEntities [] [] [])
  end.

(** Part B of the loop body for the window of index [i]: the caption, the
    on-screen text and the scene state handed to the next window. *)
Definition visual_context (i : nat) (sc : scene_state)
    (current_frame : option frame)
  : M world (string * string * scene_state) :=
  match current_frame with
  | Some f =>
    let diff := get_frame_difference gray64 (previous_frame sc) (Some f) in
    captioned <-
      (if (i =? 0)%nat || score_gt diff scene_change_threshold then
         visual_caption <- generate_visual_caption f ;;
         ret (visual_caption, mkScene (Some f) visual_caption)
       else
         ret (previous_caption sc, mkScene (Some f) (previous_caption sc))) ;;
    ocr_text <- extract_text_from_frame (Some f) ;;
    ret (fst captioned, ocr_text, snd captioned)
  | None => ret (EmptyString, EmptyString, sc)
  end.

(** The body of [for i, chunk in enumerate(chunks)]. *)
Definition process_chunk (policy : Indexer.add_policy)
    (video_meta : Ingest.video_metadata) (segments : list segment)
    (i : nat) (chunk : window) (sc : scene_state) : M world scene_state :=
  let start_t := start chunk in
  let end_t := end_ chunk in
  let audio_text := audio_text_of segments start_t end_t in
  let midpoint := ((start_t + end_t) / 2)%Q in
  let current_frame :=
    extract_frame_at_time (Ingest.file_path video_meta) midpoint in
  visual <- visual_context i sc current_frame ;;
  let visual_caption := fst (fst visual) in
  let ocr_text := snd (fst visual) in
  let ents := extract_entities audio_text in
  let people_str := join ", " (PERSON ents) in
  let orgs_str := join ", " (ORG ents) in
  let locs_str := join ", " (GPE ents) in
  zoom db put_db
    (Indexer.add_chunk_to_db policy (Ingest.video_id video_meta)
       start_t end_t (final_text visual_caption ocr_text audio_text)
       (Some [ ("filename", Indexer.VStr (Ingest.filename video_meta));
               ("people", Indexer.VStr people_str);
               ("organizations", Indexer.VStr orgs_str);
               ("locations", Indexer.VStr locs_str) ])) ;;;
  ret (snd visual).

Fixpoint process_chunks (policy : Indexer.add_policy)
    (video_meta : Ingest.video_metadata) (segments : list segment)
    (i : nat) (chunks : list window) (sc : scene_state)
  : M world scene_state :=
  match chunks with
  | [] => ret sc
  | chunk :: rest =>
    sc' <- process_chunk policy video_meta segments i chunk sc ;;
    process_chunks policy video_meta segments (S i) rest sc'
  end.

Definition initial_scene : scene_state :=
  mkScene None "No visual context available.".

(** The windows of a video: the loop of [create_sliding_windows] is given
    one unit of fuel per second and one more, which is enough for it to
    leave with the sizes (20, 10) used here. *)
Definition chunks_of (duration : Q) : list window :=
  match create_sliding_windows (S (Z.to_nat (Qceiling duration)))
          duration 20 10 with
  | Some chunks => chunks
  | None => []
  end.

Definition process_single_video (policy : Indexer.add_policy)
    (video_meta : Ingest.video_metadata) : M world unit :=
  match extract_audio (Ingest.file_path video_meta) with
  | None => ret tt
  | Some audio_path =>
    match transcribe_audio audio_path with
    | None | Some [] => ret tt
    | Some segments =>
      process_chunks policy video_meta segments 0
        (chunks_of (Ingest.duration_seconds video_meta)) initial_scene ;;;
      ret tt
    end
  end.

(** *** Part A: transcript alignment *)

Definition overlaps (start_t end_t : Q) (seg : segment) : bool :=
  Qlt_bool (seg_start seg) end_t && Qlt_bool start_t (seg_end seg).

Lemma chunk_text_parts_from (segments : list segment) (start_t end_t : Q) :
  forall parts,
    fold_left
      (fun parts seg =>
         if Qlt_bool (seg_start seg) end_t && Qlt_bool start_t (seg_end seg)
         then (parts ++ [seg_text seg])%list else parts)
      segments parts
    = (parts
       ++ map seg_text (filter (overlaps start_t end_t) segments))%list.
Proof.
  induction segments as [|seg rest IH]; intro parts; simpl.
  - now rewrite app_nil_r.
  - rewrite IH. unfold overlaps at 2.
    destruct (Qlt_bool (seg_start seg) end_t && Qlt_bool start_t (seg_end seg));
      simpl; [now rewrite <- app_assoc|reflexivity].
Qed.

(** *** Part B: the scene-change gate *)

(** What the captioning and OCR services return for a frame. *)
Definition caption_of (f : frame) : string :=
  match caption_request f with
  | Returned c => c
  | Raised _ => "Error analyzing image."
  end.

Definition ocr_of (f : frame) : string :=
  match readtext f with
  | Returned found => strip (join " " found)
  | Raised _ => EmptyString
  end.

Definition fresh_caption (i : nat) (sc : scene_state) (f : frame) : bool :=
  (i =? 0)%nat
  || score_gt (get_frame_difference gray64 (previous_frame sc) (Some f))
              scene_change_threshold.

Lemma visual_context_keyframe (i : nat) (sc : scene_state) (f : frame)
    (w : world) :
  visual_context i sc (Some f) w
  = (let caption := if fresh_caption i sc f then caption_of f
                    else previous_caption sc in
     (Returned (caption, ocr_of f, mkScene (Some f) caption),
      mkWorld (db w)
        (caption_calls w ++ (if fresh_caption i sc f then [f] else []))
        (ocr_calls w ++ [f]))).
Proof.
  unfold visual_context, fresh_caption, caption_of, ocr_of.
  destruct ((i =? 0)%nat || score_gt _ _).
  - unfold generate_visual_caption, extract_text_from_frame, bind,
      try_except, ret.
    destruct (caption_request f); destruct (readtext f); reflexivity.
  - unfold extract_text_from_frame, bind, try_except, ret. simpl.
    destruct (readtext f); simpl; now rewrite app_nil_r.
Qed.

(** *** Part D: what a window commits *)

Lemma final_text_sections (visual_caption ocr_text audio_text : string) :
  three_sections (final_text visual_caption ocr_text audio_text).
Proof.
  exists visual_caption, ocr_text, audio_text. unfold final_text.
  reflexivity.
Qed.

Lemma visual_context_returns (i : nat) (sc : scene_state)
    (current_frame : option frame) (w : world) :
  exists visual_caption ocr_text sc' wv,
    visual_context i sc current_frame w
    = (Returned (visual_caption, ocr_text, sc'), wv).
Proof.
  destruct current_frame as [f|].
  - rewrite visual_context_keyframe. cbv zeta. now do 4 eexists.
  - now do 4 eexists.
Qed.

Lemma commit_run (policy : Indexer.add_policy) (video_id : string)
    (start_t end_t : Q) (text : string) (md : option Indexer.dict)
    (w : world) :
  zoom db put_db
    (Indexer.add_chunk_to_db policy video_id start_t end_t text md) w
  = (Returned tt,
     put_db (snd (Indexer.add_chunk_to_db policy video_id start_t end_t
                    text md (db w))) w).
Proof.
  unfold zoom.
  pose proof (Indexer.add_attempts_returns policy Indexer.max_retries text
                (Indexer.stamped md video_id start_t end_t)
                (Indexer.chunk_id_of video_id start_t end_t)
                (seq 0 Indexer.max_retries) (db w)) as Hret.
  change (fst (Indexer.add_chunk_to_db policy video_id start_t end_t text md
                 (db w)) = Returned tt) in Hret.
  destruct (Indexer.add_chunk_to_db policy video_id start_t end_t text md
              (db w)) as [[[]|err] st1]; [reflexivity|discriminate].
Qed.

(** The state of the world after the window [chunk] was processed. *)
Lemma process_chunk_run (policy : Indexer.add_policy)
    (video_meta : Ingest.video_metadata) (segments : list segment)
    (i : nat) (chunk : window) (sc : scene_state) (w : world) :
  exists visual_caption ocr_text sc' wv md,
    visual_context i sc
      (extract_frame_at_time (Ingest.file_path video_meta)
         ((start chunk + end_ chunk) / 2)%Q) w
    = (Returned (visual_caption, ocr_text, sc'), wv) /\
    process_chunk policy video_meta segments i chunk sc w
    = (Returned sc',
       put_db (snd (Indexer.add_chunk_to_db policy
                      (Ingest.video_id video_meta) (start chunk) (end_ chunk)
                      (final_text visual_caption ocr_text
                         (audio_text_of segments (start chunk) (end_ chunk)))
                      md (db wv)))
              wv).
Proof.
  destruct (visual_context_returns i sc
              (extract_frame_at_time (Ingest.file_path video_meta)
                 ((start chunk + end_ chunk) / 2)%Q) w)
    as (visual_caption & ocr_text & sc' & wv & Hv).
  exists visual_caption, ocr_text, sc', wv. eexists.
  split; [exact Hv|].
  unfold process_chunk. unfold bind at 1. rewrite Hv.
  unfold bind. rewrite commit_run. reflexivity.
Qed.

(** *** The fold over the windows *)

Lemma process_chunks_appends (policy : Indexer.add_policy)
    (video_meta : Ingest.video_metadata) (segments : list segment)
    (chunks : list window) :
  forall i sc w, exists sc' w' added,
    process_chunks policy video_meta segments i chunks sc w
    = (Returned sc', w') /\
    Indexer.collection (db w')
    = (Indexer.collection (db w) ++ added)%list /\
    Forall (fun r => three_sections (Indexer.document r)) added.
Proof.
  induction chunks as [|chunk rest IH]; intros i sc w.
  - exists sc, w, []. repeat split; [now rewrite app_nil_r|constructor].
  - cbn [process_chunks]. unfold bind.
    destruct (process_chunk_run policy video_meta segments i chunk sc w)
      as (vc & ot & sc1 & wv & md & Hv & Hrun).
    rewrite Hrun.
    match goal with
    | |- context [process_chunks _ _ _ _ rest sc1 ?w1] =>
      destruct (IH (S i) sc1 w1) as (sc' & w' & added & Hrest & Hc & Hall)
    end.
    destruct (Indexer.add_attempts_appends policy Indexer.max_retries
                (final_text vc ot
                   (audio_text_of segments (start chunk) (end_ chunk)))
                (Indexer.stamped md (Ingest.video_id video_meta)
                   (start chunk) (end_ chunk))
                (Indexer.chunk_id_of (Ingest.video_id video_meta)
                   (start chunk) (end_ chunk))
                (seq 0 Indexer.max_retries) (db wv))
      as (new & Hnew & Hdoc).
    assert (Hdb : db wv = db w).
    { destruct (extract_frame_at_time _ _) as [f|].
      - rewrite visual_context_keyframe in Hv. cbv zeta in Hv.
        inversion Hv; subst. reflexivity.
      - inversion Hv; subst. reflexivity. }
    exists sc', w', (new ++ added)%list. split; [exact Hrest|]. split.
    + rewrite Hc. cbn [put_db db]. unfold Indexer.add_chunk_to_db.
      fold (Indexer.stamped md (Ingest.video_id video_meta)
              (start chunk) (end_ chunk)).
      rewrite Hnew, Hdb. now rewrite <- app_assoc.
    + apply Forall_app. split; [|exact Hall].
      eapply Forall_impl; [|exact Hdoc].
      intros r [Hr _]. rewrite Hr. apply final_text_sections.
Qed.

Lemma process_chunks_same_frame (policy : Indexer.add_policy)
    (video_meta : Ingest.video_metadata) (segments : list segment)
    (f : frame) (chunks : list window) :
  (forall chunk, In chunk chunks ->
     extract_frame_at_time (Ingest.file_path video_meta)
       ((start chunk + end_ chunk) / 2)%Q = Some f) ->
  forall i sc w,
    i <> 0%nat -> previous_frame sc = Some f ->
    caption_calls
      (snd (process_chunks policy video_meta segments i chunks sc w))
    = caption_calls w.
Proof.
  induction chunks as [|chunk rest IH]; intros Hframes i sc w Hi Hprev.
  - reflexivity.
  - cbn [process_chunks]. unfold bind.
    destruct (process_chunk_run policy video_meta segments i chunk sc w)
      as (vc & ot & sc1 & wv & md & Hv & Hrun).
    rewrite Hrun.
    rewrite (Hframes chunk (or_introl eq_refl)) in Hv.
    rewrite visual_context_keyframe in Hv. cbv zeta in Hv.
    assert (Hgate : fresh_caption i sc f = false).
    { unfold fresh_caption. apply Nat.eqb_neq in Hi. rewrite Hi, Hprev.
      rewrite same_frame_below_threshold; [reflexivity|].
      unfold scene_change_threshold. discriminate. }
    rewrite Hgate in Hv. inversion Hv; subst.
    rewrite IH.
    + cbn [put_db caption_calls]. now rewrite app_nil_r.
    + intros c Hc. apply Hframes. now right.
    + discriminate.
    + reflexivity.
Qed.

(** *** The claims on the fusion engine *)

(** C5.  A segment goes into a window's transcript exactly when it starts
    before the window ends and ends after the window starts; the texts
    kept are those of the overlapping segments in transcript order, joined
    by single spaces and stripped.  A segment [5,10] contributes nothing to
    the window [0,5] and is the whole transcript of the window [4,6]. *)
Theorem audio_alignment (segments : list segment) (start_t end_t : Q) :
  (forall seg,
     overlaps start_t end_t seg = true
     <-> (seg_start seg < end_t /\ start_t < seg_end seg)%Q) /\
  chunk_text_parts segments start_t end_t
  = map seg_text (filter (overlaps start_t end_t) segments) /\
  audio_text_of segments start_t end_t
  = strip (join " "
             (map seg_text (filter (overlaps start_t end_t) segments))) /\
  (forall text,
     chunk_text_parts [mkSegment 5 10 text] 0 5 = [] /\
     audio_text_of [mkSegment 5 10 text] 0 5 = EmptyString /\
     chunk_text_parts [mkSegment 5 10 text] 4 6 = [text] /\
     audio_text_of [mkSegment 5 10 text] 4 6 = strip text).
Proof.
  assert (Hparts : chunk_text_parts segments start_t end_t
                   = map seg_text (filter (overlaps start_t end_t) segments)).
  { unfold chunk_text_parts. now rewrite chunk_text_parts_from. }
  split; [|split; [exact Hparts|split]].
  - intro seg. unfold overlaps. rewrite andb_true_iff, !Qlt_bool_iff.
    reflexivity.
  - unfold audio_text_of. now rewrite Hparts.
  - intro text. repeat split; reflexivity.
Qed.

(** C6.  For a window with a keyframe, the captioning service is called
    (once, on that keyframe) when the window is the first one or the
    difference to the carried frame exceeds the threshold, and its answer
    becomes the caption of the window and the carried caption; otherwise
    no call is made and the carried caption is used, unchanged.  Either way
    the carried frame becomes the new keyframe.  A window without a
    keyframe leaves the carried state alone.  When every window of a video
    shows the same frame, the only captioning call of the whole run is the
    one for the first window. *)
Theorem scene_change_gate :
  (forall i sc f w,
     let diff :=
       get_frame_difference gray64 (previous_frame sc) (Some f) in
     let out := visual_context i sc (Some f) w in
     ((i = 0%nat \/ score_gt diff scene_change_threshold = true) ->
      fst out
      = Returned (caption_of f, ocr_of f, mkScene (Some f) (caption_of f)) /\
      caption_calls (snd out) = (caption_calls w ++ [f])%list) /\
     (~ (i = 0%nat \/ score_gt diff scene_change_threshold = true) ->
      fst out
      = Returned (previous_caption sc, ocr_of f,
                  mkScene (Some f) (previous_caption sc)) /\
      caption_calls (snd out) = caption_calls w)) /\
  (forall i sc w,
     visual_context i sc None w
     = (Returned (EmptyString, EmptyString, sc), w)) /\
  (forall policy video_meta segments f chunk rest w,
     (forall c, In c (chunk :: rest) ->
        extract_frame_at_time (Ingest.file_path video_meta)
          ((start c + end_ c) / 2)%Q = Some f) ->
     caption_calls
       (snd (process_chunks policy video_meta segments 0 (chunk :: rest)
               initial_scene w))
     = (caption_calls w ++ [f])%list).
Proof.
  split; [|split].
  - intros i sc f w diff out. subst out.
    rewrite visual_context_keyframe. cbv zeta. unfold fresh_caption.
    fold diff. split.
    + intros [->|Hd]; [|rewrite Hd, orb_true_r]; now split.
    + intro Hno.
      destruct ((i =? 0)%nat || score_gt diff scene_change_threshold) eqn:E.
      * exfalso. apply Hno. apply orb_true_iff in E.
        destruct E as [E|E]; [left; now apply Nat.eqb_eq|now right].
      * cbn [fst snd caption_calls]. now rewrite app_nil_r.
  - reflexivity.
  - intros policy video_meta segments f chunk rest w Hframes.
    cbn [process_chunks]. unfold bind.
    destruct (process_chunk_run policy video_meta segments 0 chunk
                initial_scene w)
      as (vc & ot & sc1 & wv & md & Hv & Hrun).
    rewrite Hrun.
    rewrite (Hframes chunk (or_introl eq_refl)) in Hv.
    rewrite visual_context_keyframe in Hv. cbv zeta in Hv.
    inversion Hv; subst.
    rewrite (@process_chunks_same_frame policy video_meta segments f rest).
    + reflexivity.
    + intros c Hc. apply Hframes. now right.
    + discriminate.
    + reflexivity.
Qed.

(** C9.  Processing a video only appends to the collection, and every
    entry it appends has a text body made of the three labelled sections
    in the order visual scene, on-screen text, audio transcript.  The
    sections stay in place when there is nothing to put in them: a window
    without keyframe and without speech commits the three bare labels. *)
Theorem committed_text_has_three_sections
    (policy : Indexer.add_policy) (video_meta : Ingest.video_metadata)
    (w : world) :
  (exists added,
     fst (process_single_video policy video_meta w) = Returned tt /\
     Indexer.collection (db (snd (process_single_video policy video_meta w)))
     = (Indexer.collection (db w) ++ added)%list /\
     Forall (fun r => three_sections (Indexer.document r)) added) /\
  (forall visual_caption ocr_text audio_text,
     three_sections (final_text visual_caption ocr_text audio_text)) /\
  final_text EmptyString EmptyString EmptyString
  = "[Visual Scene]:  [On-Screen Text]:  [Audio Transcript]: ".
Proof.
  split; [|split; [apply final_text_sections|reflexivity]].
  unfold process_single_video.
  assert (Hskip : exists added : list Indexer.entry,
            fst (@ret world unit tt w) = Returned tt /\
            Indexer.collection (db (snd (@ret world unit tt w)))
            = (Indexer.collection (db w) ++ added)%list /\
            Forall (fun r => three_sections (Indexer.document r)) added).
  { exists []. repeat split; [simpl; now rewrite app_nil_r|constructor]. }
  destruct (extract_audio _) as [audio_path|]; [|exact Hskip].
  destruct (transcribe_audio audio_path) as [[|seg segments]|];
    try exact Hskip.
  unfold bind.
  destruct (process_chunks_appends policy video_meta (seg :: segments)
              (chunks_of (Ingest.duration_seconds video_meta)) 0
              initial_scene w)
    as (sc' & w' & added & Hrun & Hc & Hall).
  rewrite Hrun. exists added. repeat split; assumption.
Qed.

(** C10.  The frame-difference score is symmetric and never negative, it
    is 0 for a frame compared with itself, and it is infinite as soon as
    one of the two frames is missing.  An infinite score exceeds every
    threshold, so a keyframe that follows no carried frame always gets a
    fresh caption.  (Both thumbnails have the 64 x 64 shape the resize
    gives them.) *)
Theorem frame_difference_properties :
  (forall f, List.length (gray64 f) = 4096%nat) ->
  (forall a b,
     get_frame_difference gray64 a b = get_frame_difference gray64 b a) /\
  (forall a b, score_nonneg (get_frame_difference gray64 a b)) /\
  (forall f, score_is (get_frame_difference gray64 (Some f) (Some f)) 0) /\
  (forall a b,
     a = None \/ b = None -> get_frame_difference gray64 a b = Infinity) /\
  (forall b threshold,
     score_gt (get_frame_difference gray64 None b) threshold = true) /\
  (forall i sc f w,
     previous_frame sc = None ->
     fst (visual_context i sc (Some f) w)
     = Returned (caption_of f, ocr_of f, mkScene (Some f) (caption_of f)) /\
     caption_calls (snd (visual_context i sc (Some f) w))
     = (caption_calls w ++ [f])%list).
Proof.
  intro Hshape. repeat apply conj.
  - intros a b. now apply get_frame_difference_sym.
  - apply get_frame_difference_nonneg.
  - apply get_frame_difference_same.
  - apply get_frame_difference_none.
  - reflexivity.
  - intros i sc f w Hprev. rewrite visual_context_keyframe. cbv zeta.
    unfold fresh_caption. rewrite Hprev. cbn [get_frame_difference score_gt].
    rewrite orb_true_r. now split.
Qed.

End Collaborators.

(** A video whose frames are all black or all white, for which the
    captioning always answers and no text is found on screen. *)
Definition flat_gray64 (white : bool) : list Z :=
  repeat (if white then 255%Z else 0%Z) 4096.

(** A 30-second bulletin on one unchanging white frame: two windows, one
    captioning request, two text recognitions, two entries. *)
Example one_caption_for_a_still_video :
  let run :=
    process_single_video flat_gray64
      (fun _ _ => Some true) (fun _ => Returned "A studio.")
      (fun _ => Returned ["LIVE"])
      (fun _ => [("PERSON", "Ann"); ("PERSON", "Ann"); ("GPE", "Baku")])
      (fun _ => Some "news.mp3")
      (fun _ => Some [mkSegment 0 12 "Good evening."; mkSegment 12 30 "Ann is in Baku."])
      Indexer.IgnoreExisting
      (Ingest.mkVideo "1a2b3c4d" "news.mp4" "/data/videos/news.mp4" 30)
      (mkWorld (Indexer.mkStore [] [] []) [] []) in
  fst run = Returned tt /\
  caption_calls (snd run) = [true] /\
  ocr_calls (snd run) = [true; true] /\
  map Indexer.document (Indexer.collection (db (snd run)))
  = [ "[Visual Scene]: A studio. [On-Screen Text]: LIVE [Audio Transcript]: Good evening. Ann is in Baku.";
      "[Visual Scene]: A studio. [On-Screen Text]: LIVE [Audio Transcript]: Good evening. Ann is in Baku." ].
Proof. vm_compute. repeat split; reflexivity. Qed.

Lemma frame_difference_properties_witness :
  get_frame_difference flat_gray64 (Some true) (Some false)
  = get_frame_difference flat_gray64 (Some false) (Some true).
Proof.
  apply (@frame_difference_properties bool flat_gray64
           (fun _ => Returned "A studio.") (fun _ => Returned [])).
  intros []; vm_compute; reflexivity.
Defined.

End Fusion.

(* ================================================================== *)
(** ** app/rag_search.py: answer synthesis *)

Module Rag.
Import Py.
Local Open Scope string_scope.
Local Open Scope py_scope.

(** The line feed. *)
Definition nl : string := String (ascii_of_nat 10) EmptyString.

(** A chat-completion request: model, system prompt, user message and
    temperature. *)
Record request : Type :=
  mkRequest { model : string; system_content : string;
              user_content : string; temperature : Q }.

(** The requests sent to the language model and the lines printed. *)
Record session : Type :=
  mkSession { requests : list request; console : list string }.

Definition no_information : string :=
  "I could not find enough information in the videos to answer that.".

Definition empty_response : string := "Error generating response.".

Definition failed_response : string :=
  "An error occurred while generating the answer.".

Definition system_prompt : string :=
  "You are a helpful news assistant. You will be given a user question and "
  ++ "several context snippets from video transcripts and visual descriptions."
  ++ nl
  ++ "Your job is to answer the question based ONLY on the provided context."
  ++ nl
  ++ "If the context does not contain the answer, say 'I do not have that information.'"
  ++ nl
  ++ "Keep the answer concise (2-3 sentences).".

(** Step 1: the bulleted context block. *)
Definition context_text_of (relevant_chunks : list string) : string :=
  fold_left (fun context_text chunk => context_text ++ "- " ++ chunk ++ nl)
            relevant_chunks EmptyString.

Definition user_message_of (context_text user_query : string) : string :=
  nl ++ "    Context from videos:" ++ nl ++ "    " ++ context_text ++ nl
  ++ nl ++ "    Question: " ++ user_query ++ nl ++ "    ".

Section Client.

(** The language model behind [client.chat.completions.create]: for a
    request, an exception or the [message.content] of each choice of the
    response ([None] when a choice has no content). *)
Variable chat_create : request -> result (list (option string)).

Definition create (req : request) : M session (list (option string)) :=
  fun s => (chat_create req, mkSession (requests s ++ [req]) (console s)).

Definition print (line : string) : M session unit :=
  fun s => (Returned tt, mkSession (requests s) (console s ++ [line])).

Definition generate_answer (user_query : string)
    (relevant_chunks : list string) : M session string :=
  match relevant_chunks with
  | [] => ret no_information
  | _ :: _ =>
    let context_text := context_text_of relevant_chunks in
    let user_message := user_message_of context_text user_query in
    try_except
      (choices <- create (mkRequest "gpt-4o" system_prompt user_message
                            (3 # 10)) ;;
       answer <- match choices with
                 | [] => raise (Exception "list index out of range")
                 | first :: _ => ret first
                 end ;;
       ret (match answer with
            | Some (String _ _ as text) => text
            | _ => empty_response
            end))
      (fun e =>
         print ("Error generating RAG answer: " ++ exn_str e) ;;;
         ret failed_response)
  end.

(** The request [generate_answer] sends for a query and its context. *)
Definition request_for (user_query : string) (relevant_chunks : list string)
  : request :=
  mkRequest "gpt-4o" system_prompt
    (user_message_of (context_text_of relevant_chunks) user_query) (3 # 10).

(** C8.  Answer synthesis always returns a string and never raises.  With
    no retrieved record it returns the fixed "not enough information"
    string and sends nothing to the language model.  Otherwise it sends
    exactly one request and returns the text of the first choice when
    there is one and it is not empty, the fixed string for an empty answer
    when the first choice has no text, and the fixed failure string when
    the call raises or the response has no choice. *)
Theorem generate_answer_total (user_query : string)
    (relevant_chunks : list string) (s : session) :
  exists answer s',
    generate_answer user_query relevant_chunks s = (Returned answer, s') /\
    (relevant_chunks = [] -> answer = no_information /\ s' = s) /\
    (relevant_chunks <> [] ->
     requests s'
     = (requests s ++ [request_for user_query relevant_chunks])%list /\
     match chat_create (request_for user_query relevant_chunks) with
     | Returned (Some (String c text) :: _) => answer = String c text
     | Returned (_ :: _) => answer = empty_response
     | Returned [] | Raised _ => answer = failed_response
     end).
Proof.
  destruct relevant_chunks as [|chunk rest].
  - exists no_information, s.
    split; [reflexivity|]. split; [now split|]. intro H. now elim H.
  - unfold generate_answer, try_except, bind, create, raise, ret, print.
    fold (request_for user_query (chunk :: rest)).
    destruct (chat_create (request_for user_query (chunk :: rest)))
      as [[|[[|c text]|] others]|e];
      do 2 eexists; (split; [reflexivity|]);
      (split; [intro H; discriminate H|]); intros _; split; reflexivity.
Qed.

End Client.

(** Nothing retrieved: the fixed string, and no request. *)
Example answer_without_context :
  generate_answer (fun _ => Returned [Some "unused"]) "Who spoke?" []
    (mkSession [] [])
  = (Returned no_information, mkSession [] []).
Proof. reflexivity. Qed.

(** A request that raises is reported and degrades the answer. *)
Example answer_when_request_raises :
  let run :=
    generate_answer (fun _ => Raised (Exception "timeout")) "Who spoke?"
      ["[Visual Scene]: A studio."] (mkSession [] []) in
  fst run = Returned failed_response /\
  List.length (requests (snd run)) = 1%nat /\
  console (snd run) = ["Error generating RAG answer: timeout"].
Proof. vm_compute. repeat split; reflexivity. Qed.

End Rag.

(* ================================================================== *)
(** ** More on the windowing engine and on what it is fed *)

Module WindowingFacts.
Import Py.
Import Windowing.
Local Open Scope Q_scope.

Lemma round_half_even_comp (p q : Q) :
  p == q -> round_half_even p = round_half_even q.
Proof.
  intro H. unfold round_half_even.
  rewrite (Qfloor_comp _ _ H).
  assert (Hc : Qcompare (p - inject_Z (Qfloor q)) (1 # 2)
               = Qcompare (q - inject_Z (Qfloor q)) (1 # 2))
    by (apply Qcompare_comp; [rewrite H; reflexivity | reflexivity]).
  now rewrite Hc.
Qed.

Lemma round_half_even_mono (a b : Q) :
  a <= b -> (round_half_even a <= round_half_even b)%Z.
Proof.
  intro Hab.
  pose proof (Qfloor_resp_le _ _ Hab) as Hf.
  pose proof (round_half_even_range a) as Ha.
  pose proof (round_half_even_range b) as Hb.
  destruct (Z.eq_dec (Qfloor a) (Qfloor b)) as [E|E]; [|lia].
  clear Ha Hb Hf. unfold round_half_even. rewrite E.
  destruct (Qcompare (a - inject_Z (Qfloor b)) (1 # 2)) eqn:Ca;
    destruct (Qcompare (b - inject_Z (Qfloor b)) (1 # 2)) eqn:Cb;
    try destruct (Z.even (Qfloor b)); try lia;
    first [apply Qeq_alt in Ca | apply Qlt_alt in Ca | apply Qgt_alt in Ca];
    first [apply Qeq_alt in Cb | apply Qlt_alt in Cb | apply Qgt_alt in Cb];
    exfalso; lra.
Qed.

Lemma round2_mono (a b : Q) : a <= b -> round2 a <= round2 b.
Proof.
  intro Hab. unfold round2. rewrite !Qred_correct.
  assert (H : (round_half_even (a * 100) <= round_half_even (b * 100))%Z)
    by (apply round_half_even_mono; lra).
  rewrite Zle_Qle in H.
  apply Qmult_le_compat_r; [exact H|]. unfold Qinv, Qle; simpl; lia.
Qed.

Lemma round_half_even_Z (n : Z) : round_half_even (inject_Z n) = n.
Proof.
  apply Z.le_antisymm.
  - apply round_half_even_le. apply Qle_refl.
  - apply round_half_even_ge. apply Qle_refl.
Qed.

(** Rounding to two decimals a second time changes nothing. *)
Lemma round2_idempotent (q : Q) : round2 (round2 q) = round2 q.
Proof.
  unfold round2 at 1. apply Qred_complete.
  assert (E : round_half_even (round2 q * 100)
              = round_half_even (q * 100)).
  { transitivity (round_half_even (inject_Z (round_half_even (q * 100))));
      [|apply round_half_even_Z].
    apply round_half_even_comp. unfold round2. rewrite Qred_correct.
    field. }
  rewrite E. reflexivity.
Qed.

Lemma emits_inside (D : Q) (W S : Z) (s : Q) (ws : list window) :
  (0 < S)%Z -> emits D W S s ws ->
  forall k, s == inject_Z k -> (0 <= k)%Z ->
  Forall (fun w => 0 <= start w /\ start w < D /\ end_ w <= round2 D /\
                   start w + 1 <= end_ w) ws.
Proof.
  intro HS.
  assert (Hbound : forall s k, s == inject_Z k -> (0 <= k)%Z -> s < D ->
            1 <= clipped_end D W s - s ->
            0 <= start (window_at D W s) /\ start (window_at D W s) < D /\
            end_ (window_at D W s) <= round2 D /\
            start (window_at D W s) + 1 <= end_ (window_at D W s)).
  { intros s0 k Hs Hk Hlt Hlen.
    destruct (@window_at_bounds D W s0 k Hs Hlen) as (H0 & H1 & _).
    assert (Hk' : 0 <= inject_Z k)
      by (change 0 with (inject_Z 0); now rewrite <- Zle_Qle).
    repeat split; try lra.
    simpl. apply round2_mono. apply clipped_end_le_D. }
  induction 1 as [s _|s _ _|s Hlt Hlen _|s ws Hlt Hlen _ _ IH]; intros k Hs Hk.
  - constructor.
  - constructor.
  - constructor; [|constructor]. now apply (Hbound s k).
  - constructor; [now apply (Hbound s k)|].
    apply (IH (k + S)%Z); [rewrite inject_Z_plus; lra | lia].
Qed.

(** X1.  Every window lies inside the video, and the keyframe of a window is
    asked for at a time strictly inside it. *)
Theorem windows_inside_video (fuel : nat) (D : Q) (window_size step_size : Z)
    (ws : list window) :
  (0 < step_size)%Z ->
  create_sliding_windows fuel D window_size step_size = Some ws ->
  forall w, In w ws ->
    0 <= start w /\ start w < D /\ end_ w <= round2 D /\
    start w < (start w + end_ w) / 2 /\ (start w + end_ w) / 2 < end_ w.
Proof.
  intros HS Hrun w Hin.
  apply windows_loop_emits in Hrun.
  assert (H0 : 0 == inject_Z 0) by reflexivity.
  pose proof (emits_inside HS Hrun H0 (Z.le_refl 0)) as Hall.
  rewrite Forall_forall in Hall.
  destruct (Hall w Hin) as (Hs & Hlt & He & Hlen).
  repeat split; try assumption.
  - apply Qlt_shift_div_l; lra.
  - apply Qlt_shift_div_r; lra.
Qed.

Lemma windows_inside_video_witness :
  let w := mkWindow 10 (51 # 2) in
  0 <= start w /\ start w < 51 # 2 /\ end_ w <= round2 (51 # 2) /\
  start w < (start w + end_ w) / 2 /\ (start w + end_ w) / 2 < end_ w.
Proof.
  apply (@windows_inside_video 5 (51 # 2) 20 10
           [mkWindow 0 20; mkWindow 10 (51 # 2)]);
    [lia | vm_compute; reflexivity | right; left; reflexivity].
Defined.

End WindowingFacts.

(* ================================================================== *)
(** ** From ingestion to windows *)

Module PipelineFacts.
Import Py.
Import Windowing.
Import WindowingFacts.
Local Open Scope string_scope.
Local Open Scope Q_scope.

(** The fuel [chunks_of] hands to the loop is enough: its result is what
    the loop emits from 0. *)
Lemma chunks_of_emits (D : Q) : emits D 20 10 0 (Fusion.chunks_of D).
Proof.
  unfold Fusion.chunks_of, create_sliding_windows.
  destruct (@windows_loop_terminates D 20 10
              (S (Z.to_nat (Qceiling D))) eq_refl 0) as [ws Hrun].
  { assert (E : Qceiling (D - 0) = Qceiling D)
      by (apply Qceiling_comp; lra).
    rewrite E. lia. }
  rewrite Hrun. now apply windows_loop_emits in Hrun.
Qed.

Lemma fresh_videos_rounded (capture : string -> Ingest.media)
    (video_files : list string) :
  forall r v, In v (Ingest.fresh_videos capture video_files r) ->
              exists d, Ingest.duration_seconds v = round2 d.
Proof.
  induction video_files as [|path rest IH]; intros r v Hin; [destruct Hin|].
  simpl in Hin. destruct (Ingest.get_video_duration capture path) as [d|].
  - destruct Hin as [<-|Hin]; [now exists d|]. now apply IH in Hin.
  - now apply IH in Hin.
Qed.

(** X2.  The windows of an ingested video that lasts at least one second
    cover it from 0 to its recorded duration, and the last window ends
    exactly there. *)
Theorem ingested_video_fully_covered (capture : string -> Ingest.media)
    (video_files : list string) (r : Ingest.rng) (v : Ingest.video_metadata) :
  In v (Ingest.ingested capture video_files r) ->
  1 <= Ingest.duration_seconds v ->
  Fusion.chunks_of (Ingest.duration_seconds v) <> [] /\
  covers_upto (Fusion.chunks_of (Ingest.duration_seconds v))
              (Ingest.duration_seconds v) /\
  end_ (last_window (Fusion.chunks_of (Ingest.duration_seconds v)))
  = Ingest.duration_seconds v.
Proof.
  rewrite Ingest.ingested_fresh. intros Hin Hlong.
  destruct (fresh_videos_rounded _ _ _ _ Hin) as [d Hd].
  assert (Hfix : round2 (Ingest.duration_seconds v)
                 = Ingest.duration_seconds v)
    by (rewrite Hd; apply round2_idempotent).
  pose proof (chunks_of_emits (Ingest.duration_seconds v)) as Hrun.
  assert (H0 : 0 == inject_Z 0) by reflexivity.
  destruct (@emits_reaches_end _ 20 10 0 _ eq_refl eq_refl Hrun)
    as [Hne Hlast]; [lra|].
  rewrite Hfix in Hlast.
  split; [exact Hne|]. split; [|exact Hlast].
  intros t Hlo Hhi.
  apply (@emits_contiguous _ 20 10 0 _ ltac:(discriminate) Hrun 0%Z H0);
    try assumption.
  now rewrite Hlast.
Qed.

Lemma ingested_video_fully_covered_witness :
  let v := Ingest.mkVideo "3f2a9c1e" "news.mp4" "/data/videos/news.mp4"
             (51 # 2) in
  Fusion.chunks_of (Ingest.duration_seconds v) <> [] /\
  covers_upto (Fusion.chunks_of (Ingest.duration_seconds v))
              (Ingest.duration_seconds v) /\
  end_ (last_window (Fusion.chunks_of (Ingest.duration_seconds v)))
  = Ingest.duration_seconds v.
Proof.
  apply (@ingested_video_fully_covered
           (fun _ => Ingest.mkMedia true 30 765) ["/data/videos/news.mp4"]
           (Ingest.mkRng (fun _ => "3f2a9c1e-5b7d-4e6f-8a1b-0c2d4e6f8a1b") 0)).
  - vm_compute. left. reflexivity.
  - vm_compute. discriminate.
Defined.


End PipelineFacts.

(* ================================================================== *)
(** ** More on the indexer: what a commit leaves in the store *)

Module IndexerFacts.
Import Py.
Import Indexer.
Local Open Scope string_scope.

(** [d.get(k)] *)
Fixpoint dict_get (d : dict) (k : string) : option value :=
  match d with
  | [] => None
  | (k', v) :: d' => if String.eqb k' k then Some v else dict_get d' k
  end.

(** The writes among the events. *)
Definition adds_of (evs : list event) : list event :=
  filter (fun ev => match ev with StoreAdd _ => true | _ => false end) evs.

Lemma dict_get_set_same (d : dict) (k : string) (v : value) :
  dict_get (dict_set d k v) k = Some v.
Proof.
  induction d as [|[k' v'] d IH]; simpl.
  - now rewrite String.eqb_refl.
  - destruct (String.eqb k' k) eqn:E; simpl.
    + now rewrite String.eqb_refl.
    + now rewrite E.
Qed.

Lemma dict_get_set_other (d : dict) (k k' : string) (v : value) :
  k' <> k -> dict_get (dict_set d k v) k' = dict_get d k'.
Proof.
  intro Hne. induction d as [|[k0 v0] d IH]; simpl.
  - destruct (String.eqb k k') eqn:E; [|reflexivity].
    apply String.eqb_eq in E. congruence.
  - destruct (String.eqb k0 k) eqn:E; simpl.
    + apply String.eqb_eq in E. subst k0.
      destruct (String.eqb k k') eqn:E'; [|reflexivity].
      apply String.eqb_eq in E'. congruence.
    + destruct (String.eqb k0 k'); [reflexivity|exact IH].
Qed.

Lemma adds_of_app (a b : list event) :
  adds_of (a ++ b) = (adds_of a ++ adds_of b)%list.
Proof. apply filter_app. Qed.

(** The events of the retry loop, for any list of attempts: the writes
    are all for the one id, at least one and at most one per attempt. *)
Lemma add_attempts_events (policy : add_policy) (n : nat) (text : string)
    (metadata : dict) (id : string) (attempts : list nat) :
  forall st, exists evs k,
    trace (snd (add_attempts policy n attempts text metadata id st))
    = (trace st ++ evs)%list /\
    adds_of evs = repeat (StoreAdd id) k /\
    (k <= List.length attempts)%nat /\
    (attempts <> [] -> 1 <= k)%nat.
Proof.
  induction attempts as [|a rest IH]; intro st.
  - exists [], 0%nat. simpl. rewrite app_nil_r.
    repeat split; try lia; congruence.
  - cbn [add_attempts]. unfold bind at 1, try_except, bind at 1.
    assert (Hretry : forall (tail : list event) (st1 : store),
              adds_of tail = [] ->
              trace st1 = (trace st ++ StoreAdd id :: tail)%list ->
              exists evs k,
                trace (snd (add_attempts policy n rest text metadata id st1))
                = (trace st ++ evs)%list /\
                adds_of evs = repeat (StoreAdd id) k /\
                (k <= List.length (a :: rest))%nat /\
                (a :: rest <> [] -> 1 <= k)%nat).
    { intros tail st1 Htail Ht.
      destruct (IH st1) as (evs & k & Htr & Hadds & Hk & _).
      exists ((StoreAdd id :: tail) ++ evs)%list, (S k).
      rewrite Htr, Ht, <- app_assoc. split; [reflexivity|].
      split.
      { rewrite adds_of_app. change (adds_of (StoreAdd id :: tail))
          with (StoreAdd id :: adds_of tail). now rewrite Htail, Hadds. }
      split; [simpl; lia|lia]. }
    unfold collection_add.
    destruct (hd false (faults st)).
    + unfold bind, emit, ret.
      destruct (a <? n - 1)%nat; cbn [fst snd];
        eapply Hretry; try (cbn [trace]; rewrite <- !app_assoc; reflexivity);
        reflexivity.
    + destruct (has_id id (collection st)).
      * destruct policy.
        -- exists [StoreAdd id], 1%nat. simpl.
           repeat split; try lia; reflexivity.
        -- unfold bind, emit, ret.
           destruct (a <? n - 1)%nat; cbn [fst snd];
             eapply Hretry;
             try (cbn [trace]; rewrite <- !app_assoc; reflexivity);
             reflexivity.
      * exists [StoreAdd id], 1%nat. simpl.
        repeat split; try lia; reflexivity.
Qed.

(** What a commit appends: nothing, or the one entry it was given, under
    an id that was not stored yet. *)
Lemma add_attempts_appends_entry (policy : add_policy) (n : nat)
    (text : string) (metadata : dict) (id : string) (attempts : list nat) :
  forall st, exists added,
    collection (snd (add_attempts policy n attempts text metadata id st))
    = (collection st ++ added)%list /\
    (added = [] \/
     has_id id (collection st) = false /\
     added = [mkEntry id text metadata]).
Proof.
  induction attempts as [|a rest IH]; intro st.
  - exists []. split; [simpl; now rewrite app_nil_r|now left].
  - cbn [add_attempts]. unfold bind at 1, try_except, bind at 1.
    unfold collection_add.
    destruct (hd false (faults st)).
    + unfold bind, emit, ret.
      destruct (a <? n - 1)%nat; cbn [fst snd];
        match goal with
        | |- context [add_attempts _ _ _ _ _ _ ?st'] =>
          destruct (IH st') as (added & Hc & Hadded)
        end; exists added; (split; [exact Hc|exact Hadded]).
    + destruct (has_id id (collection st)) eqn:E.
      * destruct policy.
        -- exists []. split; [simpl; now rewrite app_nil_r|now left].
        -- unfold bind, emit, ret.
           destruct (a <? n - 1)%nat; cbn [fst snd];
             match goal with
             | |- context [add_attempts _ _ _ _ _ _ ?st'] =>
               destruct (IH st') as (added & Hc & Hadded)
             end; exists added; (split; [exact Hc|]);
             (destruct Hadded as [->|[Hf _]];
              [now left|cbn [collection] in Hf; congruence]).
      * exists [mkEntry id text metadata]. split; [reflexivity|].
        right. now split.
Qed.

Lemma has_id_In (id : string) (c : list entry) :
  has_id id c = false -> ~ In id (map entry_id c).
Proof.
  induction c as [|r c IH]; simpl; [tauto|].
  intros H [Hr|Hin]; apply orb_false_iff in H; destruct H as [H1 H2].
  - rewrite Hr, String.eqb_refl in H1. discriminate.
  - now apply IH.
Qed.

(** X3.  A commit never removes or changes a stored entry: it appends at
    most one, the one it was given under the identity of the window, and
    only if that identity was not stored yet.  Identities that were
    pairwise distinct before the commit are pairwise distinct after. *)
Theorem commit_appends_at_most_one
    (policy : add_policy) (video_id : string) (start_time end_time : Q)
    (text : string) (metadata : option dict) (st : store) :
  let id := chunk_id_of video_id start_time end_time in
  let st' := snd (add_chunk_to_db policy video_id start_time end_time text
                    metadata st) in
  (exists added,
     collection st' = (collection st ++ added)%list /\
     (added = [] \/
      has_id id (collection st) = false /\
      added = [mkEntry id text
                 (stamped metadata video_id start_time end_time)])) /\
  (NoDup (map entry_id (collection st)) ->
   NoDup (map entry_id (collection st'))).
Proof.
  intros id st'.
  destruct (add_attempts_appends_entry policy max_retries text
              (stamped metadata video_id start_time end_time) id
              (seq 0 max_retries) st) as (added & Hc & Hadded).
  change (collection st' = (collection st ++ added)%list) in Hc.
  split; [exists added; split; assumption|].
  intro Hnd. rewrite Hc, map_app.
  destruct Hadded as [->|[Hnew ->]]; [now rewrite app_nil_r|].
  apply has_id_In in Hnew. simpl.
  apply NoDup_app; [exact Hnd|repeat constructor; tauto|].
  intros x Hx [<-|[]]. contradiction.
Qed.

(** X4.  Whatever metadata the caller passes, the entry a commit appends
    carries the video id and the two times of the call under the keys
    video_id, start_time and end_time, and every other key as the caller
    gave it. *)
Theorem appended_metadata_is_stamped
    (policy : add_policy) (video_id : string) (start_time end_time : Q)
    (text : string) (metadata : option dict) (st : store) (r : entry) :
  In r (collection (snd (add_chunk_to_db policy video_id start_time end_time
                           text metadata st))) ->
  ~ In r (collection st) ->
  dict_get (metadata_of r) "video_id" = Some (VStr video_id) /\
  dict_get (metadata_of r) "start_time" = Some (VNum start_time) /\
  dict_get (metadata_of r) "end_time" = Some (VNum end_time) /\
  (forall k, k <> "video_id" -> k <> "start_time" -> k <> "end_time" ->
     dict_get (metadata_of r) k
     = dict_get (match metadata with None => [] | Some m => m end) k).
Proof.
  intros Hin Hold.
  destruct (add_attempts_appends_entry policy max_retries text
              (stamped metadata video_id start_time end_time)
              (chunk_id_of video_id start_time end_time)
              (seq 0 max_retries) st) as (added & Hc & Hadded).
  unfold add_chunk_to_db in Hin.
  fold (stamped metadata video_id start_time end_time) in Hin.
  rewrite Hc in Hin. apply in_app_or in Hin.
  destruct Hin as [Hin|Hin]; [contradiction|].
  destruct Hadded as [->|[_ ->]]; [destruct Hin|].
  destruct Hin as [<-|[]]. cbn [metadata_of]. unfold stamped.
  repeat split.
  - rewrite !dict_get_set_other by discriminate. apply dict_get_set_same.
  - rewrite dict_get_set_other by discriminate. apply dict_get_set_same.
  - apply dict_get_set_same.
  - intros k H1 H2 H3. now rewrite !dict_get_set_other.
Qed.

Lemma appended_metadata_is_stamped_witness :
  let r := mkEntry "1a2b3c4d_0.0_20.0" "text"
             [ ("video_id", VStr "1a2b3c4d"); ("filename", VStr "news.mp4");
               ("start_time", VNum 0); ("end_time", VNum 20) ] in
  dict_get (metadata_of r) "video_id" = Some (VStr "1a2b3c4d") /\
  dict_get (metadata_of r) "start_time" = Some (VNum 0) /\
  dict_get (metadata_of r) "end_time" = Some (VNum 20) /\
  (forall k, k <> "video_id" -> k <> "start_time" -> k <> "end_time" ->
     dict_get (metadata_of r) k
     = dict_get [ ("video_id", VStr "wrong"); ("filename", VStr "news.mp4") ]
                k).
Proof.
  apply (@appended_metadata_is_stamped IgnoreExisting "1a2b3c4d" 0 20 "text"
           (Some [ ("video_id", VStr "wrong"); ("filename", VStr "news.mp4") ])
           (mkStore [] [] [])).
  - vm_compute. left. reflexivity.
  - intros [].
Defined.

End IndexerFacts.

(* ================================================================== *)
(** ** app/core/ner_analyzer.py: the entity lists *)

Module EntityFacts.
Import Py.
Import Fusion.
Local Open Scope string_scope.

(** The elements of a list in the order of their first occurrence. *)
Definition first_seen (l : list string) : list string :=
  rev (nodup string_dec (rev l)).

(** [if x not in seen: seen.append(x)] *)
Definition add_unseen (seen : list string) (x : string) : list string :=
  if not_in x seen then (seen ++ [x])%list else seen.

(** The stripped texts of the entities of a label, as they come. *)
Definition mentions (label : string) (ents : list (string * string))
  : list string :=
  map (fun ent => strip (snd ent))
      (filter (fun ent => String.eqb (fst ent) label) ents).

Lemma not_in_iff (x : string) (l : list string) :
  not_in x l = true <-> ~ In x l.
Proof.
  unfold not_in. rewrite negb_true_iff. split.
  - intros H Hin. assert (E : existsb (String.eqb x) l = true).
    { apply existsb_exists. exists x. split; [exact Hin|apply String.eqb_refl]. }
    congruence.
  - intro H. destruct (existsb (String.eqb x) l) eqn:E; [|reflexivity].
    apply existsb_exists in E. destruct E as (y & Hy & Exy).
    apply String.eqb_eq in Exy. subst y. contradiction.
Qed.

Lemma first_seen_snoc (l : list string) (x : string) :
  first_seen (l ++ [x]) = add_unseen (first_seen l) x.
Proof.
  unfold first_seen, add_unseen. rewrite rev_app_distr. simpl.
  destruct (in_dec string_dec x (rev l)) as [Hin|Hout].
  - assert (E : not_in x (rev (nodup string_dec (rev l))) = false).
    { destruct (not_in x _) eqn:E; [|reflexivity].
      apply not_in_iff in E. exfalso. apply E.
      apply -> in_rev. now apply nodup_In. }
    now rewrite E.
  - assert (E : not_in x (rev (nodup string_dec (rev l))) = true).
    { apply not_in_iff. intro H. apply in_rev in H.
      now apply nodup_In in H. }
    now rewrite E.
Qed.

Lemma fold_add_unseen (l : list string) :
  forall pre, fold_left add_unseen l (first_seen pre) = first_seen (pre ++ l).
Proof.
  induction l as [|x l IH]; intro pre; simpl.
  - now rewrite app_nil_r.
  - rewrite <- first_seen_snoc, IH, <- app_assoc. reflexivity.
Qed.

Lemma first_seen_NoDup (l : list string) : NoDup (first_seen l).
Proof. apply NoDup_rev. apply NoDup_nodup. Qed.

Lemma first_seen_In (l : list string) (x : string) :
  In x (first_seen l) <-> In x l.
Proof.
  unfold first_seen. rewrite <- in_rev, nodup_In, <- in_rev. reflexivity.
Qed.

Section Engine.
Variable nlp_ents : string -> list (string * string).

(** The body and the loop of [extract_entities] over the entities found. *)
Definition collect_step (ents : entities) (ent : string * string)
  : entities :=
  let label := fst ent in
  let text_value := strip (snd ent) in
  if String.eqb label "PERSON" then
    if not_in text_value (PERSON ents)
    then mkEntities (PERSON ents ++ [text_value]) (ORG ents) (GPE ents)
    else ents
  else if String.eqb label "ORG" then
    if not_in text_value (ORG ents)
    then mkEntities (PERSON ents) (ORG ents ++ [text_value]) (GPE ents)
    else ents
  else if String.eqb label "GPE" then
    if not_in text_value (GPE ents)
    then mkEntities (PERSON ents) (ORG ents) (GPE ents ++ [text_value])
    else ents
  else ents.

Definition collect (found : list (string * string)) (acc : entities)
  : entities :=
  fold_left collect_step found acc.

Lemma extract_entities_collect (text : string) :
  text <> EmptyString ->
  extract_entities nlp_ents text
  = collect (nlp_ents text) (mkEntities [] [] []).
Proof. destruct text; [congruence|reflexivity]. Qed.

Lemma collect_step_fields (ents : entities) (label raw : string) :
  PERSON (collect_step ents (label, raw))
  = (if String.eqb label "PERSON"
     then add_unseen (PERSON ents) (strip raw) else PERSON ents) /\
  ORG (collect_step ents (label, raw))
  = (if String.eqb label "ORG"
     then add_unseen (ORG ents) (strip raw) else ORG ents) /\
  GPE (collect_step ents (label, raw))
  = (if String.eqb label "GPE"
     then add_unseen (GPE ents) (strip raw) else GPE ents).
Proof.
  unfold collect_step, add_unseen. cbn [fst snd].
  destruct (String.eqb label "PERSON") eqn:EP.
  { apply String.eqb_eq in EP. subst label. cbn [String.eqb Ascii.eqb].
    destruct (not_in (strip raw) (PERSON ents)); repeat split. }
  destruct (String.eqb label "ORG") eqn:EO.
  { apply String.eqb_eq in EO. subst label. cbn [String.eqb Ascii.eqb].
    destruct (not_in (strip raw) (ORG ents)); repeat split. }
  destruct (String.eqb label "GPE") eqn:EG; [|repeat split].
  destruct (not_in (strip raw) (GPE ents)); repeat split.
Qed.

Lemma mentions_cons (label l raw : string) (found : list (string * string)) :
  mentions l ((label, raw) :: found)
  = if String.eqb label l then strip raw :: mentions l found
    else mentions l found.
Proof.
  unfold mentions. cbn [filter fst]. now destruct (String.eqb label l).
Qed.

Lemma collect_fields (found : list (string * string)) :
  forall acc,
    PERSON (collect found acc)
    = fold_left add_unseen (mentions "PERSON" found) (PERSON acc) /\
    ORG (collect found acc)
    = fold_left add_unseen (mentions "ORG" found) (ORG acc) /\
    GPE (collect found acc)
    = fold_left add_unseen (mentions "GPE" found) (GPE acc).
Proof.
  induction found as [|[label raw] found IH]; intro acc;
    [repeat split|].
  unfold collect in *. cbn [fold_left].
  destruct (IH (collect_step acc (label, raw))) as (HP & HO & HG).
  destruct (collect_step_fields acc label raw) as (SP & SO & SG).
  rewrite HP, HO, HG, SP, SO, SG, !mentions_cons.
  repeat split.
  - now destruct (String.eqb label "PERSON").
  - now destruct (String.eqb label "ORG").
  - now destruct (String.eqb label "GPE").
Qed.

(** X5.  For a text that is not empty, each of the three lists holds the
    stripped names of the entities of its label, each name once, in the
    order of first mention; entities of other labels are dropped.  The
    empty text gives three empty lists without a call to the engine's
    result. *)
Theorem extract_entities_first_mentions (text : string) :
  let ents := extract_entities nlp_ents text in
  (text <> EmptyString ->
   PERSON ents = first_seen (mentions "PERSON" (nlp_ents text)) /\
   ORG ents = first_seen (mentions "ORG" (nlp_ents text)) /\
   GPE ents = first_seen (mentions "GPE" (nlp_ents text))) /\
  (text = EmptyString -> ents = mkEntities [] [] []) /\
  NoDup (PERSON ents) /\ NoDup (ORG ents) /\ NoDup (GPE ents) /\
  (forall label raw,
     In (label, raw) (nlp_ents text) -> text <> EmptyString ->
     (label = "PERSON" -> In (strip raw) (PERSON ents)) /\
     (label = "ORG" -> In (strip raw) (ORG ents)) /\
     (label = "GPE" -> In (strip raw) (GPE ents))).
Proof.
  intro ents.
  assert (Hfull : text <> EmptyString ->
            PERSON ents = first_seen (mentions "PERSON" (nlp_ents text)) /\
            ORG ents = first_seen (mentions "ORG" (nlp_ents text)) /\
            GPE ents = first_seen (mentions "GPE" (nlp_ents text))).
  { intro Hne. subst ents. rewrite (extract_entities_collect Hne).
    destruct (collect_fields (nlp_ents text)
                (mkEntities [] [] [])) as (HP & HO & HG).
    rewrite HP, HO, HG. cbn [PERSON ORG GPE].
    change (@nil string) with (first_seen []).
    rewrite !fold_add_unseen. repeat split. }
  assert (Hempty : text = EmptyString -> ents = mkEntities [] [] []).
  { intros ->. reflexivity. }
  split; [exact Hfull|]. split; [exact Hempty|].
  assert (Hnd : NoDup (PERSON ents) /\ NoDup (ORG ents) /\ NoDup (GPE ents)).
  { destruct text as [|c text'].
    - rewrite (Hempty eq_refl). repeat split; constructor.
    - destruct Hfull as (-> & -> & ->); [discriminate|].
      repeat split; apply first_seen_NoDup. }
  destruct Hnd as (H1 & H2 & H3).
  split; [exact H1|]. split; [exact H2|]. split; [exact H3|].
  intros label raw Hin Hne. destruct (Hfull Hne) as (-> & -> & ->).
  assert (Hm : forall l, label = l ->
            In (strip raw) (first_seen (mentions l (nlp_ents text)))).
  { intros l <-. apply first_seen_In. unfold mentions.
    apply (in_map (fun ent => strip (snd ent)) _ (label, raw)).
    apply filter_In. split; [exact Hin|]. apply String.eqb_refl. }
  repeat split; apply Hm.
Qed.

End Engine.

Example first_seen_keeps_first :
  first_seen ["Ann"; "Bob"; "Ann"; "Cy"; "Bob"] = ["Ann"; "Bob"; "Cy"].
Proof. reflexivity. Qed.

End EntityFacts.

(* ================================================================== *)
(** ** More on the fusion engine: what a run does to the engines and the store *)

Module FusionFacts.
Import Py.
Import Windowing.
Import Vision.
Import Fusion.
Local Open Scope string_scope.

Section Run.

Variable frame : Type.
Variable gray64 : frame -> list Z.
Variable extract_frame_at_time : string -> Q -> option frame.
Variable caption_request : frame -> result string.
Variable readtext : frame -> result (list string).
Variable nlp_ents : string -> list (string * string).
Variable extract_audio : string -> option string.
Variable transcribe_audio : string -> option (list segment).

Local Abbreviation visual_context :=
  (Fusion.visual_context gray64 caption_request readtext).
Local Abbreviation process_chunk :=
  (Fusion.process_chunk gray64 extract_frame_at_time caption_request readtext
     nlp_ents).
Local Abbreviation process_chunks :=
  (Fusion.process_chunks gray64 extract_frame_at_time caption_request
     readtext nlp_ents).
Local Abbreviation process_single_video :=
  (Fusion.process_single_video gray64 extract_frame_at_time caption_request
     readtext nlp_ents extract_audio transcribe_audio).

(** The keyframe of a window, and those of a sequence of windows. *)
Definition keyframe_of (video_meta : Ingest.video_metadata) (chunk : window)
  : option frame :=
  extract_frame_at_time (Ingest.file_path video_meta)
    ((start chunk + end_ chunk) / 2)%Q.

Definition keyframes_of (video_meta : Ingest.video_metadata)
    (chunks : list window) : list frame :=
  flat_map (fun chunk => match keyframe_of video_meta chunk with
                         | Some f => [f]
                         | None => []
                         end) chunks.

(** The identity under which a window is committed. *)
Definition id_of (video_meta : Ingest.video_metadata) (chunk : window)
  : string :=
  Indexer.chunk_id_of (Ingest.video_id video_meta) (start chunk) (end_ chunk).

(** One window: what the engines and the store see of it. *)
Lemma process_chunk_effects (policy : Indexer.add_policy)
    (video_meta : Ingest.video_metadata) (segments : list segment)
    (i : nat) (chunk : window) (sc : scene_state frame) (w : world frame) :
  exists sc' w' evs k,
    process_chunk policy video_meta segments i chunk sc w
    = (Returned sc', w') /\
    ocr_calls w'
    = (ocr_calls w ++ match keyframe_of video_meta chunk with
                      | Some f => [f]
                      | None => []
                      end)%list /\
    (exists sub,
       caption_calls w' = (caption_calls w ++ sub)%list /\
       (sub = [] \/ exists f, keyframe_of video_meta chunk = Some f /\
                              sub = [f])) /\
    Indexer.trace (db w') = (Indexer.trace (db w) ++ evs)%list /\
    IndexerFacts.adds_of evs
    = repeat (Indexer.StoreAdd (id_of video_meta chunk)) k /\
    (1 <= k <= Indexer.max_retries)%nat.
Proof.
  destruct (process_chunk_run gray64 extract_frame_at_time caption_request
              readtext nlp_ents policy video_meta segments i chunk sc w)
    as (vc & ot & sc' & wv & md & Hv & Hrun).
  fold (keyframe_of video_meta chunk) in Hv.
  match type of Hrun with
  | _ = (_, put_db (snd (Indexer.add_chunk_to_db _ _ _ _ ?text _ _)) _) =>
    destruct (IndexerFacts.add_attempts_events policy Indexer.max_retries
                text
                (Indexer.stamped md (Ingest.video_id video_meta)
                   (start chunk) (end_ chunk))
                (id_of video_meta chunk) (seq 0 Indexer.max_retries) (db wv))
      as (evs & k & Htr & Hadds & Hk & Hpos)
  end.
  exists sc'. eexists. exists evs, k. split; [exact Hrun|].
  cbn [put_db ocr_calls caption_calls db].
  assert (Hw : db wv = db w /\
               ocr_calls wv
               = (ocr_calls w ++ match keyframe_of video_meta chunk with
                                 | Some f => [f]
                                 | None => []
                                 end)%list /\
               exists sub,
                 caption_calls wv = (caption_calls w ++ sub)%list /\
                 (sub = [] \/ exists f, keyframe_of video_meta chunk = Some f
                                        /\ sub = [f])).
  { destruct (keyframe_of video_meta chunk) as [f|].
    - rewrite visual_context_keyframe in Hv. cbv zeta in Hv.
      inversion Hv; subst. cbn [db ocr_calls caption_calls].
      split; [reflexivity|]. split; [reflexivity|].
      destruct (fresh_caption gray64 i sc f).
      + exists [f]. split; [reflexivity|]. right. now exists f.
      + exists []. split; [reflexivity|]. now left.
    - inversion Hv; subst. split; [reflexivity|].
      split; [now rewrite app_nil_r|].
      exists []. split; [now rewrite app_nil_r|now left]. }
  destruct Hw as (Hdb & Hocr & Hcap).
  split; [exact Hocr|]. split; [exact Hcap|].
  split; [rewrite <- Hdb; exact Htr|]. split; [exact Hadds|].
  split; [apply Hpos; discriminate|].
  rewrite length_seq in Hk. exact Hk.
Qed.

(** The writes of a run over windows: for each window in turn, between one
    and three writes of its identity. *)
Fixpoint writes_of (video_meta : Ingest.video_metadata)
    (chunks : list window) (counts : list nat) : list Indexer.event :=
  match chunks, counts with
  | chunk :: chunks', k :: counts' =>
    (repeat (Indexer.StoreAdd (id_of video_meta chunk)) k
     ++ writes_of video_meta chunks' counts')%list
  | _, _ => []
  end.

Lemma process_chunks_effects (policy : Indexer.add_policy)
    (video_meta : Ingest.video_metadata) (segments : list segment)
    (chunks : list window) :
  forall i sc w, exists sc' w' evs counts sub,
    process_chunks policy video_meta segments i chunks sc w
    = (Returned sc', w') /\
    ocr_calls w' = (ocr_calls w ++ keyframes_of video_meta chunks)%list /\
    caption_calls w' = (caption_calls w ++ sub)%list /\
    incl sub (keyframes_of video_meta chunks) /\
    (List.length sub <= List.length (keyframes_of video_meta chunks))%nat /\
    Indexer.trace (db w') = (Indexer.trace (db w) ++ evs)%list /\
    IndexerFacts.adds_of evs = writes_of video_meta chunks counts /\
    List.length counts = List.length chunks /\
    Forall (fun k => 1 <= k <= Indexer.max_retries)%nat counts.
Proof.
  induction chunks as [|chunk rest IH]; intros i sc w.
  - exists sc, w, [], [], []. simpl. rewrite !app_nil_r.
    repeat split; try reflexivity; try constructor.
    intros x [].
  - cbn [Fusion.process_chunks]. unfold bind.
    destruct (process_chunk_effects policy video_meta segments i chunk sc w)
      as (sc1 & w1 & evs1 & k & Hrun & Hocr & (sub1 & Hcap & Hsub) & Htr
          & Hadds & Hk).
    rewrite Hrun.
    destruct (IH (S i) sc1 w1)
      as (sc' & w' & evs & counts & sub & Hrest & Hocr' & Hcap' & Hincl
          & Hlen & Htr' & Hadds' & Hcounts & Hall).
    exists sc', w', (evs1 ++ evs)%list, (k :: counts), (sub1 ++ sub)%list.
    split; [exact Hrest|]. cbn [keyframes_of flat_map].
    fold (keyframes_of video_meta rest).
    split; [rewrite Hocr', Hocr; now rewrite <- app_assoc|].
    split; [rewrite Hcap', Hcap; now rewrite <- app_assoc|].
    split.
    { apply incl_app; [|now apply incl_appr].
      apply incl_appl.
      destruct Hsub as [->|(f & -> & ->)]; [intros x []|apply incl_refl]. }
    split.
    { rewrite !length_app.
      destruct Hsub as [->|(f & -> & ->)]; simpl; lia. }
    split; [rewrite Htr', Htr; now rewrite <- app_assoc|].
    split; [rewrite IndexerFacts.adds_of_app, Hadds, Hadds'; reflexivity|].
    split; [simpl; now rewrite Hcounts|].
    constructor; assumption.
Qed.

(** Windows that all show the frame [f]: the caption every one of them
    commits is the caption carried so far, or the fresh one when the run
    starts with the first window. *)
Lemma process_chunks_still (policy : Indexer.add_policy)
    (video_meta : Ingest.video_metadata) (segments : list segment)
    (f : frame) (caption : string) (chunks : list window) :
  (forall chunk, In chunk chunks -> keyframe_of video_meta chunk = Some f) ->
  forall i sc w,
    (i = 0%nat /\ caption = caption_of caption_request f \/
     i <> 0%nat /\ previous_frame sc = Some f /\
     previous_caption sc = caption) ->
    exists added,
      Indexer.collection
        (db (snd (process_chunks policy video_meta segments i chunks sc w)))
      = (Indexer.collection (db w) ++ added)%list /\
      Forall (fun r => exists audio,
                Indexer.document r
                = final_text caption (ocr_of readtext f) audio) added.
Proof.
  induction chunks as [|chunk rest IH]; intros Hframes i sc w Hinv.
  - exists []. split; [simpl; now rewrite app_nil_r|constructor].
  - cbn [Fusion.process_chunks]. unfold bind.
    destruct (process_chunk_run gray64 extract_frame_at_time caption_request
                readtext nlp_ents policy video_meta segments i chunk sc w)
      as (vc & ot & sc1 & wv & md & Hv & Hrun).
    rewrite Hrun.
    fold (keyframe_of video_meta chunk) in Hv.
    rewrite (Hframes chunk (or_introl eq_refl)) in Hv.
    rewrite visual_context_keyframe in Hv. cbv zeta in Hv.
    assert (Hcap : (if fresh_caption gray64 i sc f
                    then caption_of caption_request f
                    else previous_caption sc) = caption).
    { destruct Hinv as [[-> ->]|(Hi & Hprev & Hc)]; [reflexivity|].
      unfold fresh_caption. apply Nat.eqb_neq in Hi. rewrite Hi, Hprev.
      rewrite same_frame_below_threshold; [exact Hc|].
      unfold scene_change_threshold. discriminate. }
    rewrite Hcap in Hv. inversion Hv; subst vc ot sc1 wv.
    match goal with
    | |- context [Fusion.process_chunks _ _ _ _ _ _ _ _ _ rest ?sc1 ?w1] =>
      destruct (IH (fun c Hc => Hframes c (or_intror Hc)) (S i) sc1 w1)
        as (added & Hc & Hall);
        [right; split; [discriminate|split; reflexivity]|]
    end.
    match type of Hc with
    | context [Indexer.add_chunk_to_db _ _ _ _ ?text ?md ?st] =>
      destruct (Indexer.add_attempts_appends policy Indexer.max_retries text
                  (Indexer.stamped md (Ingest.video_id video_meta)
                     (start chunk) (end_ chunk))
                  (Indexer.chunk_id_of (Ingest.video_id video_meta)
                     (start chunk) (end_ chunk))
                  (seq 0 Indexer.max_retries) st)
        as (new & Hnew & Hdoc)
    end.
    exists (new ++ added)%list. split.
    + rewrite Hc. cbn [put_db db] in *. unfold Indexer.add_chunk_to_db.
      match goal with
      | |- context [Indexer.add_attempts _ _ _ _ ?m _ _] =>
        change m with (Indexer.stamped md (Ingest.video_id video_meta)
                         (start chunk) (end_ chunk))
      end.
      rewrite Hnew. now rewrite <- app_assoc.
    + apply Forall_app. split; [|exact Hall].
      eapply Forall_impl; [|exact Hdoc].
      intros r [Hr _]. rewrite Hr. eexists. reflexivity.
Qed.

(** *** The properties *)

(** X6.  The text recognition runs on the keyframe of every window that has
    one, whatever the scene-change gate decides, and on nothing else; the
    captioning requests of a run are taken among those keyframes, so there
    are never more of them than text recognitions. *)
Theorem ocr_on_every_keyframe (policy : Indexer.add_policy)
    (video_meta : Ingest.video_metadata) (segments : list segment)
    (i : nat) (chunks : list window) (sc : scene_state frame)
    (w : world frame) :
  let w' := snd (process_chunks policy video_meta segments i chunks sc w) in
  ocr_calls w' = (ocr_calls w ++ keyframes_of video_meta chunks)%list /\
  exists sub,
    caption_calls w' = (caption_calls w ++ sub)%list /\
    incl sub (keyframes_of video_meta chunks) /\
    (List.length sub <= List.length (keyframes_of video_meta chunks))%nat.
Proof.
  intro w'. subst w'.
  destruct (process_chunks_effects policy video_meta segments chunks i sc w)
    as (sc' & w' & evs & counts & sub & Hrun & Hocr & Hcap & Hincl & Hlen & _).
  rewrite Hrun. split; [exact Hocr|]. exists sub. repeat split; assumption.
Qed.



(** X9.  When the captioning request fails for the frame that every window
    of a video shows, the failure text becomes the carried caption: every
    entry the run appends has it as its visual section. *)
Theorem failed_caption_is_carried (policy : Indexer.add_policy)
    (video_meta : Ingest.video_metadata) (segments : list segment)
    (f : frame) (e : exn) (chunks : list window) (w : world frame) :
  (forall chunk, In chunk chunks -> keyframe_of video_meta chunk = Some f) ->
  caption_request f = Raised e ->
  exists added,
    Indexer.collection
      (db (snd (process_chunks policy video_meta segments 0 chunks
                  (initial_scene frame) w)))
    = (Indexer.collection (db w) ++ added)%list /\
    Forall (fun r => exists audio,
              Indexer.document r
              = final_text "Error analyzing image." (ocr_of readtext f) audio)
           added.
Proof.
  intros Hframes Hfail.
  apply (@process_chunks_still policy video_meta segments f
           "Error analyzing image." chunks Hframes 0 (initial_scene frame) w).
  left. split; [reflexivity|]. unfold caption_of. now rewrite Hfail.
Qed.

End Run.

(** A still video: white frames, a captioning that answers or fails, the
    banner LIVE on screen. *)
Definition still_frames (path : string) (t : Q) : option bool := Some true.

Definition banner (f : bool) : result (list string) := Returned ["LIVE"].

Definition two_segments : list segment :=
  [mkSegment 0 12 "Good evening."; mkSegment 12 30 "Ann is in Baku."].

Definition bulletin : Ingest.video_metadata :=
  Ingest.mkVideo "1a2b3c4d" "news.mp4" "/data/videos/news.mp4" 30.

Definition empty_world : world bool :=
  mkWorld (Indexer.mkStore [] [true] []) [] [].



Lemma failed_caption_is_carried_witness :
  exists added,
    Indexer.collection
      (db (snd (process_chunks flat_gray64 still_frames
                  (fun _ => Raised (Exception "timeout")) banner
                  (fun _ => []) Indexer.IgnoreExisting bulletin two_segments
                  0 [mkWindow 0 20; mkWindow 10 30] (initial_scene bool)
                  empty_world)))
    = (Indexer.collection (db empty_world) ++ added)%list /\
    Forall (fun r => exists audio,
              Indexer.document r
              = final_text "Error analyzing image."
                  (ocr_of banner true) audio) added.
Proof.
  apply (@failed_caption_is_carried bool flat_gray64 still_frames
           (fun _ => Raised (Exception "timeout")) banner (fun _ => [])
           Indexer.IgnoreExisting bulletin two_segments true
           (Exception "timeout") [mkWindow 0 20; mkWindow 10 30]
           empty_world);
    reflexivity.
Defined.

(** The run of that failing captioning, evaluated: one request, and the
    failure text in both entries. *)
Example failed_caption_run :
  let run :=
    process_chunks flat_gray64 still_frames
      (fun _ => Raised (Exception "timeout")) banner (fun _ => [])
      Indexer.IgnoreExisting bulletin two_segments 0
      [mkWindow 0 20; mkWindow 10 30] (initial_scene bool) empty_world in
  caption_calls (snd run) = [true] /\
  map Indexer.document (Indexer.collection (db (snd run)))
  = [ "[Visual Scene]: Error analyzing image. [On-Screen Text]: LIVE [Audio Transcript]: Good evening. Ann is in Baku.";
      "[Visual Scene]: Error analyzing image. [On-Screen Text]: LIVE [Audio Transcript]: Good evening. Ann is in Baku." ].
Proof. vm_compute. split; reflexivity. Qed.

End FusionFacts.

(* ================================================================== *)
(** ** frontend/streamlit_app.py: what the result page shows *)

Module Frontend.
Import Py.
Local Open Scope string_scope.

(** *** Strings as Python reads them *)

(** [hay.find(needle)], searched from the left; [pos] is the index of the
    first character of [hay] in the whole string. *)
Fixpoint find_from (needle hay : string) (pos : Z) : Z :=
  if prefix needle hay then pos
  else match hay with
       | EmptyString => (-1)%Z
       | String _ rest => find_from needle rest (pos + 1)
       end.

Definition find (needle hay : string) : Z := find_from needle hay 0.

(** [needle in hay] *)
Definition contains (needle hay : string) : bool := (0 <=? find needle hay)%Z.

(** A slice index brought into [0, len], as Python does. *)
Definition clamp_index (len i : Z) : Z :=
  if (i <? 0)%Z then Z.max 0 (i + len) else Z.min i len.

(** [s[a:b]], and [s[a:]] when [b] is [None]. *)
Definition slice (s : string) (a : Z) (b : option Z) : string :=
  let len := Z.of_nat (String.length s) in
  let lo := clamp_index len a in
  let hi := match b with Some b => clamp_index len b | None => len end in
  substring (Z.to_nat lo) (Z.to_nat (hi - lo)) s.

Definition len (s : string) : Z := Z.of_nat (String.length s).

(** *** VideoSearchApp.parse_context *)

Record parsed_context : Type :=
  mkParsed { visual : string; ocr : string; audio : string }.

Definition visual_marker : string := "[Visual Scene]:".
Definition ocr_marker : string := "[On-Screen Text]:".
Definition audio_marker : string := "[Audio Transcript]:".

(** None of the string operations in the [try] block can raise, so its
    [except] branch is never taken. *)
Definition parse_context (context_text : string) : parsed_context :=
  if contains visual_marker context_text
     && contains ocr_marker context_text
     && contains audio_marker context_text
  then
    let visual_start :=
      (find visual_marker context_text + len visual_marker)%Z in
    let ocr_start := find ocr_marker context_text in
    let audio_start := find audio_marker context_text in
    {| visual := strip (slice context_text visual_start (Some ocr_start));
       ocr := strip (slice context_text (ocr_start + len ocr_marker)
                       (Some audio_start));
       audio := strip (slice context_text (audio_start + len audio_marker)
                         None) |}
  else {| visual := EmptyString; ocr := EmptyString; audio := context_text |}.

Example parse_context_sample :
  parse_context
    "[Visual Scene]: A studio. [On-Screen Text]: LIVE [Audio Transcript]: Good evening."
  = mkParsed "A studio." "LIVE" "Good evening.".
Proof. vm_compute. reflexivity. Qed.

Example parse_context_unrecognised :
  parse_context "[Visual Scene]: A studio. no other label"
  = mkParsed "" "" "[Visual Scene]: A studio. no other label".
Proof. vm_compute. reflexivity. Qed.

(** A caption that quotes a later label moves the cut. *)
Example parse_context_label_in_caption :
  parse_context
    (Fusion.final_text "A slide reading [Audio Transcript]: here" "LIVE" "Hello")
  = mkParsed "A slide reading [Audio Transcript]: here" "" "here [On-Screen Text]: LIVE [Audio Transcript]: Hello".
Proof. vm_compute. reflexivity. Qed.

(** *** Searching in a concatenation *)

Lemma len_append (s t : string) : len (s ++ t) = (len s + len t)%Z.
Proof. unfold len. rewrite append_length. lia. Qed.

Lemma len_nonneg (s : string) : (0 <= len s)%Z.
Proof. unfold len. lia. Qed.

Lemma append_assoc (a b c : string) : (a ++ b) ++ c = a ++ (b ++ c).
Proof. induction a as [|x a IH]; simpl; [reflexivity|now rewrite IH]. Qed.

Lemma prefix_nil (m : string) : prefix m EmptyString = true -> m = EmptyString.
Proof. destruct m; [reflexivity|discriminate]. Qed.

Lemma prefix_cons (a b : ascii) (m hay : string) :
  prefix (String a m) (String b hay) = true <-> a = b /\ prefix m hay = true.
Proof.
  simpl. destruct (Ascii.ascii_dec a b) as [E|E]; split.
  - intro H. now split.
  - now intros [_ H].
  - discriminate.
  - intros [H _]. contradiction.
Qed.

(** A match of [m] at the head of [A ++ Y] lies in [A], or runs over the
    end of [A] with a part [m2] that heads [Y]. *)
Lemma prefix_app_cases (Y : string) (A : string) :
  forall m, prefix m (A ++ Y) = true ->
  prefix m A = true \/
  exists m2, m2 <> EmptyString /\ m = A ++ m2 /\ prefix m2 Y = true.
Proof.
  induction A as [|c A IH]; intros m H.
  - destruct m as [|d m]; [now left|].
    right. exists (String d m). repeat split; [discriminate|exact H].
  - destruct m as [|d m]; [now left|].
    change (prefix (String d m) (String c (A ++ Y)) = true) in H.
    apply prefix_cons in H. destruct H as [-> H].
    destruct (IH m H) as [Hin|(m2 & Hne & -> & Hm2)].
    + left. apply prefix_cons. now split.
    + right. exists m2. repeat split; assumption.
Qed.

(** Some suffix of [m] that is not empty heads [Y]. *)
Fixpoint hits (m Y : string) : bool :=
  match m with
  | EmptyString => false
  | String _ m' => prefix m Y || hits m' Y
  end.

(** A match of [m] could start before [Y] and end inside it. *)
Definition crosses (m Y : string) : bool :=
  match m with
  | EmptyString => false
  | String _ m' => hits m' Y
  end.

(** A match of [m] starts at some position of [X] in [X ++ Y]. *)
Fixpoint starts_within (m X Y : string) : bool :=
  match X with
  | EmptyString => false
  | String c X' => prefix m (String c X' ++ Y) || starts_within m X' Y
  end.

Lemma hits_suffix (Y m2 : string) (A : string) :
  m2 <> EmptyString -> prefix m2 Y = true -> hits (A ++ m2) Y = true.
Proof.
  intros Hne H. induction A as [|c A IH]; simpl.
  - destruct m2 as [|d m2]; [congruence|].
    cbn [hits]. now rewrite H.
  - rewrite IH. apply orb_true_r.
Qed.

Lemma find_from_range (m : string) (X : string) :
  forall p, (0 <= p)%Z ->
  find_from m X p = (-1)%Z \/ (p <= find_from m X p)%Z.
Proof.
  induction X as [|c X IH]; intros p Hp; cbn [find_from].
  - destruct (prefix m EmptyString); [right; lia|now left].
  - destruct (prefix m (String c X)); [right; lia|].
    destruct (IH (p + 1)%Z) as [H|H]; [lia|now left|right; lia].
Qed.

Lemma find_from_app (m Y : string) (X : string) :
  starts_within m X Y = false ->
  forall p, find_from m (X ++ Y) p = find_from m Y (p + len X)%Z.
Proof.
  induction X as [|c X IH]; intros Hno p.
  - simpl. f_equal. unfold len. simpl. lia.
  - cbn [starts_within] in Hno. apply orb_false_iff in Hno.
    destruct Hno as [Hhead Hrest].
    change (String c X ++ Y) with (String c (X ++ Y)) in *.
    cbn [find_from]. rewrite Hhead, (IH Hrest). f_equal.
    unfold len. cbn [String.length]. lia.
Qed.

(** Where [m] does not occur in [X] and cannot run over its end, no match
    starts in [X]. *)
Lemma absent_starts_within (m Y : string) (X : string) :
  crosses m Y = false ->
  forall p, (0 <= p)%Z -> find_from m X p = (-1)%Z ->
  starts_within m X Y = false.
Proof.
  intro Hcross. induction X as [|c X IH]; intros p Hp Hfind; [reflexivity|].
  cbn [find_from] in Hfind.
  destruct (prefix m (String c X)) eqn:Hpre; [lia|].
  cbn [starts_within]. rewrite (IH (p + 1)%Z) by (lia || assumption).
  rewrite orb_false_r.
  destruct (prefix m (String c X ++ Y)) eqn:Happ; [|reflexivity].
  apply prefix_app_cases in Happ.
  destruct Happ as [Hin|(m2 & Hne & -> & Hm2)]; [congruence|].
  exfalso. cbn [append crosses] in Hcross.
  now rewrite (@hits_suffix Y m2 X Hne Hm2) in Hcross.
Qed.

Lemma not_contains (m X : string) :
  contains m X = false -> find_from m X 0 = (-1)%Z.
Proof.
  unfold contains, find. intro H. apply Z.leb_gt in H.
  destruct (find_from_range m X (Z.le_refl 0)) as [E|E]; [exact E|lia].
Qed.

(** *** Slices of a concatenation *)

Lemma substring_skip (P S : string) (n : nat) :
  substring (String.length P) n (P ++ S) = substring 0 n S.
Proof. induction P as [|c P IH]; simpl; [reflexivity|exact IH]. Qed.

Lemma substring_head (M R : string) :
  substring 0 (String.length M) (M ++ R) = M.
Proof.
  induction M as [|c M IH]; simpl.
  - now destruct R.
  - now rewrite IH.
Qed.

Lemma substring_all (M : string) : substring 0 (String.length M) M = M.
Proof. induction M as [|c M IH]; simpl; [reflexivity|now rewrite IH]. Qed.

Lemma slice_between (P M R : string) (a b : Z) :
  a = len P -> b = (len P + len M)%Z ->
  slice (P ++ M ++ R) a (Some b) = M.
Proof.
  intros -> ->. unfold slice, clamp_index.
  fold (len (P ++ M ++ R)). rewrite !len_append.
  pose proof (len_nonneg P). pose proof (len_nonneg M).
  pose proof (len_nonneg R).
  destruct (Z.ltb_spec (len P) 0); [lia|].
  destruct (Z.ltb_spec (len P + len M) 0); [lia|].
  rewrite !Z.min_l by lia.
  replace (len P + len M - len P)%Z with (len M) by lia.
  unfold len. rewrite !Nat2Z.id, substring_skip. apply substring_head.
Qed.

Lemma slice_from (P M : string) (a : Z) :
  a = len P -> slice (P ++ M) a None = M.
Proof.
  intros ->. unfold slice, clamp_index.
  fold (len (P ++ M)). rewrite !len_append.
  pose proof (len_nonneg P). pose proof (len_nonneg M).
  destruct (Z.ltb_spec (len P) 0); [lia|].
  rewrite !Z.min_l by lia.
  replace (len P + len M - len P)%Z with (len M) by lia.
  unfold len. rewrite !Nat2Z.id, substring_skip. apply substring_all.
Qed.

(** *** Stripping what the labels are separated by *)

Lemma rstrip_append_space (x : string) : rstrip (x ++ " ") = rstrip x.
Proof.
  induction x as [|c x IH]; [reflexivity|].
  change (String c x ++ " ") with (String c (x ++ " ")).
  cbn [rstrip]. now rewrite IH.
Qed.

Lemma strip_append_space (x : string) : strip (x ++ " ") = strip x.
Proof.
  unfold strip. induction x as [|c x IH]; [reflexivity|].
  change (String c x ++ " ") with (String c (x ++ " ")).
  cbn [lstrip]. destruct (is_space c); [exact IH|].
  apply (rstrip_append_space (String c x)).
Qed.

Lemma strip_space_append (x : string) : strip (" " ++ x) = strip x.
Proof. reflexivity. Qed.

(** *** Reading back what the fusion engine wrote *)

Lemma find_visual (v o a : string) :
  find visual_marker (Fusion.final_text v o a) = 0%Z.
Proof. reflexivity. Qed.

Lemma find_ocr_label (rest : string) (p : Z) :
  find_from ocr_marker (" " ++ "[On-Screen Text]: " ++ rest) p = (p + 1)%Z.
Proof. reflexivity. Qed.

Lemma find_audio_label (rest : string) (p : Z) :
  find_from audio_marker (" " ++ "[Audio Transcript]: " ++ rest) p
  = (p + 1)%Z.
Proof. reflexivity. Qed.

Lemma find_ocr (v o a : string) :
  contains ocr_marker v = false ->
  find ocr_marker (Fusion.final_text v o a) = (17 + len v)%Z.
Proof.
  intro Hv. unfold find, Fusion.final_text.
  rewrite find_from_app by reflexivity.
  rewrite find_from_app.
  - rewrite find_ocr_label. change (len "[Visual Scene]: ") with 16%Z. lia.
  - apply absent_starts_within with (p := 0%Z);
      [reflexivity | lia | now apply not_contains].
Qed.

Lemma find_audio (v o a : string) :
  contains audio_marker v = false -> contains audio_marker o = false ->
  find audio_marker (Fusion.final_text v o a) = (36 + len v + len o)%Z.
Proof.
  intros Hv Ho. unfold find, Fusion.final_text.
  rewrite find_from_app by reflexivity.
  rewrite find_from_app.
  2:{ apply absent_starts_within with (p := 0%Z);
        [reflexivity | lia | now apply not_contains]. }
  change (" " ++ "[On-Screen Text]: " ++ o ++ " " ++ "[Audio Transcript]: " ++ a)
    with (" [On-Screen Text]: " ++ o ++ " " ++ "[Audio Transcript]: " ++ a).
  rewrite find_from_app by reflexivity.
  rewrite find_from_app.
  2:{ apply absent_starts_within with (p := 0%Z);
        [reflexivity | lia | now apply not_contains]. }
  rewrite find_audio_label.
  change (len "[Visual Scene]: ") with 16%Z.
  change (len " [On-Screen Text]: ") with 19%Z. lia.
Qed.

(** X10.  What the fusion engine wrote is read back: for a caption that
    contains neither the on-screen nor the audio label, and an on-screen
    text that does not contain the audio label, parsing the fused text
    gives the three signals back, stripped. *)
Theorem parse_context_reads_final_text (v o a : string) :
  contains ocr_marker v = false ->
  contains audio_marker v = false ->
  contains audio_marker o = false ->
  parse_context (Fusion.final_text v o a)
  = mkParsed (strip v) (strip o) (strip a).
Proof.
  intros Hov Hav Hao. unfold parse_context.
  pose proof (len_nonneg v) as Lv. pose proof (len_nonneg o) as Lo.
  pose proof (find_ocr v o a Hov) as Eo.
  pose proof (find_audio v o a Hav Hao) as Ea.
  unfold contains. rewrite find_visual, Eo, Ea.
  replace (0 <=? 0)%Z with true by reflexivity.
  replace (0 <=? 17 + len v)%Z with true by (symmetry; apply Z.leb_le; lia).
  replace (0 <=? 36 + len v + len o)%Z with true
    by (symmetry; apply Z.leb_le; lia).
  cbn [andb]. f_equal.
  - replace (Fusion.final_text v o a)
      with ("[Visual Scene]:" ++ (" " ++ v ++ " ")
            ++ ("[On-Screen Text]: " ++ o ++ " " ++ "[Audio Transcript]: " ++ a)).
    2:{ unfold Fusion.final_text. cbn [append]. now rewrite !append_assoc. }
    rewrite slice_between.
    + rewrite strip_space_append. apply strip_append_space.
    + reflexivity.
    + rewrite !len_append. change (len "[Visual Scene]:") with 15%Z.
      change (len " ") with 1%Z. unfold visual_marker. lia.
  - replace (Fusion.final_text v o a)
      with (("[Visual Scene]: " ++ v ++ " [On-Screen Text]:")
            ++ (" " ++ o ++ " ")
            ++ ("[Audio Transcript]: " ++ a)).
    2:{ unfold Fusion.final_text. cbn [append]. rewrite !append_assoc.
        cbn [append]. reflexivity. }
    rewrite slice_between.
    + rewrite strip_space_append. apply strip_append_space.
    + rewrite !len_append. change (len "[Visual Scene]: ") with 16%Z.
      change (len " [On-Screen Text]:") with 18%Z.
      change (len ocr_marker) with 17%Z. lia.
    + rewrite !len_append. change (len "[Visual Scene]: ") with 16%Z.
      change (len " [On-Screen Text]:") with 18%Z.
      change (len " ") with 1%Z. lia.
  - replace (Fusion.final_text v o a)
      with (("[Visual Scene]: " ++ v ++ " [On-Screen Text]: " ++ o
             ++ " [Audio Transcript]:")
            ++ (" " ++ a)).
    2:{ unfold Fusion.final_text. cbn [append]. rewrite !append_assoc.
        cbn [append]. rewrite !append_assoc. cbn [append]. reflexivity. }
    rewrite slice_from.
    + apply strip_space_append.
    + rewrite !len_append. change (len "[Visual Scene]: ") with 16%Z.
      change (len " [On-Screen Text]: ") with 19%Z.
      change (len " [Audio Transcript]:") with 20%Z.
      change (len audio_marker) with 19%Z. lia.
Qed.

Lemma parse_context_reads_final_text_witness :
  parse_context
    (Fusion.final_text "A studio, [LIVE] banner. " "LIVE  " " Good evening.")
  = mkParsed (strip "A studio, [LIVE] banner. ") (strip "LIVE  ")
             (strip " Good evening.").
Proof.
  apply (@parse_context_reads_final_text
           "A studio, [LIVE] banner. " "LIVE  " " Good evening.");
    vm_compute; reflexivity.
Defined.

(** *** VideoSearchApp.format_timestamp *)

(** [divmod(x, d)] for a positive divisor. *)
Definition divmod (x : Q) (d : Z) : Q * Q :=
  let q := inject_Z (Qfloor (x / inject_Z d)) in
  (q, (x - q * inject_Z d)%Q).

(** [int(x)]: towards zero. *)
Definition int_of (x : Q) : Z :=
  if Qlt_bool x 0 then Qceiling x else Qfloor x.

Definition int_str (n : Z) : string := NilZero.string_of_int (Z.to_int n).

(** The format [02d]: at least two characters, zeros on the left. *)
Definition fmt_02d (n : Z) : string :=
  let digits := int_str n in
  if (String.length digits <? 2)%nat then "0" ++ digits else digits.

Definition format_timestamp (seconds : Q) : string :=
  let (minutes, seconds) := divmod seconds 60 in
  fmt_02d (int_of minutes) ++ ":" ++ fmt_02d (int_of seconds).

Example format_timestamp_90 : format_timestamp 90 = "01:30".
Proof. vm_compute. reflexivity. Qed.

Example format_timestamp_fraction : format_timestamp (2555 # 100) = "00:25".
Proof. vm_compute. reflexivity. Qed.

Example format_timestamp_two_hours : format_timestamp 7265 = "121:05".
Proof. vm_compute. reflexivity. Qed.







End Frontend.

(* ================================================================== *)
(** ** More on the ingestion: which files become videos *)

Module IngestFacts.
Import Py.
Import Ingest.
Local Open Scope string_scope.

Section Folder.

Variable capture : string -> media.








End Folder.

(** Three files, the second unreadable, the third without frame rate. *)
Example ingest_videos_skips_unreadable :
  let capture path :=
    if String.eqb path "/v/b.mp4" then mkMedia false 0 0
    else if String.eqb path "/v/c.mp4" then mkMedia true 0 1200
    else mkMedia true 25 1234 in
  let r := mkRng (fun n => nat_str n ++ "f2a9c1e-5b7d-4e6f-8a1b-0c2d4e6f8a1b")
                 0 in
  ingested capture ["/v/a.mp4"; "/v/b.mp4"; "/v/c.mp4"] r
  = [ mkVideo "0f2a9c1e" "a.mp4" "/v/a.mp4" (1234 # 25);
      mkVideo "1f2a9c1e" "c.mp4" "/v/c.mp4" 0 ].
Proof. vm_compute. reflexivity. Qed.

End IngestFacts.

(* ================================================================== *)
(** ** The identities of the windows of a video *)

Module WindowIds.
Import Py.
Import Windowing.
Local Open Scope string_scope.

(** The decimal numeral of a natural number, as [float_str] writes the
    whole part. *)
Definition dec (n : N) : string := NilZero.string_of_uint (N.to_uint n).

Fixpoint has_char (c : ascii) (s : string) : bool :=
  match s with
  | EmptyString => false
  | String c' s' => Ascii.eqb c' c || has_char c s'
  end.

Lemma append_inv_head (a : string) :
  forall x y : string, a ++ x = a ++ y -> x = y.
Proof.
  induction a as [|c a IH]; intros x y H; [exact H|].
  simpl in H. inversion H. now apply IH.
Qed.

(** Two texts that agree, each cut at the first occurrence of [c]. *)
Lemma split_at_char (c : ascii) :
  forall d1 d2 r1 r2 : string,
    has_char c d1 = false -> has_char c d2 = false ->
    d1 ++ String c r1 = d2 ++ String c r2 -> d1 = d2 /\ r1 = r2.
Proof.
  induction d1 as [|x d1 IH]; intros [|y d2] r1 r2 H1 H2 H; simpl in *.
  - inversion H. now split.
  - inversion H; subst. rewrite Ascii.eqb_refl in H2. discriminate.
  - inversion H; subst. rewrite Ascii.eqb_refl in H1. discriminate.
  - inversion H; subst.
    apply orb_false_iff in H1. apply orb_false_iff in H2.
    destruct (IH d2 r1 r2) as [-> ->]; [tauto|tauto|assumption|now split].
Qed.

Lemma uint_no_dot (d : Decimal.uint) :
  has_char "." (NilEmpty.string_of_uint d) = false.
Proof. induction d; simpl; first [assumption | reflexivity]. Qed.

Lemma dec_no_dot (n : N) : has_char "." (dec n) = false.
Proof.
  unfold dec, NilZero.string_of_uint.
  destruct (N.to_uint n) eqn:E; try (rewrite <- E; apply uint_no_dot).
  reflexivity.
Qed.

Lemma to_uint_not_nil (n : N) : N.to_uint n <> Decimal.Nil.
Proof.
  intro H. pose proof (DecimalN.Unsigned.of_to n) as E. rewrite H in E.
  simpl in E. subst n. discriminate H.
Qed.

Lemma dec_inj (n m : N) : dec n = dec m -> n = m.
Proof.
  intro H. apply (f_equal NilZero.uint_of_string) in H. unfold dec in H.
  rewrite !NilZero.usu in H by apply to_uint_not_nil.
  inversion H as [E]. now apply DecimalN.Unsigned.to_uint_inj.
Qed.

Lemma float_str_comp (p q : Q) : (p == q)%Q -> float_str p = float_str q.
Proof.
  intro H. unfold float_str.
  assert (E : Qfloor (p * 100) = Qfloor (q * 100))
    by (apply Qfloor_comp; rewrite H; reflexivity).
  now rewrite E.
Qed.

(** A whole number of seconds is written with one zero after the point. *)
Lemma float_str_whole (k : Z) :
  (0 <= k)%Z -> float_str (inject_Z k) = dec (Z.to_N k) ++ ".0".
Proof.
  intro Hk. unfold float_str.
  assert (E : Qfloor (inject_Z k * 100) = (k * 100)%Z).
  { rewrite <- (Qfloor_Z (k * 100)). apply Qfloor_comp.
    rewrite inject_Z_mult. reflexivity. }
  rewrite E.
  replace (k * 100 <? 0)%Z with false by (symmetry; apply Z.ltb_ge; lia).
  rewrite Z.abs_eq by lia.
  rewrite Z.div_mul by lia.
  rewrite Z.mod_mul by lia.
  replace (k * 100 mod 10)%Z with 0%Z
    by (symmetry; replace (k * 100)%Z with (k * 10 * 10)%Z by lia;
        apply Z.mod_mul; lia).
  reflexivity.
Qed.

(** The identities of two windows of one video that start at different
    whole seconds differ. *)
Lemma chunk_id_start_inj (video_id : string) (s1 e1 s2 e2 : Q) (k1 k2 : Z) :
  (0 <= k1)%Z -> (0 <= k2)%Z ->
  (s1 == inject_Z k1)%Q -> (s2 == inject_Z k2)%Q ->
  Indexer.chunk_id_of video_id s1 e1 = Indexer.chunk_id_of video_id s2 e2 ->
  k1 = k2.
Proof.
  intros H1 H2 E1 E2 H. unfold Indexer.chunk_id_of in H.
  apply append_inv_head in H. simpl in H. inversion H as [H'].
  rewrite (float_str_comp E1), (float_str_comp E2) in H'.
  rewrite !float_str_whole in H' by assumption.
  rewrite !Frontend.append_assoc in H'.
  apply split_at_char in H'; try apply dec_no_dot.
  destruct H' as [H' _]. apply dec_inj in H'. lia.
Qed.

Lemma chunk_ids_nodup (v : Ingest.video_metadata) (D : Q) :
  NoDup (map (FusionFacts.id_of v) (Fusion.chunks_of D)).
Proof.
  pose proof (PipelineFacts.chunks_of_emits D) as Hrun.
  assert (H0 : (0 == inject_Z 0)%Q) by reflexivity.
  pose proof (@emits_starts D 20 10 0%Q _ Hrun 0%Z H0) as Hstarts.
  apply NoDup_nth_error. intros i j Hi Hij.
  rewrite length_map in Hi.
  rewrite !nth_error_map in Hij.
  destruct (nth_error (Fusion.chunks_of D) i) as [wi|] eqn:Ei.
  2:{ apply nth_error_None in Ei. lia. }
  destruct (nth_error (Fusion.chunks_of D) j) as [wj|] eqn:Ej;
    [|discriminate].
  simpl in Hij. inversion Hij as [Hid].
  pose proof (Hstarts i wi Ei) as Si. pose proof (Hstarts j wj Ej) as Sj.
  assert (E : (Z.of_nat i * 10 = Z.of_nat j * 10)%Z).
  { apply (@chunk_id_start_inj (Ingest.video_id v) (start wi) (end_ wi)
             (start wj) (end_ wj)); try lia; try assumption.
    - rewrite Si. ring.
    - rewrite Sj. ring. }
  lia.
Qed.

(** X13.  The windows the pipeline cuts for a video start at 0, 10, 20, ...
    seconds, and no two of them share an identity, whatever the duration
    and the video identifier. *)
Theorem window_identities_distinct (v : Ingest.video_metadata) (D : Q) :
  NoDup (map (FusionFacts.id_of v) (Fusion.chunks_of D)) /\
  forall i w, nth_error (Fusion.chunks_of D) i = Some w ->
              (start w == inject_Z (Z.of_nat i * 10))%Q.
Proof.
  split; [apply chunk_ids_nodup|].
  intros i w Hi.
  assert (H0 : (0 == inject_Z 0)%Q) by reflexivity.
  rewrite (@emits_starts D 20 10 0%Q _ (PipelineFacts.chunks_of_emits D)
             0%Z H0 i w Hi).
  ring.
Qed.

Example window_identities_of_45_seconds :
  map (FusionFacts.id_of FusionFacts.bulletin) (Fusion.chunks_of 45)
  = ["1a2b3c4d_0.0_20.0"; "1a2b3c4d_10.0_30.0"; "1a2b3c4d_20.0_40.0";
     "1a2b3c4d_30.0_45.0"].
Proof. vm_compute. reflexivity. Qed.

End WindowIds.

(* ================================================================== *)
(** ** app/process_videos.py: the batch script *)

Module Batch.
Import Py.
Import Windowing.
Import Fusion.
Local Open Scope string_scope.
Local Open Scope py_scope.

Section Main.

Variable frame : Type.
Variable gray64 : frame -> list Z.
Variable capture : string -> Ingest.media.
Variable extract_frame_at_time : string -> Q -> option frame.
Variable caption_request : frame -> result string.
Variable readtext : frame -> result (list string).
Variable nlp_ents : string -> list (string * string).
Variable extract_audio : string -> option string.
Variable transcribe_audio : string -> option (list segment).

Local Abbreviation process_chunk :=
  (Fusion.process_chunk gray64 extract_frame_at_time caption_request readtext
     nlp_ents).
Local Abbreviation process_chunks :=
  (Fusion.process_chunks gray64 extract_frame_at_time caption_request
     readtext nlp_ents).
Local Abbreviation process_single_video :=
  (Fusion.process_single_video gray64 extract_frame_at_time caption_request
     readtext nlp_ents extract_audio transcribe_audio).

(** The state of the batch script: the source of UUIDs, and the store with
    the engines. *)
Record process : Type :=
  mkProcess { random : Ingest.rng; engines : world frame }.

Definition put_random (r : Ingest.rng) (p : process) : process :=
  mkProcess r (engines p).

Definition put_engines (w : world frame) (p : process) : process :=
  mkProcess (random p) w.

(** The loop [for video in videos] of [main], each video in its own
    [try]; the messages printed are left out. *)
Fixpoint process_videos (policy : Indexer.add_policy)
    (videos : list Ingest.video_metadata) : M (world frame) unit :=
  match videos with
  | [] => ret tt
  | video :: rest =>
    try_except (process_single_video policy video) (fun _ => ret tt) ;;;
    process_videos policy rest
  end.

(** [main], on the listing [video_files] of the video folder. *)
Definition main (policy : Indexer.add_policy) (video_files : list string)
  : M process unit :=
  videos <- zoom random put_random
              (Ingest.ingest_videos capture video_files) ;;
  match videos with
  | [] => ret tt
  | _ :: _ => zoom engines put_engines (process_videos policy videos)
  end.

(** An entry as the pipeline commits it for the window [chunk] of the
    video [v]. *)
Definition committed_as (v : Ingest.video_metadata) (chunk : window)
    (r : Indexer.entry) : Prop :=
  Indexer.entry_id r
  = Indexer.chunk_id_of (Ingest.video_id v) (start chunk) (end_ chunk) /\
  three_sections (Indexer.document r) /\
  IndexerFacts.dict_get (Indexer.metadata_of r) "filename"
  = Some (Indexer.VStr (Ingest.filename v)) /\
  IndexerFacts.dict_get (Indexer.metadata_of r) "video_id"
  = Some (Indexer.VStr (Ingest.video_id v)) /\
  IndexerFacts.dict_get (Indexer.metadata_of r) "start_time"
  = Some (Indexer.VNum (start chunk)) /\
  IndexerFacts.dict_get (Indexer.metadata_of r) "end_time"
  = Some (Indexer.VNum (end_ chunk)).

Definition ids_distinct (w : world frame) : Prop :=
  NoDup (map Indexer.entry_id (Indexer.collection (db w))).

(** One window: the store grows by at most the entry of that window. *)
Lemma process_chunk_entry (policy : Indexer.add_policy)
    (v : Ingest.video_metadata) (segments : list segment)
    (i : nat) (chunk : window) (sc : scene_state frame) (w : world frame) :
  exists sc' w' added,
    process_chunk policy v segments i chunk sc w = (Returned sc', w') /\
    Indexer.collection (db w')
    = (Indexer.collection (db w) ++ added)%list /\
    Forall (committed_as v chunk) added /\
    (ids_distinct w -> ids_distinct w').
Proof.
  destruct (visual_context_returns gray64 caption_request readtext i sc
              (extract_frame_at_time (Ingest.file_path v)
                 ((start chunk + end_ chunk) / 2)%Q) w)
    as (vc & ot & sc' & wv & Hv).
  assert (Hdb : db wv = db w).
  { destruct (extract_frame_at_time _ _) as [f|].
    - rewrite visual_context_keyframe in Hv. cbv zeta in Hv.
      inversion Hv; subst. reflexivity.
    - inversion Hv; subst. reflexivity. }
  unfold Fusion.process_chunk. unfold bind at 1. rewrite Hv.
  unfold bind. rewrite commit_run. cbn [fst snd].
  match goal with
  | |- context [Indexer.add_chunk_to_db _ _ _ _ ?text ?md _] =>
    destruct (IndexerFacts.add_attempts_appends_entry policy
                Indexer.max_retries text
                (Indexer.stamped md (Ingest.video_id v) (start chunk)
                   (end_ chunk))
                (Indexer.chunk_id_of (Ingest.video_id v) (start chunk)
                   (end_ chunk))
                (seq 0 Indexer.max_retries) (db wv))
      as (added & Hc & Hadded);
      change (Indexer.collection
                (snd (Indexer.add_chunk_to_db policy (Ingest.video_id v)
                        (start chunk) (end_ chunk) text md (db wv)))
              = (Indexer.collection (db wv) ++ added)%list) in Hc
  end.
  do 2 eexists. exists added. split; [reflexivity|].
  unfold ids_distinct. cbn [put_db db]. rewrite Hc, Hdb.
  split; [reflexivity|].
  destruct Hadded as [->|[Hnew ->]].
  - split; [constructor|]. now rewrite app_nil_r.
  - split.
    + constructor; [|constructor]. unfold committed_as.
      cbn [Indexer.entry_id Indexer.document Indexer.metadata_of].
      split; [reflexivity|]. split; [apply final_text_sections|].
      unfold Indexer.stamped.
      rewrite !IndexerFacts.dict_get_set_same.
      rewrite !(@IndexerFacts.dict_get_set_other _ "end_time" "start_time")
        by discriminate.
      rewrite !(@IndexerFacts.dict_get_set_other _ "end_time" "video_id")
        by discriminate.
      rewrite !(@IndexerFacts.dict_get_set_other _ "start_time" "video_id")
        by discriminate.
      rewrite !(@IndexerFacts.dict_get_set_other _ "end_time" "filename")
        by discriminate.
      rewrite !(@IndexerFacts.dict_get_set_other _ "start_time" "filename")
        by discriminate.
      rewrite !IndexerFacts.dict_get_set_same.
      rewrite !(@IndexerFacts.dict_get_set_other _ "video_id" "filename")
        by discriminate.
      repeat split; reflexivity.
    + intro Hnd. rewrite Hdb in Hnew. apply IndexerFacts.has_id_In in Hnew.
      rewrite map_app. simpl.
      apply NoDup_app; [exact Hnd|repeat constructor; tauto|].
      intros x Hx [<-|[]]. contradiction.
Qed.

Lemma process_chunks_entries (policy : Indexer.add_policy)
    (v : Ingest.video_metadata) (segments : list segment)
    (chunks : list window) :
  forall i sc w, exists sc' w' added,
    process_chunks policy v segments i chunks sc w = (Returned sc', w') /\
    Indexer.collection (db w')
    = (Indexer.collection (db w) ++ added)%list /\
    Forall (fun r => exists chunk, In chunk chunks /\ committed_as v chunk r)
           added /\
    (ids_distinct w -> ids_distinct w').
Proof.
  induction chunks as [|chunk rest IH]; intros i sc w.
  - exists sc, w, []. simpl. rewrite app_nil_r.
    repeat split; [constructor|tauto].
  - cbn [Fusion.process_chunks]. unfold bind.
    destruct (process_chunk_entry policy v segments i chunk sc w)
      as (sc1 & w1 & new & Hrun & Hc1 & Hnew & Hnd1).
    rewrite Hrun.
    destruct (IH (S i) sc1 w1) as (sc' & w' & added & Hrest & Hc & Hall & Hnd).
    exists sc', w', (new ++ added)%list.
    split; [exact Hrest|].
    split; [rewrite Hc, Hc1; now rewrite <- app_assoc|].
    split; [|tauto].
    apply Forall_app. split.
    + eapply Forall_impl; [|exact Hnew].
      intros r Hr. exists chunk. split; [now left|exact Hr].
    + eapply Forall_impl; [|exact Hall].
      intros r (c & Hin & Hr). exists c. split; [now right|exact Hr].
Qed.

(** An entry of one of the windows of the video [v]. *)
Definition entry_of (v : Ingest.video_metadata) (r : Indexer.entry) : Prop :=
  exists chunk,
    In chunk (chunks_of (Ingest.duration_seconds v)) /\ committed_as v chunk r.

Lemma process_single_video_entries (policy : Indexer.add_policy)
    (v : Ingest.video_metadata) (w : world frame) :
  exists w' added,
    process_single_video policy v w = (Returned tt, w') /\
    Indexer.collection (db w')
    = (Indexer.collection (db w) ++ added)%list /\
    Forall (entry_of v) added /\
    (ids_distinct w -> ids_distinct w').
Proof.
  assert (Hskip : exists w' added,
             (Returned tt, w) = (Returned tt, w') /\
             Indexer.collection (db w')
             = (Indexer.collection (db w) ++ added)%list /\
             Forall (entry_of v) added /\
             (ids_distinct w -> ids_distinct w')).
  { exists w, []. rewrite app_nil_r. repeat split; [constructor|tauto]. }
  unfold Fusion.process_single_video.
  destruct (extract_audio _) as [audio_path|]; [|exact Hskip].
  destruct (transcribe_audio audio_path) as [[|seg segments]|];
    try exact Hskip.
  unfold bind.
  destruct (process_chunks_entries policy v (seg :: segments)
              (chunks_of (Ingest.duration_seconds v)) 0 (initial_scene frame)
              w)
    as (sc' & w' & added & Hrun & Hc & Hall & Hnd).
  rewrite Hrun. exists w', added. repeat split; assumption.
Qed.

Lemma process_videos_entries (policy : Indexer.add_policy)
    (videos : list Ingest.video_metadata) :
  forall w, exists w' added,
    process_videos policy videos w = (Returned tt, w') /\
    Indexer.collection (db w')
    = (Indexer.collection (db w) ++ added)%list /\
    Forall (fun r => exists v, In v videos /\ entry_of v r) added /\
    (ids_distinct w -> ids_distinct w').
Proof.
  induction videos as [|v rest IH]; intro w.
  - exists w, []. simpl. rewrite app_nil_r.
    repeat split; [constructor|tauto].
  - cbn [process_videos]. unfold bind, try_except.
    destruct (process_single_video_entries policy v w)
      as (w1 & new & Hrun & Hc1 & Hnew & Hnd1).
    rewrite Hrun.
    destruct (IH w1) as (w' & added & Hrest & Hc & Hall & Hnd).
    exists w', (new ++ added)%list.
    split; [exact Hrest|].
    split; [rewrite Hc, Hc1; now rewrite <- app_assoc|].
    split; [|tauto].
    apply Forall_app. split.
    + eapply Forall_impl; [|exact Hnew].
      intros r Hr. exists v. split; [now left|exact Hr].
    + eapply Forall_impl; [|exact Hall].
      intros r (v' & Hin & Hr). exists v'. split; [now right|exact Hr].
Qed.

(** *** A store that answers every call *)






(** X15.  The batch script returns normally, whatever the captioning and
    the text recognition answer and however often the store fails.  It
    leaves every entry that was stored
    where it was and only appends: each new entry belongs to a window of
    one of the videos just ingested, under that window's identity, with
    the three labelled sections as its text and the file name, video id
    and the two times of the window in its metadata.  Identities that were
    pairwise distinct before the run are pairwise distinct after it. *)
Theorem main_only_appends (policy : Indexer.add_policy)
    (video_files : list string) (p : process) :
  let run := main policy video_files p in
  let videos := Ingest.ingested capture video_files (random p) in
  exists added,
    fst run = Returned tt /\
    Indexer.collection (db (engines (snd run)))
    = (Indexer.collection (db (engines p)) ++ added)%list /\
    Forall (fun r => exists v, In v videos /\ entry_of v r) added /\
    (ids_distinct (engines p) -> ids_distinct (engines (snd run))).
Proof.
  intros run videos. subst run videos. unfold main, bind, zoom.
  rewrite Ingest.ingested_fresh.
  pose proof (Ingest.ingest_loop_fresh capture video_files [] (random p))
    as Hing.
  unfold Ingest.ingest_videos.
  destruct (Ingest.ingest_loop capture video_files [] (random p))
    as [res r'].
  cbn [fst] in Hing. subst res. cbn [app].
  destruct (Ingest.fresh_videos capture video_files (random p))
    as [|v rest] eqn:Evs.
  - exists []. cbn [fst snd engines put_random]. rewrite app_nil_r.
    repeat split; [constructor|tauto].
  - destruct (process_videos_entries policy (v :: rest)
                (engines (put_random r' p)))
      as (w' & added & Hrun & Hc & Hall & Hnd).
    rewrite Hrun. exists added. cbn [fst snd engines put_engines].
    cbn [engines put_random] in Hc, Hnd.
    repeat split; assumption.
Qed.

End Main.


End Batch.

(* ================================================================== *)
(** ** app/services/audio_service.py: extraction and transcription *)

Module Audio.
Import Py.
Local Open Scope string_scope.
Local Open Scope py_scope.

(** *** Paths as [os.path] reads them *)

(** [s.rfind(c)] for a character: the index of its last occurrence, or
    -1.  [pos] is the index of the first character of [s] in the whole
    string and [last] the answer so far. *)
Fixpoint rfind_from (c : ascii) (s : string) (pos last : Z) : Z :=
  match s with
  | EmptyString => last
  | String x rest =>
    rfind_from c rest (pos + 1) (if Ascii.eqb x c then pos else last)
  end.

Definition rfind (c : ascii) (s : string) : Z := rfind_from c s 0 (-1).

(** Whether [p[lo:hi]] has a character other than [c]. *)
Definition other_than (c : ascii) (p : string) (lo hi : Z) : bool :=
  existsb (fun x => negb (Ascii.eqb x c))
    (list_ascii_of_string (substring (Z.to_nat lo) (Z.to_nat (hi - lo)) p)).

(** [os.path.splitext]: the extension starts at the last dot of the last
    component, unless that component has only dots before it. *)
Definition splitext (p : string) : string * string :=
  let sepIndex := rfind "/" p in
  let dotIndex := rfind "." p in
  if (sepIndex <? dotIndex)%Z && other_than "." p (sepIndex + 1) dotIndex
  then (substring 0 (Z.to_nat dotIndex) p,
        substring (Z.to_nat dotIndex) (String.length p) p)
  else (p, EmptyString).

Definition starts_with_sep (b : string) : bool :=
  match b with
  | String c _ => Ascii.eqb c "/"
  | EmptyString => false
  end.

Fixpoint ends_with_sep (a : string) : bool :=
  match a with
  | EmptyString => false
  | String c EmptyString => Ascii.eqb c "/"
  | String _ rest => ends_with_sep rest
  end.

(** [os.path.join(a, b)] *)
Definition path_join (a b : string) : string :=
  if starts_with_sep b then b
  else match a with
       | EmptyString => b
       | _ => if ends_with_sep a then a ++ b else a ++ "/" ++ b
       end.

Lemma rfind_from_absent (c : ascii) (s : string) :
  forall pos last,
    WindowIds.has_char c s = false -> rfind_from c s pos last = last.
Proof.
  induction s as [|x s IH]; intros pos last H; simpl in *; [reflexivity|].
  apply orb_false_iff in H. destruct H as [Hx Hs].
  rewrite Hx. now apply IH.
Qed.

Lemma rfind_from_last (c : ascii) (e : string) (s : string) :
  forall pos last,
    WindowIds.has_char c e = false ->
    rfind_from c (s ++ String c e) pos last
    = (pos + Z.of_nat (String.length s))%Z.
Proof.
  induction s as [|x s IH]; intros pos last H; simpl rfind_from.
  - rewrite Ascii.eqb_refl, rfind_from_absent by exact H. simpl. lia.
  - rewrite IH by exact H. simpl String.length. lia.
Qed.

Lemma has_char_append (c : ascii) (a b : string) :
  WindowIds.has_char c (a ++ b)
  = WindowIds.has_char c a || WindowIds.has_char c b.
Proof.
  induction a as [|x a IH]; simpl; [reflexivity|].
  now rewrite IH, orb_assoc.
Qed.

Lemma substring_whole (t : string) :
  forall n, (String.length t <= n)%nat -> substring 0 n t = t.
Proof.
  induction t as [|c t IH]; intros [|n] H; simpl in *; try reflexivity;
    try lia.
  rewrite IH by lia. reflexivity.
Qed.

Lemma basename_from_plain (name : string) :
  forall acc, WindowIds.has_char "/" name = false ->
              Ingest.basename_from acc name = acc ++ name.
Proof.
  induction name as [|c name IH]; intros acc H; simpl in *.
  - clear H. induction acc as [|x acc IHa]; simpl; [reflexivity|].
    now rewrite <- IHa.
  - apply orb_false_iff in H. destruct H as [Hc Hn].
    rewrite Hc, IH by exact Hn. now rewrite Frontend.append_assoc.
Qed.

Lemma basename_of_joined (name : string) (dir : string) :
  forall acc, WindowIds.has_char "/" name = false ->
              Ingest.basename_from acc (dir ++ "/" ++ name) = name.
Proof.
  induction dir as [|c dir IH]; intros acc H.
  - simpl. now rewrite basename_from_plain.
  - simpl. destruct (Ascii.eqb c "/"); now apply IH.
Qed.

(** The extension of a file name whose stem does not start with a dot. *)
Lemma splitext_stem (c : ascii) (stem e : string) :
  Ascii.eqb c "." = false ->
  WindowIds.has_char "/" (String c stem) = false ->
  WindowIds.has_char "/" e = false -> WindowIds.has_char "." e = false ->
  splitext (String c stem ++ "." ++ e) = (String c stem, "." ++ e).
Proof.
  intros Hc Hstem Hes Hed. unfold splitext, rfind.
  assert (Hsep : rfind_from "/" (String c stem ++ "." ++ e) 0 (-1) = (-1)%Z).
  { apply rfind_from_absent. rewrite has_char_append, Hstem. simpl.
    exact Hes. }
  assert (Hdot : rfind_from "." (String c stem ++ "." ++ e) 0 (-1)
                 = Z.of_nat (String.length (String c stem))).
  { change ("." ++ e) with (String "." e).
    rewrite rfind_from_last by exact Hed. lia. }
  rewrite Hsep, Hdot. rewrite Nat2Z.id.
  replace (-1 <? Z.of_nat (String.length (String c stem)))%Z with true
    by (symmetry; apply Z.ltb_lt; lia).
  unfold other_than.
  replace (Z.to_nat (Z.of_nat (String.length (String c stem)) - (-1 + 1)))
    with (String.length (String c stem)) by lia.
  change (Z.to_nat (-1 + 1)) with 0%nat.
  rewrite Frontend.substring_head.
  cbn [list_ascii_of_string existsb]. rewrite Hc. cbn [negb orb andb].
  rewrite Frontend.substring_skip, substring_whole;
    [reflexivity|simpl; rewrite !append_length; simpl; lia].
Qed.

Lemma ends_with_sep_append (a : string) (c : ascii) (b : string) :
  ends_with_sep (a ++ String c b) = ends_with_sep (String c b).
Proof.
  induction a as [|x a IH]; [reflexivity|].
  change (String x a ++ String c b) with (String x (a ++ String c b)).
  cbn [ends_with_sep]. destruct (a ++ String c b) eqn:E; [|exact IH].
  destruct a; discriminate E.
Qed.

Lemma path_join_plain (a b : string) :
  a <> EmptyString -> ends_with_sep a = false -> starts_with_sep b = false ->
  path_join a b = a ++ "/" ++ b.
Proof.
  intros Hne Hend Hs. unfold path_join. rewrite Hs, Hend.
  destruct a; [congruence|reflexivity].
Qed.

(** *** The service *)

(** What the audio service sees and does: the files that exist, the
    videos handed to the extraction and the audio files sent to the
    transcription. *)
Record disk : Type :=
  mkDisk { files : list string; extracted : list string;
           transcribed : list string }.

(** How writing an audio file ends: it was written, or the call raised
    and may have left a file behind. *)
Inductive outcome : Type :=
| Written
| Failed (e : exn) (left_behind : bool).

Section Service.

(** [Config.DATA_DIR], the extraction ([VideoFileClip] and
    [write_audiofile]) for a video and an audio path, the request to the
    transcription model for an audio path, and whether deleting a file is
    refused with a [PermissionError]. *)
Variable DATA_DIR : string.
Variable write_audiofile : string -> string -> outcome.
Variable transcriptions_create : string -> result (list Fusion.segment).
Variable remove_denied : string -> bool.

Definition TEMP_AUDIO_DIR : string := path_join DATA_DIR "temp_audio".

Definition path_exists (path : string) : M disk bool :=
  fun d => (Returned (existsb (String.eqb path) (files d)), d).

Definition write (video_path audio_path : string) : M disk unit :=
  fun d =>
    match write_audiofile video_path audio_path with
    | Written =>
      (Returned tt,
       mkDisk (files d ++ [audio_path]) (extracted d ++ [video_path])
              (transcribed d))
    | Failed e left_behind =>
      (Raised e,
       mkDisk (if left_behind then files d ++ [audio_path] else files d)
              (extracted d ++ [video_path]) (transcribed d))
    end.

(** The path the audio of a video is stored under. *)
Definition audio_path_of (video_path : string) : string :=
  let video_filename := Ingest.basename video_path in
  let base_name := fst (splitext video_filename) in
  let audio_filename := base_name ++ ".mp3" in
  path_join TEMP_AUDIO_DIR audio_filename.

(** [extract_audio]; the messages printed are left out. *)
Definition extract_audio (video_path : string) : M disk (option string) :=
  try_except
    (let audio_path := audio_path_of video_path in
     present <- path_exists audio_path ;;
     if present then ret (Some audio_path)
     else
       write video_path audio_path ;;;
       ret (Some audio_path))
    (fun _ => ret None).

Definition send_audio (audio_path : string) : M disk (list Fusion.segment) :=
  fun d =>
    (transcriptions_create audio_path,
     mkDisk (files d) (extracted d) (transcribed d ++ [audio_path])).

(** [transcribe_audio] *)
Definition transcribe_audio (audio_path : string)
  : M disk (option (list Fusion.segment)) :=
  present <- path_exists audio_path ;;
  if negb present then ret None
  else
    try_except
      (segments <- send_audio audio_path ;;
       ret (Some segments))
      (fun _ => ret None).

(** [os.remove(path)] *)
Definition remove (path : string) : M disk unit :=
  fun d =>
    if remove_denied path
    then (Raised (Exception "PermissionError"), d)
    else (Returned tt,
          mkDisk (filter (fun p => negb (String.eqb path p)) (files d))
                 (extracted d) (transcribed d)).

(** Step 1 of [process_single_video]: the audio of the video is
    extracted, transcribed and deleted; the result is [segments]. *)
Definition audio_processing (video_path : string)
  : M disk (option (list Fusion.segment)) :=
  audio_path <- extract_audio video_path ;;
  match audio_path with
  | None | Some EmptyString => ret None
  | Some audio_path =>
    segments <- transcribe_audio audio_path ;;
    still_there <- path_exists audio_path ;;
    (if still_there
     then try_except (remove audio_path) (fun _ => ret tt)
     else ret tt) ;;;
    ret segments
  end.

Definition present (path : string) (d : disk) : bool :=
  existsb (String.eqb path) (files d).

Lemma present_appended (path : string) (l : list string) :
  existsb (String.eqb path) (l ++ [path]) = true.
Proof.
  rewrite existsb_app. simpl. rewrite String.eqb_refl.
  now rewrite orb_true_r.
Qed.

Lemma extract_audio_hit (video_path : string) (d : disk) :
  present (audio_path_of video_path) d = true ->
  extract_audio video_path d = (Returned (Some (audio_path_of video_path)), d).
Proof.
  intro H. unfold extract_audio, try_except, bind, path_exists.
  unfold present in H. now rewrite H.
Qed.

Lemma extract_audio_miss (video_path : string) (d : disk) :
  present (audio_path_of video_path) d = false ->
  extract_audio video_path d
  = match write_audiofile video_path (audio_path_of video_path) with
    | Written =>
      (Returned (Some (audio_path_of video_path)),
       mkDisk (files d ++ [audio_path_of video_path])
              (extracted d ++ [video_path]) (transcribed d))
    | Failed _ left_behind =>
      (Returned None,
       mkDisk (if left_behind then files d ++ [audio_path_of video_path]
               else files d)
              (extracted d ++ [video_path]) (transcribed d))
    end.
Proof.
  intro H. unfold extract_audio, try_except, bind, path_exists, write.
  unfold present in H. rewrite H.
  destruct (write_audiofile video_path (audio_path_of video_path));
    reflexivity.
Qed.

(** X16.  The audio extraction never raises: it returns the audio path of
    the video or nothing.  When the audio file already exists it returns
    its path and touches nothing, the video included; otherwise it runs
    the extraction once.  A path it returns exists afterwards, so that
    asking again returns the same path without extracting again. *)
Theorem extract_audio_cached (video_path : string) (d : disk) :
  let audio_path := audio_path_of video_path in
  let run := extract_audio video_path d in
  (fst run = Returned (Some audio_path) \/ fst run = Returned None) /\
  (if present audio_path d
   then run = (Returned (Some audio_path), d)
   else files (snd run) = files d
        \/ files (snd run) = (files d ++ [audio_path])%list) /\
  extracted (snd run)
  = (extracted d ++ if present audio_path d then [] else [video_path])%list /\
  (fst run = Returned (Some audio_path) ->
   extract_audio video_path (snd run) = (Returned (Some audio_path), snd run)).
Proof.
  intros audio_path run. subst audio_path run.
  destruct (present (audio_path_of video_path) d) eqn:E.
  - rewrite (extract_audio_hit video_path d E). cbn [fst snd].
    split; [now left|]. split; [reflexivity|].
    split; [now rewrite app_nil_r|].
    intros _. now apply extract_audio_hit.
  - rewrite (extract_audio_miss video_path d E).
    destruct (write_audiofile video_path (audio_path_of video_path))
      as [|e left_behind]; cbn [fst snd files extracted].
    + split; [now left|]. split; [now right|]. split; [reflexivity|].
      intros _. apply extract_audio_hit. unfold present. cbn [files].
      apply present_appended.
    + split; [now right|].
      split; [destruct left_behind; [now right|now left]|].
      split; [reflexivity|]. discriminate.
Qed.








(** A missing file is not sent to the transcription. *)
Lemma transcribe_audio_missing (audio_path : string) (d : disk) :
  present audio_path d = false ->
  transcribe_audio audio_path d = (Returned None, d).
Proof.
  intro H. unfold transcribe_audio, bind, path_exists.
  unfold present in H. now rewrite H.
Qed.

(** The directory of the audio files is not empty and does not end with
    a separator. *)
Lemma temp_audio_dir_plain :
  TEMP_AUDIO_DIR <> EmptyString /\ ends_with_sep TEMP_AUDIO_DIR = false.
Proof using DATA_DIR.
  unfold TEMP_AUDIO_DIR, path_join. cbn [starts_with_sep Ascii.eqb].
  change (Ascii.eqb "t" "/") with false. cbv iota.
  destruct DATA_DIR as [|x a] eqn:E; [split; [discriminate|reflexivity]|].
  destruct (ends_with_sep (String x a)).
  - split; [discriminate|]. apply (ends_with_sep_append (String x a)).
  - split; [discriminate|].
    rewrite <- Frontend.append_assoc.
    apply (ends_with_sep_append (String x a ++ "/")).
Qed.

(** X19.  The audio of a video is stored under the stem of its file name
    alone: for a file in any directory, whose name is a stem that does
    not start with a dot followed by an extension, the audio path is the
    audio directory, a separator, the stem and .mp3.  Two videos with the
    same stem, whatever their directories and extensions, share one audio
    file. *)
Theorem audio_path_of_stem (dir : string) (c : ascii) (stem e : string) :
  Ascii.eqb c "." = false ->
  WindowIds.has_char "/" (String c stem) = false ->
  WindowIds.has_char "/" e = false -> WindowIds.has_char "." e = false ->
  audio_path_of (dir ++ "/" ++ String c stem ++ "." ++ e)
  = TEMP_AUDIO_DIR ++ "/" ++ String c stem ++ ".mp3".
Proof using DATA_DIR.
  intros Hc Hstem Hes Hed. unfold audio_path_of, Ingest.basename.
  rewrite basename_of_joined.
  2:{ rewrite has_char_append, Hstem. simpl. exact Hes. }
  rewrite splitext_stem by assumption. cbn [fst].
  destruct temp_audio_dir_plain as [Hne Hend].
  apply path_join_plain; [exact Hne|exact Hend|].
  simpl. simpl in Hstem. apply orb_false_iff in Hstem.
  destruct Hstem as [Hfirst _]. exact Hfirst.
Qed.

End Service.

Lemma audio_path_of_stem_witness :
  audio_path_of "/srv/app/data"
    ("/srv/app/data/videos" ++ "/" ++ "news.v2" ++ "." ++ "mp4")
  = TEMP_AUDIO_DIR "/srv/app/data" ++ "/" ++ "news.v2" ++ ".mp3".
Proof.
  apply (@audio_path_of_stem "/srv/app/data" "/srv/app/data/videos" "n"%char
           "ews.v2" "mp4"); reflexivity.
Defined.


(** A failed extraction that leaves a file behind is a hit the next
    time. *)
Example extract_audio_after_failure :
  let write_audiofile :=
    fun _ _ : string => Failed (Exception "ffmpeg") true in
  let first :=
    extract_audio "/data" write_audiofile "/data/videos/news.mp4"
      (mkDisk [] [] []) in
  let second :=
    extract_audio "/data" write_audiofile "/data/videos/news.mp4"
      (snd first) in
  fst first = Returned None /\
  fst second = Returned (Some "/data/temp_audio/news.mp3") /\
  extracted (snd second) = ["/data/videos/news.mp4"].
Proof. vm_compute. repeat split; reflexivity. Qed.

(** The audio step on a fresh disk: extracted, transcribed, deleted. *)
Example audio_processing_sample :
  audio_processing "/data" (fun _ _ => Written)
    (fun _ => Returned [Fusion.mkSegment 0 12 "Good evening."])
    (fun _ => false) "/data/videos/news.mp4" (mkDisk [] [] [])
  = (Returned (Some [Fusion.mkSegment 0 12 "Good evening."]),
     mkDisk [] ["/data/videos/news.mp4"] ["/data/temp_audio/news.mp3"]).
Proof. vm_compute. reflexivity. Qed.

End Audio.

(* ================================================================== *)
(** ** app/core/tag_generator.py: the topic labels *)

Module Tagging.
Import Py.
Local Open Scope string_scope.
Local Open Scope py_scope.

(** The double quote. *)
Definition quote : string := String (ascii_of_nat 34) EmptyString.

Definition TAXONOMY : list string :=
  ["Politics"; "Conflict/War"; "Sports"; "Economy"; "Technology"; "Weather";
   "Health"; "Entertainment"].

(** The prompt of [classify_video_content]; [text_summary[:1000]] is the
    only part of the text that goes into it. *)
Definition prompt_of (text_summary : string) : string :=
  Rag.nl ++ "    You are an auto-tagging system for a news archive." ++ Rag.nl
  ++ "    " ++ Rag.nl
  ++ "    Allowed Tags: " ++ join ", " TAXONOMY ++ Rag.nl
  ++ "    " ++ Rag.nl
  ++ "    Task: Logically assign the most relevant 1 or 2 tags to the following text."
  ++ Rag.nl
  ++ "    Rules:" ++ Rag.nl
  ++ "    1. ONLY use tags from the Allowed Tags list." ++ Rag.nl
  ++ "    2. Return them as a comma-separated string (e.g., "
  ++ quote ++ "Politics, Economy" ++ quote ++ ")." ++ Rag.nl
  ++ "    3. If nothing matches, return " ++ quote ++ "General" ++ quote ++ "."
  ++ Rag.nl
  ++ "    " ++ Rag.nl
  ++ "    Text to classify:" ++ Rag.nl
  ++ "    " ++ quote ++ substring 0 1000 text_summary ++ quote ++ Rag.nl
  ++ "    ".

(** A chat-completion request with a single user message. *)
Record prompt_request : Type :=
  mkPrompt { prompt_model : string; prompt_content : string;
             prompt_temperature : Q }.

(** The requests sent to the language model and the lines printed. *)
Record tagging_session : Type :=
  mkTagging { sent : list prompt_request; printed : list string }.

(** The dictionary [video_tags], and the one the frontend loads. *)
Definition tags : Type := list (string * string).

(** [d[k] = v] *)
Fixpoint tags_set (d : tags) (k v : string) : tags :=
  match d with
  | [] => [(k, v)]
  | (k', v') :: d' =>
    if String.eqb k' k then (k, v) :: d' else (k', v') :: tags_set d' k v
  end.

(** [d.get(k)] *)
Fixpoint tags_get (d : tags) (k : string) : option string :=
  match d with
  | [] => None
  | (k', v) :: d' => if String.eqb k' k then Some v else tags_get d' k
  end.

(** streamlit_app.VideoSearchApp.get_video_metadata *)
Definition get_video_metadata (tags_data : tags) (video_filename : string)
  : string :=
  match tags_get tags_data video_filename with
  | Some t => t
  | None => "General"
  end.

(** [collection.get(where={"filename": f}, limit=3, include=["documents"])]
    on the entries of the collection: the documents of the first three
    entries with that file name, taken in the order in which they were
    added.  The call is taken to answer. *)
Definition has_filename (f : string) (r : Indexer.entry) : bool :=
  match IndexerFacts.dict_get (Indexer.metadata_of r) "filename" with
  | Some (Indexer.VStr g) => String.eqb g f
  | _ => false
  end.

Definition documents_of (entries : list Indexer.entry) (f : string)
  : list string :=
  map Indexer.document (firstn 3 (filter (has_filename f) entries)).

Section Client.

(** The language model, as in the answer synthesis. *)
Variable chat_create : prompt_request -> result (list (option string)).

Definition complete (req : prompt_request)
  : M tagging_session (list (option string)) :=
  fun s => (chat_create req, mkTagging (sent s ++ [req]) (printed s)).

Definition report (line : string) : M tagging_session unit :=
  fun s => (Returned tt, mkTagging (sent s) (printed s ++ [line])).

Definition classify_video_content (text_summary : string)
  : M tagging_session string :=
  let prompt := prompt_of text_summary in
  try_except
    (choices <- complete (mkPrompt "gpt-4o" prompt 0) ;;
     content <- match choices with
                | [] => raise (Exception "list index out of range")
                | first :: _ => ret first
                end ;;
     ret (match content with
          | Some (String _ _ as text) => text
          | _ => "General"
          end))
    (fun e =>
       report ("Error classifying content: " ++ exn_str e) ;;;
       ret "General").

(** The state of the tagging script: the source of UUIDs of the ingestion
    it runs, the session with the language model, and the tags file. *)
Record tagger : Type :=
  mkTagger { random : Ingest.rng; chat : tagging_session;
             tags_file : option tags }.

Definition put_rng (r : Ingest.rng) (t : tagger) : tagger :=
  mkTagger r (chat t) (tags_file t).

Definition put_chat (s : tagging_session) (t : tagger) : tagger :=
  mkTagger (random t) s (tags_file t).

(** The video files as OpenCV opens them, the collection if it can be
    opened, and whether the tags file can be opened for writing. *)
Variable capture : string -> Ingest.media.
Variable get_collection : result (list Indexer.entry).
Variable writable : bool.

(** The loop [for video in videos]; the progress messages are left
    out. *)
Fixpoint tag_videos (entries : list Indexer.entry)
    (videos : list Ingest.video_metadata) (video_tags : tags)
  : M tagging_session tags :=
  match videos with
  | [] => ret video_tags
  | video :: rest =>
    let vid_filename := Ingest.filename video in
    match documents_of entries vid_filename with
    | [] =>
      tag_videos entries rest (tags_set video_tags vid_filename "Uncategorized")
    | (_ :: _) as documents =>
      let combined_text := join " " documents in
      tags <- classify_video_content combined_text ;;
      tag_videos entries rest (tags_set video_tags vid_filename tags)
    end
  end.

(** [with open(output_path, "w") as f: json.dump(video_tags, f, indent=4)] *)
Definition dump (video_tags : tags) : M tagger unit :=
  fun t =>
    if writable
    then (Returned tt, mkTagger (random t) (chat t) (Some video_tags))
    else (Raised (Exception "Permission denied"), t).

Definition generate_video_tags (video_files : list string)
  : M tagger unit :=
  match get_collection with
  | Raised _ => ret tt
  | Returned entries =>
    videos <- zoom random put_rng
                (Ingest.ingest_videos capture video_files) ;;
    video_tags <- zoom chat put_chat (tag_videos entries videos []) ;;
    try_except (dump video_tags) (fun _ => ret tt)
  end.

(** *** What the classification returns *)

Definition classification_request (text_summary : string)
  : prompt_request :=
  mkPrompt "gpt-4o" (prompt_of text_summary) 0.

(** The label the language model gives a text. *)
Definition label_for (text_summary : string) : string :=
  match chat_create (classification_request text_summary) with
  | Returned (Some (String c text) :: _) => String c text
  | _ => "General"
  end.

(** The label of a file name, given the entries of the collection. *)
Definition label_of (entries : list Indexer.entry) (f : string) : string :=
  match documents_of entries f with
  | [] => "Uncategorized"
  | (_ :: _) as documents => label_for (join " " documents)
  end.

Lemma substring_twice (s : string) :
  forall n, substring 0 n (substring 0 n s) = substring 0 n s.
Proof.
  induction s as [|c s IH]; intros [|n]; simpl; try reflexivity.
  now rewrite IH.
Qed.

Lemma classify_run (text_summary : string) (s : tagging_session) :
  exists lines,
    classify_video_content text_summary s
    = (Returned (label_for text_summary),
       mkTagging (sent s ++ [classification_request text_summary])
                 (printed s ++ lines)) /\
    (List.length lines <= 1)%nat.
Proof.
  unfold classify_video_content, label_for, try_except, bind, complete, raise,
    ret, report.
  fold (classification_request text_summary).
  destruct (chat_create (classification_request text_summary))
    as [[|[[|c text]|] others]|e]; cbn [sent printed];
    first [ exists []; rewrite app_nil_r; split; [reflexivity|simpl; lia]
          | eexists [_]; split; [reflexivity|simpl; lia] ].
Qed.

Lemma label_for_not_empty (text_summary : string) :
  label_for text_summary <> "".
Proof.
  unfold label_for.
  destruct (chat_create (classification_request text_summary))
    as [[|[[|c text]|] others]|e]; discriminate.
Qed.

(** X20.  The classification of a text never raises and never returns an
    empty label: it sends one request, built from the first 1000
    characters of the text only, and returns the answer of the model, or
    General when the request fails or the answer is empty. *)
Theorem classify_video_content_total (text_summary : string)
    (s : tagging_session) :
  exists label s',
    classify_video_content text_summary s = (Returned label, s') /\
    sent s' = (sent s ++ [classification_request text_summary])%list /\
    classification_request text_summary
    = classification_request (substring 0 1000 text_summary) /\
    label <> "" /\
    match chat_create (classification_request text_summary) with
    | Returned (Some (String c text) :: _) => label = String c text
    | _ => label = "General"
    end.
Proof.
  destruct (classify_run text_summary s) as (lines & Hrun & _).
  do 2 eexists. split; [exact Hrun|]. split; [reflexivity|].
  split.
  { unfold classification_request, prompt_of. now rewrite substring_twice. }
  split; [apply label_for_not_empty|].
  unfold label_for.
  destruct (chat_create (classification_request text_summary))
    as [[|[[|c text]|] others]|e]; reflexivity.
Qed.

(** *** What the tagging script writes *)

Lemma tags_get_set (d : tags) (k v k' : string) :
  tags_get (tags_set d k v) k'
  = if String.eqb k k' then Some v else tags_get d k'.
Proof.
  induction d as [|[k0 v0] d IH]; simpl.
  - reflexivity.
  - destruct (String.eqb k0 k) eqn:E; simpl.
    + apply String.eqb_eq in E. subst k0.
      destruct (String.eqb k k'); reflexivity.
    + rewrite IH. destruct (String.eqb k k') eqn:E'; [|reflexivity].
      apply String.eqb_eq in E'. subst k'. now rewrite E.
Qed.

Definition ingested_name (videos : list Ingest.video_metadata) (f : string)
  : bool :=
  existsb (fun v => String.eqb (Ingest.filename v) f) videos.

(** The videos the loop asks the model about: those with documents. *)
Definition classified (entries : list Indexer.entry)
    (videos : list Ingest.video_metadata) : list Ingest.video_metadata :=
  filter (fun v => match documents_of entries (Ingest.filename v) with
                   | [] => false
                   | _ :: _ => true
                   end) videos.

Lemma tag_videos_run (entries : list Indexer.entry)
    (videos : list Ingest.video_metadata) :
  forall video_tags s, exists result s',
    tag_videos entries videos video_tags s = (Returned result, s') /\
    (forall f, tags_get result f
               = if ingested_name videos f then Some (label_of entries f)
                 else tags_get video_tags f) /\
    sent s'
    = (sent s
       ++ map (fun v => classification_request
                          (join " " (documents_of entries (Ingest.filename v))))
              (classified entries videos))%list.
Proof.
  induction videos as [|video rest IH]; intros video_tags s.
  - exists video_tags, s. simpl. rewrite app_nil_r. now repeat split.
  - cbn [tag_videos]. unfold classified. cbn [filter].
    fold (classified entries rest).
    assert (Hlookup : forall label result,
              label = label_of entries (Ingest.filename video) ->
              (forall f, tags_get result f
                         = if ingested_name rest f
                           then Some (label_of entries f)
                           else tags_get
                                  (tags_set video_tags (Ingest.filename video)
                                     label) f) ->
              forall f, tags_get result f
                        = if ingested_name (video :: rest) f
                          then Some (label_of entries f)
                          else tags_get video_tags f).
    { intros label result Hl Hres f. rewrite Hres, tags_get_set.
      cbn [ingested_name existsb]. fold (ingested_name rest f).
      destruct (ingested_name rest f); [now rewrite orb_true_r|].
      rewrite orb_false_r.
      destruct (String.eqb (Ingest.filename video) f) eqn:E; [|reflexivity].
      apply String.eqb_eq in E. subst f. now rewrite Hl. }
    destruct (documents_of entries (Ingest.filename video))
      as [|doc docs] eqn:Edocs.
    + destruct (IH (tags_set video_tags (Ingest.filename video)
                      "Uncategorized") s)
        as (result & s' & Hrun & Hget & Hreq).
      exists result, s'. split; [exact Hrun|]. split; [|exact Hreq].
      apply (Hlookup "Uncategorized"); [|exact Hget].
      unfold label_of. now rewrite Edocs.
    + unfold bind.
      destruct (classify_run (join " " (doc :: docs)) s)
        as (lines & Hc & _).
      rewrite Hc.
      match goal with
      | |- context [tag_videos entries rest ?d ?s1] =>
        destruct (IH d s1) as (result & s' & Hrun & Hget & Hreq)
      end.
      exists result, s'. split; [exact Hrun|]. split.
      * apply (Hlookup (label_for (join " " (doc :: docs)))); [|exact Hget].
        unfold label_of. now rewrite Edocs.
      * rewrite Hreq. cbn [sent map]. rewrite Edocs.
        now rewrite <- app_assoc.
Qed.

Lemma label_of_not_empty (entries : list Indexer.entry) (f : string) :
  label_of entries f <> "".
Proof.
  unfold label_of. destruct (documents_of entries f);
    [discriminate|apply label_for_not_empty].
Qed.

(** X21.  When the collection can be opened and the tags file written, the
    tagging script returns normally and the file it leaves gives the
    frontend a label for every file name: for an ingested video the
    answer of the model on its first three documents, or Uncategorized
    when the collection holds no document of it, and General for a name
    that was not ingested.  No label is empty, and the model is asked
    once per ingested video that has documents. *)
Theorem every_video_is_labelled (video_files : list string)
    (entries : list Indexer.entry) (t : tagger) :
  get_collection = Returned entries ->
  writable = true ->
  let run := generate_video_tags video_files t in
  let videos := Ingest.ingested capture video_files (random t) in
  exists tags_data,
    fst run = Returned tt /\
    tags_file (snd run) = Some tags_data /\
    (forall f, get_video_metadata tags_data f
               = if ingested_name videos f then label_of entries f
                 else "General") /\
    (forall f, get_video_metadata tags_data f <> "") /\
    List.length (sent (chat (snd run)))
    = (List.length (sent (chat t))
       + List.length (classified entries videos))%nat.
Proof.
  intros Hcoll Hw run videos. subst run videos.
  unfold generate_video_tags. rewrite Hcoll. unfold bind, zoom.
  rewrite Ingest.ingested_fresh.
  pose proof (Ingest.ingest_loop_fresh capture video_files [] (random t))
    as Hing.
  unfold Ingest.ingest_videos.
  destruct (Ingest.ingest_loop capture video_files [] (random t))
    as [res r'].
  cbn [fst] in Hing. subst res. cbn [app].
  destruct (tag_videos_run entries
              (Ingest.fresh_videos capture video_files (random t)) []
              (chat (put_rng r' t)))
    as (result & s' & Hrun & Hget & Hreq).
  rewrite Hrun. unfold try_except, dump. rewrite Hw.
  exists result. cbn [fst snd tags_file chat put_chat].
  split; [reflexivity|]. split; [reflexivity|].
  assert (Hmeta : forall f,
            get_video_metadata result f
            = if ingested_name
                   (Ingest.fresh_videos capture video_files (random t)) f
              then label_of entries f else "General").
  { intro f. unfold get_video_metadata. rewrite Hget.
    destruct (ingested_name _ f); reflexivity. }
  split; [exact Hmeta|]. split.
  - intro f. rewrite Hmeta.
    destruct (ingested_name _ f); [apply label_of_not_empty|discriminate].
  - rewrite Hreq, length_app, length_map. reflexivity.
Qed.

End Client.

(** A collection with one entry of news.mp4, a folder with news.mp4 and
    sport.mp4, and a model that answers Politics. *)
Definition sample_entries : list Indexer.entry :=
  [ Indexer.mkEntry "1a2b3c4d_0.0_20.0"
      "[Visual Scene]: A studio. [On-Screen Text]: LIVE [Audio Transcript]: Good evening."
      [ ("filename", Indexer.VStr "news.mp4");
        ("video_id", Indexer.VStr "1a2b3c4d") ] ].

Definition sample_files : list string :=
  ["/data/videos/news.mp4"; "/data/videos/sport.mp4"].

Definition sample_tagger : tagger :=
  mkTagger (Ingest.mkRng (fun _ => "3f2a9c1e-5b7d-4e6f-8a1b-0c2d4e6f8a1b") 0)
           (mkTagging [] []) None.

Lemma every_video_is_labelled_witness :
  let chat_create := fun _ : prompt_request => Returned [Some "Politics"] in
  let capture := fun _ : string => Ingest.mkMedia true 25 750 in
  let run :=
    generate_video_tags chat_create capture (Returned sample_entries) true
      sample_files sample_tagger in
  let videos := Ingest.ingested capture sample_files (random sample_tagger) in
  exists tags_data,
    fst run = Returned tt /\
    tags_file (snd run) = Some tags_data /\
    (forall f, get_video_metadata tags_data f
               = if ingested_name videos f
                 then label_of chat_create sample_entries f
                 else "General") /\
    (forall f, get_video_metadata tags_data f <> "") /\
    List.length (sent (chat (snd run)))
    = (List.length (sent (chat sample_tagger))
       + List.length (classified sample_entries videos))%nat.
Proof.
  apply (@every_video_is_labelled (fun _ => Returned [Some "Politics"])
           (fun _ => Ingest.mkMedia true 25 750) (Returned sample_entries)
           true sample_files sample_entries sample_tagger);
    reflexivity.
Defined.

(** The file that run leaves. *)
Example generate_video_tags_sample :
  tags_file
    (snd (generate_video_tags (fun _ => Returned [Some "Politics"])
            (fun _ => Ingest.mkMedia true 25 750) (Returned sample_entries)
            true sample_files sample_tagger))
  = Some [("news.mp4", "Politics"); ("sport.mp4", "Uncategorized")].
Proof. vm_compute. reflexivity. Qed.

(** Without collection nothing is asked and nothing is written. *)
Example generate_video_tags_without_collection :
  generate_video_tags (fun _ => Returned [Some "Politics"])
    (fun _ => Ingest.mkMedia true 25 750)
    (Raised (Exception "Collection news_videos does not exist.")) true
    sample_files sample_tagger
  = (Returned tt, sample_tagger).
Proof. reflexivity. Qed.

End Tagging.
